(** * PathGeneration: pose interpolation and robot simulation

    A shallow embedding of [PathStructuresBezier.py] (the [Path]
    interpolator, the editing of the pose list and the guard under which
    a simulation is started) and [Robot.py] (curvature pass, ideal and
    pure-pursuit robots), followed by the properties established about
    them.

    Numbers.  Python floats are idealised as real numbers ([R]); a float
    division by zero raises [ZeroDivisionError] as in Python.  Integers
    used as list indexes are [Z], with Python's negative indexing written
    out.  Loops whose termination is not evident carry a fuel argument.

    Effects.  A Python exception is a value of [exn]; a method that
    mutates [self.points] returns the new list next to its outcome, so
    that the points appended before an exception stay observable. *)

From Stdlib Require Import Reals Lra Lia ZArith Bool String List.
Import ListNotations.
Local Open Scope R_scope.

(* ================================================================== *)
(** ** Outcomes of a Python call *)

Inductive exn : Set :=
| ZeroDivisionError
| UnboundLocalError
| AssertionError
| IndexError
| AttributeError
| NotImplementedError.

Inductive result (A : Type) : Type :=
| Ok (a : A)
| Raise (e : exn)
| OutOfFuel.

Arguments Ok {A} a.
Arguments Raise {A} e.
Arguments OutOfFuel {A}.

Definition bind {A B : Type} (m : result A) (k : A -> result B) : result B :=
  match m with
  | Ok a => k a
  | Raise e => Raise e
  | OutOfFuel => OutOfFuel
  end.

Notation "x <- m ;; k" := (bind m (fun x => k))
  (at level 61, m at next level, right associativity).

(** [l[i]] for a Python list: a negative index counts from the end. *)
Definition py_norm (n : nat) (i : Z) : Z :=
  if (i <? 0)%Z then (i + Z.of_nat n)%Z else i.

Definition py_index {A : Type} (l : list A) (i : Z) : result A :=
  let j := py_norm (length l) i in
  if (j <? 0)%Z then Raise IndexError
  else match nth_error l (Z.to_nat j) with
       | Some a => Ok a
       | None => Raise IndexError
       end.

Fixpoint list_update {A : Type} (f : A -> A) (n : nat) (l : list A) : list A :=
  match l, n with
  | [], _ => []
  | a :: l', O => f a :: l'
  | a :: l', S n' => a :: list_update f n' l'
  end.

(** [l[i].attr = v]: the object at index [i] is changed in place. *)
Definition py_update {A : Type} (l : list A) (i : Z) (f : A -> A)
  : result (list A) :=
  _ <- py_index l i ;;
  Ok (list_update f (Z.to_nat (py_norm (length l) i)) l).

(** [range(lo, hi)] *)
Definition zrange (lo hi : Z) : list Z :=
  map (fun k => (lo + Z.of_nat k)%Z) (seq 0 (Z.to_nat (hi - lo))).

(* ================================================================== *)
(** ** Collaborators outside the two source files *)

Module Utility.

(** Modelled from the spec: [Utility.hypo] is not among the sources; the
    spec calls its value the magnitude of a vector. *)
Definition hypo (a b : R) : R := sqrt (a * a + b * b).

(** Modelled from the spec: [Utility.distance] is not among the sources;
    the spec calls its value the Euclidean distance of two positions. *)
Definition distance (x1 y1 x2 y2 : R) : R := hypo (x2 - x1) (y2 - y1).

(** Modelled from the spec: [Utility.clamp] is not among the sources; the
    spec says the value is clamped to [[lo, hi]]. *)
Definition clamp (v lo hi : R) : R := Rmax lo (Rmin v hi).

Inductive Color : Set := RED | GREEN | ORANGE | BLACK | PURPLE.

End Utility.

Module BezierCurves.

(** Modelled from the spec: [BezierCurves.getBezierPoint] is not among the
    sources; the spec gives the cubic Bezier position with control points
    P1, P1+V1, P2+V2, P2. *)
Definition bezier1 (t a b c d : R) : R :=
  (1 - t) * (1 - t) * (1 - t) * a + 3 * (1 - t) * (1 - t) * t * b
  + 3 * (1 - t) * t * t * c + t * t * t * d.

Definition getBezierPoint (t : R) (P1 V1 V2 P2 : R * R) : R * R :=
  (bezier1 t (fst P1) (fst P1 + fst V1) (fst P2 + fst V2) (fst P2),
   bezier1 t (snd P1) (snd P1 + snd V1) (snd P2 + snd V2) (snd P2)).

(** Modelled from the spec: [BezierCurves.getBezierGradient] is not among
    the sources; the spec gives the derivative of that same cubic. *)
Definition bezier1' (t a b c d : R) : R :=
  3 * (1 - t) * (1 - t) * (b - a) + 6 * (1 - t) * t * (c - b)
  + 3 * t * t * (d - c).

Definition getBezierGradient (t : R) (P1 V1 V2 P2 : R * R) : R * R :=
  (bezier1' t (fst P1) (fst P1 + fst V1) (fst P2 + fst V2) (fst P2),
   bezier1' t (snd P1) (snd P1 + snd V1) (snd P2 + snd V2) (snd P2)).

End BezierCurves.

(** [math.atan2(y, x)] on the reals, by quadrant. *)
Definition atan2 (y x : R) : R :=
  if Rlt_dec 0 x then atan (y / x)
  else if Rlt_dec x 0 then
         (if Rle_dec 0 y then atan (y / x) + PI else atan (y / x) - PI)
  else if Rlt_dec 0 y then PI / 2
  else if Rlt_dec y 0 then - (PI / 2)
  else 0.

(** [a % b] on floats, for a positive [b]: the result lies in [[0, b)]. *)
Definition fmod (a b : R) : R := a - b * IZR (Zfloor (a / b)).

(* ================================================================== *)
(** ** PathStructuresBezier.py *)

Module Pose.

Record t : Type := mk {
  x : R;
  y : R;
  forward_x : R;
  backward_x : R;
  forward_y : R;
  backward_y : R;
  theta : option R;
  isBreak : bool
}.

(** [Pose.__init__], which calls [setVectorOffset]; [isBreak] starts
    [False]. *)
Definition init (x y forward_x_pt forward_y_pt : R) (theta : option R) : t :=
  mk x y (forward_x_pt - x) (x - forward_x_pt)
     (forward_y_pt - y) (y - forward_y_pt) theta false.

Definition setBreak (b : bool) (p : t) : t :=
  mk (x p) (y p) (forward_x p) (backward_x p) (forward_y p) (backward_y p)
     (theta p) b.

End Pose.

Module Point.

(** A [Point] is built with [x], [y] and [color]; [theta] is attached by
    [interpolateTheta] and [curve] by [startSimulation]: [None] stands
    for an attribute not set yet. *)
Record t : Type := mk {
  x : R;
  y : R;
  color : Utility.Color;
  theta : option R;
  curve : option R
}.

Definition init (x y : R) (color : Utility.Color) : t :=
  mk x y color None None.

Definition set_theta (v : R) (p : t) : t :=
  mk (x p) (y p) (color p) (Some v) (curve p).

Definition set_curve (v : R) (p : t) : t :=
  mk (x p) (y p) (color p) (theta p) (Some v).

End Point.

Module Path.

Record t : Type := mk {
  poses : list Pose.t;
  points : list Point.t;
  segmentDistance : R
}.

(** The [while ns < 1] loop of [interpolateSplineCurve].  [xy] is the
    binding of the local variables [x, y] ([None] while unbound). *)
Fixpoint sampleLoop (fuel : nat) (segmentDistance : R) (P1 V1 V2 P2 : R * R)
  (ns : R) (xy : option (R * R)) (points : list Point.t)
  : list Point.t * result (option (R * R)) :=
  match fuel with
  | O => (points, OutOfFuel)
  | S fuel' =>
      if Rlt_dec ns 1 then
        let xy' := BezierCurves.getBezierPoint ns P1 V1 V2 P2 in
        let points' := points ++ [Point.init (fst xy') (snd xy') Utility.RED] in
        let g := BezierCurves.getBezierGradient ns P1 V1 V2 P2 in
        let h := Utility.hypo (fst g) (snd g) in
        if Req_dec_T h 0 then (points', Raise ZeroDivisionError)
        else sampleLoop fuel' segmentDistance P1 V1 V2 P2
               (ns + segmentDistance / h) (Some xy') points'
      else (points, Ok xy)
  end.

(** The parametric advance of the first step, [s / hypo(gradient(0))]. *)
Definition firstAdvance (p1 p2 : Pose.t) (s : R) : R :=
  let P1 := (Pose.x p1, Pose.y p1) in
  let V1 := (Pose.forward_x p1, Pose.forward_y p1) in
  let V2 := (Pose.backward_x p2, Pose.backward_y p2) in
  let P2 := (Pose.x p2, Pose.y p2) in
  let g := BezierCurves.getBezierGradient 0 P1 V1 V2 P2 in
  s / Utility.hypo (fst g) (snd g).

Definition interpolateSplineCurve (fuel : nat) (segmentDistance : R)
  (poses : list Pose.t) (points : list Point.t) (i : nat) (s : R)
  : list Point.t * result R :=
  match nth_error poses i, nth_error poses (i + 1) with
  | Some p1, Some p2 =>
      let P1 := (Pose.x p1, Pose.y p1) in
      let V1 := (Pose.forward_x p1, Pose.forward_y p1) in
      let V2 := (Pose.backward_x p2, Pose.backward_y p2) in
      let P2 := (Pose.x p2, Pose.y p2) in
      let finish (r : list Point.t * result (option (R * R))) :=
        match r with
        | (points', Ok (Some xy)) =>
            (points',
             Ok (segmentDistance
                 - Utility.distance (fst xy) (snd xy) (fst P2) (snd P2)))
        | (points', Ok None) => (points', Raise UnboundLocalError)
        | (points', Raise e) => (points', Raise e)
        | (points', OutOfFuel) => (points', OutOfFuel)
        end in
      if Req_dec_T s 0 then
        finish (sampleLoop fuel segmentDistance P1 V1 V2 P2 0 None points)
      else
        let g := BezierCurves.getBezierGradient 0 P1 V1 V2 P2 in
        let h := Utility.hypo (fst g) (snd g) in
        if Req_dec_T h 0 then (points, Raise ZeroDivisionError)
        else
          let ns := s / h in
          if Rgt_dec ns 1 then (points, Ok (ns - 1))
          else finish (sampleLoop fuel segmentDistance P1 V1 V2 P2 ns None points)
  | _, _ => (points, Raise IndexError)
  end.

(** The adjustment of [theta2] made in [interpolateTheta]. *)
Definition theta2adjusted (theta1 theta2 : R) : R :=
  if Rge_dec (theta2 - theta1) PI then theta2 - 2 * PI
  else if Rge_dec (theta1 - theta2) PI then theta2 + 2 * PI
  else theta2.

(** [for i in range(0, i2-i1+1)]: the right-hand side, with its division,
    is evaluated before the subscript of the assignment. *)
Fixpoint thetaInner (range : list Z) (i1 : Z) (theta1 : R) (i2 : Z)
  (theta2 : R) (points : list Point.t) : list Point.t * result unit :=
  match range with
  | [] => (points, Ok tt)
  | i :: range' =>
      if (i2 - i1 =? 0)%Z then (points, Raise ZeroDivisionError)
      else
        let v := theta1 + (theta2adjusted theta1 theta2 - theta1)
                          * (IZR i / IZR (i2 - i1)) in
        match py_update points (i1 + i) (Point.set_theta v) with
        | Ok points' => thetaInner range' i1 theta1 i2 theta2 points'
        | Raise e => (points, Raise e)
        | OutOfFuel => (points, OutOfFuel)
        end
  end.

(** [for ki in range(1, len(knownThetaIndexes))]; the value carried is the
    pair [i1, theta1] after the loop. *)
Fixpoint thetaOuter (known : list (Z * R)) (i1 : Z) (theta1 : R)
  (points : list Point.t) : list Point.t * result (Z * R) :=
  match known with
  | [] => (points, Ok (i1, theta1))
  | (i2, theta2) :: known' =>
      match thetaInner (zrange 0 (i2 - i1 + 1)) i1 theta1 i2 theta2 points with
      | (points', Ok _) => thetaOuter known' i2 theta2 points'
      | (points', Raise e) => (points', Raise e)
      | (points', OutOfFuel) => (points', OutOfFuel)
      end
  end.

(** [for index in range(i1, len(self.points))] *)
Fixpoint thetaFill (range : list Z) (theta1 : R) (points : list Point.t)
  : list Point.t * result unit :=
  match range with
  | [] => (points, Ok tt)
  | index :: range' =>
      match py_update points index (Point.set_theta theta1) with
      | Ok points' => thetaFill range' theta1 points'
      | Raise e => (points, Raise e)
      | OutOfFuel => (points, OutOfFuel)
      end
  end.

Definition interpolateTheta (knownThetaIndexes : list (Z * R))
  (points : list Point.t) : list Point.t * result unit :=
  match knownThetaIndexes with
  | [] => (points, Raise IndexError)
  | (i1, theta1) :: known' =>
      if (i1 =? 0)%Z then
        match thetaOuter known' i1 theta1 points with
        | (points', Ok (i1', theta1')) =>
            thetaFill (zrange i1' (Z.of_nat (length points'))) theta1' points'
        | (points', Raise e) => (points', Raise e)
        | (points', OutOfFuel) => (points', OutOfFuel)
        end
      else (points, Raise AssertionError)
  end.

(** [poses[i].x == poses[i+1].x and poses[i].y == poses[i+1].y] *)
Definition samePosition (p1 p2 : Pose.t) : bool :=
  if Req_dec_T (Pose.x p1) (Pose.x p2) then
    if Req_dec_T (Pose.y p1) (Pose.y p2) then true else false
  else false.

(** One turn of the [for i in range(len(self.poses) - 1)] loop of
    [interpolatePoints]; the carried values are [s] and
    [knownThetaIndexes]. *)
Definition segmentBody (fuel : nat) (segmentDistance : R)
  (poses : list Pose.t) (i : nat) (s : R) (known : list (Z * R))
  (points : list Point.t) : list Point.t * result (R * list (Z * R)) :=
  match nth_error poses i, nth_error poses (i + 1) with
  | Some p1, Some p2 =>
      if samePosition p1 p2 then (points, Ok (s, known))
      else
        let known' := match Pose.theta p1 with
                      | Some th => known ++ [(Z.of_nat (length points), th)]
                      | None => known
                      end in
        match interpolateSplineCurve fuel segmentDistance poses points i s with
        | (points', Ok s') =>
            (points', Ok (if Pose.isBreak p2 then 0 else s', known'))
        | (points', Raise e) => (points', Raise e)
        | (points', OutOfFuel) => (points', OutOfFuel)
        end
  | _, _ => (points, Raise IndexError)
  end.

Fixpoint segmentLoop (fuel : nat) (segmentDistance : R) (poses : list Pose.t)
  (range : list nat) (s : R) (known : list (Z * R)) (points : list Point.t)
  : list Point.t * result (R * list (Z * R)) :=
  match range with
  | [] => (points, Ok (s, known))
  | i :: range' =>
      match segmentBody fuel segmentDistance poses i s known points with
      | (points', Ok (s', known')) =>
          segmentLoop fuel segmentDistance poses range' s' known' points'
      | (points', Raise e) => (points', Raise e)
      | (points', OutOfFuel) => (points', OutOfFuel)
      end
  end.

Definition with_points (p : t) (points : list Point.t) : t :=
  mk (poses p) points (segmentDistance p).

Definition interpolatePoints (fuel : nat) (p : t) : t * result unit :=
  if (length (poses p) <? 2)%nat then (with_points p [], Ok tt)
  else
    match segmentLoop fuel (segmentDistance p) (poses p)
            (seq 0 (length (poses p) - 1)) 0 [] [] with
    | (points', Ok (_, known)) =>
        match py_index (poses p) (-1) with
        | Ok plast =>
            let known' :=
              match Pose.theta plast with
              | Some th => known ++ [((Z.of_nat (length points') - 1)%Z, th)]
              | None => known
              end in
            if (1 <? length (poses p))%nat then
              let r := interpolateTheta known' points' in
              (with_points p (fst r), snd r)
            else (with_points p points', Ok tt)
        | Raise e => (with_points p points', Raise e)
        | OutOfFuel => (with_points p points', OutOfFuel)
        end
    | (points', Raise e) => (with_points p points', Raise e)
    | (points', OutOfFuel) => (with_points p points', OutOfFuel)
    end.

End Path.

(* ================================================================== *)
(** ** Robot.py *)

Definition STEP_TIME : R := 2 / 100.
Definition K_P_TRANS : R := 30.
Definition K_P_ROT : R := 1.
Definition STOP_DISTANCE_THRESHOLD : R := 1.
Definition POSITION_NOISE : R := 1 / 10.
Definition MAX_TRANS_ACCEL : R := 120 * (2 / 100).
Definition MAX_ROT_ACCEL : R := 100 * (2 / 100).
Definition MAX_SPEED : R := 60.

Module SimulationPoint.

(** [kwargs] is the keyword-argument bag stored by
    [self.__dict__.update(kwargs)], in the order given. *)
Record t : Type := mk {
  x : R;
  y : R;
  theta : R;
  kwargs : list (string * R)
}.

Fixpoint lookup (name : string) (kv : list (string * R)) : option R :=
  match kv with
  | [] => None
  | (k, v) :: kv' => if String.eqb k name then Some v else lookup name kv'
  end.

(** Reading attribute [name]: [None] is Python's [AttributeError]. *)
Definition getattr (p : t) (name : string) : option R :=
  match lookup name (kwargs p) with
  | Some v => Some v
  | None =>
      if String.eqb name "x" then Some (x p)
      else if String.eqb name "y" then Some (y p)
      else if String.eqb name "theta" then Some (theta p)
      else None
  end.

End SimulationPoint.

(** Reading an attribute of a point that may not be set. *)
Definition attr (a : option R) : result R :=
  match a with
  | Some v => Ok v
  | None => Raise AttributeError
  end.

Module Robot.

Inductive variant : Type :=
| GenericRobot
| IdealRobot
| PurePursuitRobot (lookahead : R).

Record t : Type := mk {
  width : R;
  length : R;
  simulation : option (list SimulationPoint.t);
  kind : variant
}.

(** The angle computed for point [i] in [startSimulation], from the
    coordinates of the points at [i-1], [i] and [i+1]. *)
Definition curveAngle (pm p pp : R * R) : R :=
  let angle :=
    atan2 (snd pp - snd pm) (fst pp - fst pm)
    - atan2 (snd p - snd pm) (fst p - fst pm) in
  if Rgt_dec angle PI then angle - 2 * PI else angle.

(** [for i in range(1, len(points) - 1)] *)
Fixpoint curveLoop (range : list Z) (points : list Point.t)
  : result (list Point.t) :=
  match range with
  | [] => Ok points
  | i :: range' =>
      pp <- py_index points (i + 1) ;;
      pm <- py_index points (i - 1) ;;
      p <- py_index points i ;;
      points' <- py_update points i
                   (Point.set_curve
                      (Rabs (curveAngle (Point.x pm, Point.y pm)
                               (Point.x p, Point.y p)
                               (Point.x pp, Point.y pp)))) ;;
      curveLoop range' points'
  end.

(** The curvature pass that opens [startSimulation]. *)
Definition curvature (points : list Point.t) : result (list Point.t) :=
  points1 <- py_update points 0 (Point.set_curve 0) ;;
  points2 <- py_update points1 (-1) (Point.set_curve 0) ;;
  curveLoop (zrange 1 (Z.of_nat (List.length points2) - 1)) points2.

End Robot.

Module IdealRobot.

Fixpoint computeSimulation (points : list Point.t)
  : result (list SimulationPoint.t) :=
  match points with
  | [] => Ok []
  | p :: points' =>
      th <- attr (Point.theta p) ;;
      rest <- computeSimulation points' ;;
      Ok (SimulationPoint.mk (Point.x p) (Point.y p) th [] :: rest)
  end.

End IdealRobot.

Module PurePursuitRobot.

Definition MAX_TIMESTEPS : Z := 50000.

(** The [while start < end] loop of [findClosestPoint]; [n] bounds the
    turns left, [end - start]. *)
Fixpoint closestLoop (n : nat) (points : list Point.t) (x y : R)
  (end_ start minIndex : Z) (minDist : R) : result Z :=
  match n with
  | O => Ok minIndex
  | S n' =>
      if (start <? end_)%Z then
        p <- py_index points start ;;
        let dist := Utility.distance x y (Point.x p) (Point.y p) in
        if Rlt_dec dist minDist
        then closestLoop n' points x y end_ (start + 1) start dist
        else closestLoop n' points x y end_ (start + 1) minIndex minDist
      else Ok minIndex
  end.

Definition findClosestPoint (points : list Point.t) (x y : R)
  (start end_ : Z) : result Z :=
  let start := Z.max start 0 in
  let end_ := Z.min end_ (Z.of_nat (List.length points) - 1) in
  p <- py_index points start ;;
  let minDist := Utility.distance x y (Point.x p) (Point.y p) in
  closestLoop (Z.to_nat (end_ - (start + 1))) points x y end_ (start + 1)
    start minDist.

(** The state carried by the [while] loop of [computeSimulation];
    [draws] counts the calls made to [random.triangular]. *)
Record state : Type := mkState {
  x : R;
  y : R;
  theta : R;
  xvel : R;
  yvel : R;
  tvel : R;
  li : Z;
  ci : Z;
  timestep : Z;
  simulation : list SimulationPoint.t;
  draws : nat
}.

(** [while li < len(points) - 1 and distance(...) < self.lookahead];
    [n] bounds the turns left, [len(points) - 1 - li]. *)
Fixpoint advanceLookahead (n : nat) (lookahead : R) (points : list Point.t)
  (ci li : Z) : result Z :=
  match n with
  | O => Ok li
  | S n' =>
      if (li <? Z.of_nat (List.length points) - 1)%Z then
        pl <- py_index points li ;;
        pc <- py_index points ci ;;
        if Rlt_dec (Utility.distance (Point.x pl) (Point.y pl)
                      (Point.x pc) (Point.y pc)) lookahead
        then advanceLookahead n' lookahead points ci (li + 1)
        else Ok li
      else Ok li
  end.

(** The condition of the main [while] loop. *)
Definition running (points : list Point.t) (st : state) : result bool :=
  if negb (li st =? Z.of_nat (List.length points) - 1)%Z then Ok true
  else
    plast <- py_index points (-1) ;;
    if Rgt_dec (Utility.distance (Point.x plast) (Point.y plast) (x st) (y st))
         STOP_DISTANCE_THRESHOLD then Ok true
    else if Rgt_dec (Rabs (xvel st)) 5 then Ok true
    else if Rgt_dec (Rabs (yvel st)) 5 then Ok true
    else if Rgt_dec (Rabs (tvel st)) 5 then Ok true
    else Ok false.

(** One turn of the main loop, past the [MAX_TIMESTEPS] test.  [rng k] is
    the value of the [k]-th call to [random.triangular]. *)
Definition step (lookahead : R) (rng : nat -> R) (points : list Point.t)
  (st : state) : result state :=
  ci' <- findClosestPoint points (x st) (y st) (ci st) (ci st + 30) ;;
  li' <- advanceLookahead (Z.to_nat (Z.of_nat (List.length points) - 1 - li st))
           lookahead points ci' (li st) ;;
  pl <- py_index points li' ;;
  let targetXVel := (Point.x pl - x st) * K_P_TRANS in
  let targetYVel := (Point.y pl - y st) * K_P_TRANS in
  let mag := Utility.hypo targetXVel targetYVel in
  if Req_dec_T mag 0 then Raise ZeroDivisionError
  else
    let scalar := Rmin 1 (MAX_SPEED / mag) in
    let targetXVel := targetXVel * scalar in
    let targetYVel := targetYVel * scalar in
    thl <- attr (Point.theta pl) ;;
    let dtheta := fmod (thl - theta st) (2 * PI) in
    let dtheta := if Rgt_dec dtheta PI then dtheta - 2 * PI else dtheta in
    let targetTVel := dtheta * K_P_ROT in
    let xvel' := xvel st
                 + Utility.clamp (targetXVel - xvel st)
                     (- MAX_TRANS_ACCEL) MAX_TRANS_ACCEL in
    let yvel' := yvel st
                 + Utility.clamp (targetYVel - yvel st)
                     (- MAX_TRANS_ACCEL) MAX_TRANS_ACCEL in
    let tvel' := tvel st
                 + Utility.clamp (targetTVel - tvel st)
                     (- MAX_ROT_ACCEL) MAX_ROT_ACCEL in
    let x' := x st + (xvel' * STEP_TIME + rng (draws st)) in
    let y' := y st + (yvel' * STEP_TIME + rng (S (draws st))) in
    let theta' := theta st + tvel' * STEP_TIME in
    pc <- py_index points ci' ;;
    curve <- attr (Point.curve pl) ;;
    Ok (mkState x' y' theta' xvel' yvel' tvel' li' ci' (timestep st + 1)
          (simulation st ++
             [SimulationPoint.mk x' y' theta'
                [("xvel"%string, xvel'); ("yvel"%string, yvel');
                 ("tvel"%string, tvel');
                 ("cx"%string, Point.x pc); ("cy"%string, Point.y pc);
                 ("lx"%string, Point.x pl); ("ly"%string, Point.y pl);
                 ("curve"%string, curve)]])
          (S (S (draws st)))).

(** The state built before the main loop. *)
Definition initial (rng : nat -> R) (points : list Point.t) : result state :=
  p0 <- py_index points 0 ;;
  th <- attr (Point.theta p0) ;;
  Ok (mkState (Point.x p0 + 10 * rng O) (Point.y p0 + 10 * rng 1%nat) th
        0 0 0 0 0 0 [] 2).

Fixpoint mainLoop (fuel : nat) (lookahead : R) (rng : nat -> R)
  (points : list Point.t) (st : state) : result (list SimulationPoint.t) :=
  match fuel with
  | O => OutOfFuel
  | S fuel' =>
      c <- running points st ;;
      if c then
        if (timestep st >? MAX_TIMESTEPS)%Z then Ok (simulation st)
        else
          st' <- step lookahead rng points st ;;
          mainLoop fuel' lookahead rng points st'
      else Ok (simulation st)
  end.

Definition computeSimulation (fuel : nat) (lookahead : R) (rng : nat -> R)
  (points : list Point.t) : result (list SimulationPoint.t) :=
  st <- initial rng points ;;
  mainLoop fuel lookahead rng points st.

End PurePursuitRobot.

Module GenericRobot.

(** [self.computeSimulation(points)], by the class of [self]. *)
Definition computeSimulation (fuel : nat) (rng : nat -> R) (self : Robot.t)
  (points : list Point.t) : result (list SimulationPoint.t) :=
  match Robot.kind self with
  | Robot.GenericRobot => Raise NotImplementedError
  | Robot.IdealRobot => IdealRobot.computeSimulation points
  | Robot.PurePursuitRobot lookahead =>
      PurePursuitRobot.computeSimulation fuel lookahead rng points
  end.

(** [startSimulation]: the robot and the (mutated) points after the call,
    and the value returned. *)
Definition startSimulation (fuel : nat) (rng : nat -> R) (self : Robot.t)
  (points : list Point.t) : Robot.t * list Point.t * result nat :=
  match Robot.curvature points with
  | Ok points' =>
      match computeSimulation fuel rng self points' with
      | Ok sim =>
          (Robot.mk (Robot.width self) (Robot.length self) (Some sim)
             (Robot.kind self),
           points', Ok (List.length sim))
      | Raise e => (self, points', Raise e)
      | OutOfFuel => (self, points', OutOfFuel)
      end
  | Raise e => (self, points, Raise e)
  | OutOfFuel => (self, points, OutOfFuel)
  end.

End GenericRobot.

(* ================================================================== *)
(** ** PathStructuresBezier.py: starting a simulation *)

Module PathSimulation.

Section Collaborators.

(** [handleSimulation(m, slider)] works on the mouse-and-keyboard object
    [m] and on [slider], whose classes are not among the sources, and it
    calls two robot methods, [autoCalibrate(m, slider)] and
    [startSimulation(m, slider, self.points)], that Robot.py does not
    have (its [startSimulation] takes the trajectory alone).  The method
    is modelled for any state [W] of [m], [slider] and the robot, any
    answers to what it reads of them, and any effect and outcome of the
    two calls. *)
Variable W : Type.
(** [m.simulating], [m.playingSimulation] *)
Variable simulating : W -> bool.
Variable playingSimulation : W -> bool.
(** [m.getKey(pygame.K_RETURN)], [m.getKeyPressed(pygame.K_SPACE)],
    [m.getKey(pygame.K_ESCAPE)] *)
Variable keyReturn : W -> bool.
Variable keySpacePressed : W -> bool.
Variable keyEscape : W -> bool.
(** [isinstance(self.robot, Robot.PurePursuitRobot)] *)
Variable isPurePursuit : W -> bool.
(** [slider.value == slider.high], [slider.reset()] *)
Variable sliderAtHigh : W -> bool.
Variable sliderReset : W -> W.
(** [m.playingSimulation = b], [m.simulating = b] *)
Variable setPlayingSimulation : bool -> W -> W.
Variable setSimulating : bool -> W -> W.
(** [self.robot.autoCalibrate(m, slider)] and
    [self.robot.startSimulation(m, slider, self.points)]: the state and
    the points they leave, and how they end. *)
Variable autoCalibrate : W -> W * result unit.
Variable startSimulation :
  W -> list Point.t -> (W * list Point.t) * result unit.

(** The state of [m], [slider] and the robot and the points after the
    call, and how the call ends. *)
Definition handleSimulation (points : list Point.t) (w : W)
  : (W * list Point.t) * result unit :=
  let calibrated :=
    if (simulating w && keyReturn w && (0 <? length points)%nat)%bool then
      if isPurePursuit w then autoCalibrate w else (w, Ok tt)
    else (w, Ok tt) in
  match calibrated with
  | (w1, Ok _) =>
      let started :=
        if (keySpacePressed w1 && (0 <? length points)%nat)%bool then
          if simulating w1 then
            if sliderAtHigh w1
            then ((setPlayingSimulation true (sliderReset w1), points), Ok tt)
            else ((setPlayingSimulation (negb (playingSimulation w1)) w1,
                   points), Ok tt)
          else startSimulation w1 points
        else ((w1, points), Ok tt) in
      match started with
      | ((w2, points2), Ok _) =>
          ((if keyEscape w2 then setSimulating false w2 else w2, points2),
           Ok tt)
      | (after, Raise e) => (after, Raise e)
      | (after, OutOfFuel) => (after, OutOfFuel)
      end
  | (w1, Raise e) => ((w1, points), Raise e)
  | (w1, OutOfFuel) => ((w1, points), OutOfFuel)
  end.

End Collaborators.

End PathSimulation.

(* ================================================================== *)
(** ** Vocabulary of the statements *)

Definition positions (points : list Point.t) : list (R * R) :=
  map (fun p => (Point.x p, Point.y p)) points.

(** The heading of the point at index [j], if the point exists and its
    heading is set. *)
Definition thetaAt (points : list Point.t) (j : Z) : option R :=
  match nth_error points (Z.to_nat j) with
  | Some p => Point.theta p
  | None => None
  end.

(** The anchor list handed to [interpolateTheta] starts at index 0, its
    indexes increase strictly and stay below [n]. *)
Fixpoint ascending (n i : Z) (known : list (Z * R)) : bool :=
  match known with
  | [] => (i <? n)%Z
  | (j, _) :: known' => (i <? j)%Z && ascending n j known'
  end.

Definition anchorsOk (n : Z) (known : list (Z * R)) : bool :=
  match known with
  | [] => false
  | (i1, _) :: known' => (i1 =? 0)%Z && ascending n i1 known'
  end.

(** The heading blended at index [j] between the anchors [(i1, th1)] and
    [(i2, th2)]. *)
Definition blend (i1 : Z) (th1 : R) (i2 : Z) (th2 : R) (j : Z) : R :=
  th1 + (Path.theta2adjusted th1 th2 - th1) * (IZR (j - i1) / IZR (i2 - i1)).

Definition headingsInterpolated (known : list (Z * R))
  (points points' : list Point.t) : Prop :=
  positions points' = positions points
  /\ (forall k i1 th1 i2 th2 j,
        nth_error known k = Some (i1, th1) ->
        nth_error known (S k) = Some (i2, th2) ->
        (i1 <= j < i2)%Z ->
        thetaAt points' j = Some (blend i1 th1 i2 th2 j))
  /\ (forall k i th,
        nth_error known k = Some (i, th) -> thetaAt points' i = Some th)
  /\ (forall il thl j,
        last known (0%Z, 0) = (il, thl) ->
        (il <= j < Z.of_nat (length points'))%Z ->
        thetaAt points' j = Some thl).

(** The curvature stored at index [n], if the point exists and its
    curvature is set. *)
Definition curveAt (points : list Point.t) (n : nat) : option R :=
  match nth_error points n with
  | Some p => Point.curve p
  | None => None
  end.

(** The difference of directions taken in [startSimulation]: direction
    from point [i-1] to point [i+1] minus direction from [i-1] to [i]. *)
Definition chordTurn (pm p pp : R * R) : R :=
  atan2 (snd pp - snd pm) (fst pp - fst pm)
  - atan2 (snd p - snd pm) (fst p - fst pm).

(** An angle difference brought into (-PI, PI]. *)
Definition normalizeAngle (a : R) : R :=
  if Rgt_dec a PI then a - 2 * PI
  else if Rle_dec a (- PI) then a + 2 * PI
  else a.

(** The turn angle in the words of the specification: direction from
    point [i] to point [i+1] minus direction from [i-1] to [i],
    normalised. *)
Definition specTurnAngle (pm p pp : R * R) : R :=
  normalizeAngle (atan2 (snd pp - snd p) (fst pp - fst p)
                  - atan2 (snd p - snd pm) (fst p - fst pm)).

(** The curvature of an interior index as a function of the positions. *)
Definition interiorCurve (pos : list (R * R)) (n : nat) : option R :=
  match nth_error pos (n - 1), nth_error pos n, nth_error pos (n + 1) with
  | Some pm, Some p, Some pp => Some (Rabs (Robot.curveAngle pm p pp))
  | _, _, _ => None
  end.

(** What the curvature pass leaves in [points'], started on [points]:
    positions and headings as they were, curvature 0 at both ends, at an
    interior index the absolute value of the normalised [chordTurn]
    (where the difference of directions is above [-PI]), and curvatures
    that any other list with the same positions would get too. *)
Definition curvatureAssigned (points points' : list Point.t) : Prop :=
  positions points' = positions points
  /\ map Point.theta points' = map Point.theta points
  /\ curveAt points' 0 = Some 0
  /\ curveAt points' (length points - 1) = Some 0
  /\ (forall i pm p pp,
        (1 <= i < length points - 1)%nat ->
        nth_error (positions points) (i - 1) = Some pm ->
        nth_error (positions points) i = Some p ->
        nth_error (positions points) (i + 1) = Some pp ->
        - PI < chordTurn pm p pp ->
        curveAt points' i = Some (Rabs (normalizeAngle (chordTurn pm p pp)))
        /\ - PI < normalizeAngle (chordTurn pm p pp) <= PI)
  /\ (forall other,
        positions other = positions points ->
        exists other',
          Robot.curvature other = Ok other'
          /\ map Point.curve other' = map Point.curve points').

(** The states the main loop of the pursuit simulation passes through:
    [reachable st st'] when the loop, entered in state [st], comes to
    state [st'] after some number of turns. *)
Inductive reachable (lookahead : R) (rng : nat -> R) (points : list Point.t)
  : PurePursuitRobot.state -> PurePursuitRobot.state -> Prop :=
| reach_here : forall st, reachable lookahead rng points st st
| reach_turn : forall st st' st'',
    reachable lookahead rng points st st' ->
    PurePursuitRobot.running points st' = Ok true ->
    (PurePursuitRobot.timestep st' >? PurePursuitRobot.MAX_TIMESTEPS)%Z
    = false ->
    PurePursuitRobot.step lookahead rng points st' = Ok st'' ->
    reachable lookahead rng points st st''.

(** The distance from [(x, y)] to the trajectory point at index [j]. *)
Definition distanceTo (points : list Point.t) (x y : R) (j : Z) : R :=
  match nth_error points (Z.to_nat j) with
  | Some p => Utility.distance x y (Point.x p) (Point.y p)
  | None => 0
  end.

(** What the adjustment of [theta2] achieves for headings in [[-PI, PI]]
    (the range of [atan2]): a whole turn is added or removed, the adjusted
    heading is at most half a turn from [theta1], and strictly less unless
    the two headings are opposite. *)
Definition adjustedWithinHalfTurn : Prop :=
  forall th1 th2,
    - PI <= th1 <= PI -> - PI <= th2 <= PI ->
    (Path.theta2adjusted th1 th2 = th2
     \/ Path.theta2adjusted th1 th2 = th2 - 2 * PI
     \/ Path.theta2adjusted th1 th2 = th2 + 2 * PI)
    /\ Rabs (Path.theta2adjusted th1 th2 - th1) <= PI
    /\ (Rabs (th2 - th1) <> PI ->
        Rabs (Path.theta2adjusted th1 th2 - th1) < PI).

(** On an empty trajectory [handleSimulation] calls no method of the
    robot, whatever the keys, the slider and the robot are: all it does is
    clear [m.simulating] when the escape key is down. *)
Definition emptyTrajectoryNotStarted : Prop :=
  forall (W : Type)
         (simulating playingSimulation keyReturn keySpacePressed keyEscape
            isPurePursuit sliderAtHigh : W -> bool)
         (sliderReset : W -> W)
         (setPlayingSimulation setSimulating : bool -> W -> W)
         (autoCalibrate : W -> W * result unit)
         (startSimulation :
            W -> list Point.t -> (W * list Point.t) * result unit)
         (w : W),
    PathSimulation.handleSimulation W simulating playingSimulation keyReturn
      keySpacePressed keyEscape isPurePursuit sliderAtHigh sliderReset
      setPlayingSimulation setSimulating autoCalibrate startSimulation [] w
    = ((if keyEscape w then setSimulating false w else w, []), Ok tt).

(* ================================================================== *)
(** ** Concrete inputs used by the examples below *)

(** A pose on the x axis at [x0] whose control point lies [len/3] further
    along the axis: between [straightPose a L] and [straightPose (a+L) L]
    the cubic is the uniformly traversed segment [t |-> a + L*t]. *)
Definition straightPose (x0 len : R) (theta : option R) : Pose.t :=
  Pose.init x0 0 (x0 + len / 3) 0 theta.

Definition pointAt (x y : R) : Point.t := Point.init x y Utility.RED.

(** The segment from (0,0) to (4,0), traversed uniformly. *)
Definition lineA : Pose.t := straightPose 0 4 (Some (- (PI / 2))).
Definition lineB : Pose.t := straightPose 4 4 None.

(** Three poses 2 units apart on the x axis, each segment traversed
    uniformly. *)
Definition shortA : Pose.t := straightPose (-2) 2 (Some (- (PI / 2))).
Definition shortB : Pose.t := straightPose 0 2 None.
Definition shortC : Pose.t := straightPose 2 2 None.

(** A right-angle corner: east for one unit, then north for one unit. *)
Definition cornerPoints : list Point.t :=
  [pointAt 0 0; pointAt 1 0; pointAt 1 1].

(** A trajectory of two points, 10 units apart. *)
Definition twoPoints : list Point.t := [pointAt 0 0; pointAt 10 0].

(** A trajectory of two points with heading and curvature set, a noise
    source that is silent, and the state in which the pursuit loop is
    entered on them. *)
Definition trackPoints : list Point.t :=
  [Point.mk 0 0 Utility.RED (Some 0) (Some 0);
   Point.mk 100 0 Utility.RED (Some 0) (Some 0)].
Definition noNoise (k : nat) : R := 0.
Definition trackStart : PurePursuitRobot.state :=
  PurePursuitRobot.mkState (0 + 10 * 0) (0 + 10 * 0) 0 0 0 0 0 0 0 [] 2.

(** A one-point trajectory with its heading set, and an ideal robot. *)
Definition idealPoints : list Point.t :=
  [Point.mk 1 2 Utility.RED (Some 3) None].
Definition idealRobot : Robot.t := Robot.mk 50 30 None Robot.IdealRobot.

(** Two poses on the same spot followed by a pose 3 units further, the
    last one with a heading. *)
Definition stackA : Pose.t := straightPose 0 3 (Some (- (PI / 2))).
Definition stackA' : Pose.t := straightPose 0 3 None.
Definition stackB : Pose.t := straightPose 3 3 (Some 0).

(** Three points and two heading anchors, at the first and last point. *)
Definition headingPoints : list Point.t :=
  [pointAt 0 0; pointAt 1 0; pointAt 2 0].
Definition headingAnchors : list (Z * R) := [(0%Z, 0); (2%Z, 1)].

(* ================================================================== *)
(** ** PathStructuresBezier.py: editing the pose list *)

(** [del l[i]] *)
Definition py_del {A : Type} (l : list A) (i : Z) : result (list A) :=
  let j := py_norm (length l) i in
  if (j <? 0)%Z then Raise IndexError
  else if (j <? Z.of_nat (length l))%Z
       then Ok (firstn (Z.to_nat j) l ++ skipn (S (Z.to_nat j)) l)
       else Raise IndexError.

(** [l.insert(i, a)]: a negative index counts from the end, and an index
    outside the list is clipped to its ends. *)
Definition py_insert {A : Type} (l : list A) (i : Z) (a : A) : list A :=
  let j := Z.min (Z.max (py_norm (length l) i) 0) (Z.of_nat (length l)) in
  firstn (Z.to_nat j) l ++ a :: skipn (Z.to_nat j) l.

Module PathEdit.

Definition with_poses (p : Path.t) (poses : list Pose.t) : Path.t :=
  Path.mk poses (Path.points p) (Path.segmentDistance p).

Definition set_theta (theta : option R) (p : Pose.t) : Pose.t :=
  Pose.mk (Pose.x p) (Pose.y p) (Pose.forward_x p) (Pose.backward_x p)
    (Pose.forward_y p) (Pose.backward_y p) theta (Pose.isBreak p).

(** [deletePose(index)] called with an [int].  (Called with a pose, the
    method first looks the pose up with [getPoseIndex]; that call is not
    modelled.)  The heading is handed over before the [del], which is the
    statement that may raise. *)
Definition deletePose (self : Path.t) (index : Z) : Path.t * result unit :=
  if (index =? -1)%Z then (self, Ok tt)
  else
    let poses1 :=
      if ((index =? 0)%Z && (1 <? length (Path.poses self))%nat)%bool then
        match Path.poses self with
        | p0 :: p1 :: rest =>
            match Pose.theta p1 with
            | None => p0 :: set_theta (Pose.theta p0) p1 :: rest
            | Some _ => Path.poses self
            end
        | _ => Path.poses self
        end
      else Path.poses self in
    match py_del poses1 index with
    | Ok poses2 => (with_poses self poses2, Ok tt)
    | Raise e => (with_poses self poses1, Raise e)
    | OutOfFuel => (with_poses self poses1, OutOfFuel)
    end.

Section Collaborators.

(** [Utility.pointTouchingLine] and [Utility.pointOnLineClosestToPoint]
    are not among the sources: the methods that call them are modelled
    for any two functions of these arguments, the first giving a truth
    value and the second a pair of coordinates. *)
Variable pointTouchingLine : R -> R -> R -> R -> R -> R -> R -> bool.
Variable pointOnLineClosestToPoint : R -> R -> R -> R -> R -> R -> R * R.

(** [for i in range(1, len(self.poses))] of [getTouchingPathIndex];
    [(x1, y1)] is the position of the pose before [poses[i]] and [rest]
    the poses from index [i] on. *)
Fixpoint touchingLoop (x y x1 y1 : R) (i : Z) (rest : list Pose.t) : Z :=
  match rest with
  | [] => (-1)%Z
  | p :: rest' =>
      if pointTouchingLine x y x1 y1 (Pose.x p) (Pose.y p) 3
      then (i - 1)%Z
      else touchingLoop x y (Pose.x p) (Pose.y p) (i + 1)%Z rest'
  end.

Definition getTouchingPathIndex (self : Path.t) (x y : R) : Z :=
  match Path.poses self with
  | [] => (-1)%Z
  | p0 :: rest => touchingLoop x y (Pose.x p0) (Pose.y p0) 1 rest
  end.

(** [pathIndex] is the value of [self.pathIndex], which neither
    [getMousePosePosition] nor [addPose] assigns. *)
Definition getMousePosePosition (self : Path.t) (pathIndex : Z) (x y : R)
  : result (R * R) :=
  if (pathIndex =? -1)%Z then Ok (x, y)
  else
    p1 <- py_index (Path.poses self) pathIndex ;;
    p2 <- py_index (Path.poses self) (pathIndex + 1) ;;
    Ok (pointOnLineClosestToPoint x y (Pose.x p1) (Pose.y p1)
          (Pose.x p2) (Pose.y p2)).

Definition addPose (fuel : nat) (self : Path.t) (pathIndex : Z)
  (x y fx fy : R) : Path.t * result unit :=
  match getMousePosePosition self pathIndex x y with
  | Ok (px, py) =>
      let poses' :=
        if (pathIndex =? -1)%Z then
          Path.poses self
          ++ [Pose.init px py fx fy
                (if (length (Path.poses self) =? 0)%nat
                 then Some (- PI / 2) else None)]
        else
          py_insert (Path.poses self) (pathIndex + 1)
            (Pose.init px py fx fy None) in
      Path.interpolatePoints fuel (with_poses self poses')
  | Raise e => (self, Raise e)
  | OutOfFuel => (self, OutOfFuel)
  end.

End Collaborators.

End PathEdit.

(* ================================================================== *)
(** ** Vocabulary of the further properties *)

(** The trajectory point sampled at parameter [t] on the curve between
    the poses [p1] and [p2]. *)
Definition segmentPoint (p1 p2 : Pose.t) (t : R) : Point.t :=
  let q := BezierCurves.getBezierPoint t (Pose.x p1, Pose.y p1)
             (Pose.forward_x p1, Pose.forward_y p1)
             (Pose.backward_x p2, Pose.backward_y p2)
             (Pose.x p2, Pose.y p2) in
  pointAt (fst q) (snd q).

(** The speed along the curve between [p1] and [p2] at parameter [t]. *)
Definition segmentSpeed (p1 p2 : Pose.t) (t : R) : R :=
  let g := BezierCurves.getBezierGradient t (Pose.x p1, Pose.y p1)
             (Pose.forward_x p1, Pose.forward_y p1)
             (Pose.backward_x p2, Pose.backward_y p2)
             (Pose.x p2, Pose.y p2) in
  Utility.hypo (fst g) (snd g).

(** A list of parameters that rises strictly, starting above [lo]. *)
Fixpoint risingFrom (lo : R) (ts : list R) : Prop :=
  match ts with
  | [] => True
  | t :: ts' => lo < t /\ risingFrom t ts'
  end.

(** The parameters at which a sampling loop entered at [ns] takes its
    points: none, or [ns] first and strictly rising from there, all
    below 1. *)
Definition sampledFrom (ns : R) (ts : list R) : Prop :=
  match ts with
  | [] => True
  | t :: ts' => t = ns /\ risingFrom t ts'
  end
  /\ Forall (fun t => t < 1) ts.

(** The parameter at which [interpolateSplineCurve] enters its loop. *)
Definition startParameter (p1 p2 : Pose.t) (s : R) : R :=
  if Req_dec_T s 0 then 0 else Path.firstAdvance p1 p2 s.

(** What [interpolateSplineCurve] makes of the outcome of its loop: the
    spillover computed from the last [x, y], or the error of reading them
    unbound. *)
Definition finishSpline (sd : R) (p2 : Pose.t)
  (r : list Point.t * result (option (R * R))) : list Point.t * result R :=
  match r with
  | (points', Ok (Some xy)) =>
      (points',
       Ok (sd - Utility.distance (fst xy) (snd xy) (Pose.x p2) (Pose.y p2)))
  | (points', Ok None) => (points', Raise UnboundLocalError)
  | (points', Raise e) => (points', Raise e)
  | (points', OutOfFuel) => (points', OutOfFuel)
  end.

(** The sampling loop on the curve between two poses. *)
Definition segmentLoopRun (fuel : nat) (sd : R) (p1 p2 : Pose.t) (ns : R)
  (points : list Point.t) : list Point.t * result (option (R * R)) :=
  Path.sampleLoop fuel sd (Pose.x p1, Pose.y p1)
    (Pose.forward_x p1, Pose.forward_y p1)
    (Pose.backward_x p2, Pose.backward_y p2)
    (Pose.x p2, Pose.y p2) ns None points.

(** The points at distances [s], [s + d], ..., [s + n*d] from [a] along
    the x axis. *)
Definition evenlySpaced (a s d : R) (n : nat) : list Point.t :=
  map (fun k => pointAt (a + s + INR k * d) 0) (seq 0 (S n)).

(** Every point of the trajectory has its heading set. *)
Definition headingsSet (points : list Point.t) : Prop :=
  Forall (fun p => Point.theta p <> None) points.

(** The attributes read from a state point by the pure-pursuit
    [simulationTick]. *)
Definition pursuitFields : list string :=
  ["xvel"; "yvel"; "tvel"; "cx"; "cy"; "lx"; "ly"; "curve"]%string.

Definition hasPursuitFields (sp : SimulationPoint.t) : Prop :=
  Forall (fun name => SimulationPoint.getattr sp name <> None) pursuitFields.


(** The segment from pose [i] to pose [i + 1] is touched by [(x, y)], as
    [getTouchingPathIndex] asks it. *)
Definition segmentTouched (touching : R -> R -> R -> R -> R -> R -> R -> bool)
  (poses : list Pose.t) (x y : R) (i : nat) : bool :=
  match nth_error poses i, nth_error poses (S i) with
  | Some p1, Some p2 =>
      touching x y (Pose.x p1) (Pose.y p1) (Pose.x p2) (Pose.y p2) 3
  | _, _ => false
  end.

(** A touching test and a projection used in the examples: a point
    touches a segment when it is its midpoint, and the closest point is
    the midpoint. *)
Definition touchesMidpoint (x y x1 y1 x2 y2 w : R) : bool :=
  if Req_dec_T (2 * x) (x1 + x2) then
    if Req_dec_T (2 * y) (y1 + y2) then true else false
  else false.
Definition midpoint (x y x1 y1 x2 y2 : R) : R * R :=
  ((x1 + x2) / 2, (y1 + y2) / 2).

(** The positions of the poses, in order. *)
Definition posePositions (poses : list Pose.t) : list (R * R) :=
  map (fun p => (Pose.x p, Pose.y p)) poses.

(** A trajectory of two points half a unit apart, with heading and
    curvature set: a pursuit robot that starts on its first point is
    within stopping distance of its end after one step. *)
Definition nearPoints : list Point.t :=
  [Point.mk 0 0 Utility.RED (Some 0) (Some 0);
   Point.mk (1 / 2) 0 Utility.RED (Some 0) (Some 0)].

(* ================================================================== *)
(** ** Properties *)

(** *** Arithmetic of the collaborators on axis-aligned inputs *)

Lemma hypo_axis (a : R) : 0 <= a -> Utility.hypo a 0 = a.
Proof.
  intros Ha. unfold Utility.hypo.
  replace (a * a + 0 * 0) with (a * a) by ring.
  now apply sqrt_square.
Qed.

Lemma straight_point (a b L t : R) (th1 th2 : option R) :
  b = a + L ->
  let p1 := straightPose a L th1 in
  let p2 := straightPose b L th2 in
  BezierCurves.getBezierPoint t (Pose.x p1, Pose.y p1)
    (Pose.forward_x p1, Pose.forward_y p1)
    (Pose.backward_x p2, Pose.backward_y p2) (Pose.x p2, Pose.y p2)
  = (a + L * t, 0).
Proof.
  intros ->. cbn.
  unfold BezierCurves.getBezierPoint, BezierCurves.bezier1. cbn.
  f_equal; field.
Qed.

Lemma straight_gradient (a b L t : R) (th1 th2 : option R) :
  b = a + L ->
  let p1 := straightPose a L th1 in
  let p2 := straightPose b L th2 in
  BezierCurves.getBezierGradient t (Pose.x p1, Pose.y p1)
    (Pose.forward_x p1, Pose.forward_y p1)
    (Pose.backward_x p2, Pose.backward_y p2) (Pose.x p2, Pose.y p2)
  = (L, 0).
Proof.
  intros ->. cbn.
  unfold BezierCurves.getBezierGradient, BezierCurves.bezier1'. cbn.
  f_equal; field.
Qed.

(** *** The sampling loop of [interpolateSplineCurve] *)

Lemma sampleLoop_step fuel sd P1 V1 V2 P2 ns xy points q g h :
  ns < 1 ->
  BezierCurves.getBezierPoint ns P1 V1 V2 P2 = q ->
  BezierCurves.getBezierGradient ns P1 V1 V2 P2 = g ->
  Utility.hypo (fst g) (snd g) = h ->
  h <> 0 ->
  Path.sampleLoop (S fuel) sd P1 V1 V2 P2 ns xy points
  = Path.sampleLoop fuel sd P1 V1 V2 P2 (ns + sd / h) (Some q)
      (points ++ [pointAt (fst q) (snd q)]).
Proof.
  intros Hns Hq Hg Hh Hnz. cbn [Path.sampleLoop].
  destruct (Rlt_dec ns 1) as [_ | Hn]; [| contradiction].
  rewrite Hq, Hg, Hh.
  destruct (Req_dec_T h 0) as [E | _]; [contradiction | reflexivity].
Qed.

Lemma sampleLoop_exit fuel sd P1 V1 V2 P2 ns xy points :
  ~ ns < 1 ->
  Path.sampleLoop (S fuel) sd P1 V1 V2 P2 ns xy points = (points, Ok xy).
Proof.
  intros Hns. cbn [Path.sampleLoop].
  destruct (Rlt_dec ns 1) as [H | _]; [contradiction | reflexivity].
Qed.

(** What a normal exit of the sampling loop leaves behind: either nothing
    was emitted and [x, y] kept their binding, or [x, y] are the
    coordinates of the last point of the list, emitted by this loop. *)
Lemma sampleLoop_last fuel sd P1 V1 V2 P2 :
  forall ns xy points points' xy',
    Path.sampleLoop fuel sd P1 V1 V2 P2 ns xy points = (points', Ok xy') ->
    (xy' = xy /\ points' = points)
    \/ exists q pre,
         xy' = Some q /\ points' = pre ++ [pointAt (fst q) (snd q)]
         /\ (length points < length points')%nat.
Proof.
  induction fuel as [| fuel IH]; intros ns xy points points' xy' H.
  - discriminate H.
  - cbn [Path.sampleLoop] in H.
    destruct (Rlt_dec ns 1) as [Hlt | Hge].
    + destruct (Req_dec_T _ 0) as [_ | Hnz]; [discriminate H |].
      apply IH in H. right.
      destruct H as [[-> ->] | (q & pre & -> & -> & Hlen)].
      * eexists _, points. repeat split.
        rewrite length_app. cbn. lia.
      * exists q, pre. repeat split.
        rewrite length_app in Hlen. cbn in Hlen. lia.
    + injection H as <- <-. now left.
Qed.

(** C1 (amended): when a pose pair is sampled and the sampling loop exits
    normally, the loop has emitted at least one point, and the spillover
    carried to the next pair is 0 if the pose at i+1 is a break and
    otherwise [segmentDistance] minus the distance from the last emitted
    point to P2. *)
Theorem C1_spillover_after_sampling :
  forall fuel sd poses i s known points points' s' known' p1 p2,
    nth_error poses i = Some p1 ->
    nth_error poses (i + 1) = Some p2 ->
    Path.samePosition p1 p2 = false ->
    ~ (s <> 0 /\ Path.firstAdvance p1 p2 s > 1) ->
    Path.segmentBody fuel sd poses i s known points
    = (points', Ok (s', known')) ->
    exists q pre,
      points' = pre ++ [q]
      /\ (length points < length points')%nat
      /\ s' = if Pose.isBreak p2 then 0
              else sd - Utility.distance (Point.x q) (Point.y q)
                          (Pose.x p2) (Pose.y p2).
Proof.
  intros fuel sd poses i s known points points' s' known' p1 p2
         H1 H2 Hpos Hearly H.
  unfold Path.segmentBody in H. rewrite H1, H2, Hpos in H.
  destruct (Path.interpolateSplineCurve fuel sd poses points i s)
    as [pts r] eqn:E.
  destruct r as [s0 | e |]; try discriminate H.
  injection H as <- <- _.
  unfold Path.interpolateSplineCurve in E. rewrite H1, H2 in E.
  assert (Hfin : forall ns,
    match Path.sampleLoop fuel sd (Pose.x p1, Pose.y p1)
            (Pose.forward_x p1, Pose.forward_y p1)
            (Pose.backward_x p2, Pose.backward_y p2)
            (Pose.x p2, Pose.y p2) ns None points with
    | (points', Ok (Some xy)) =>
        (points', Ok (sd - Utility.distance (fst xy) (snd xy)
                            (fst (Pose.x p2, Pose.y p2))
                            (snd (Pose.x p2, Pose.y p2))))
    | (points', Ok None) => (points', Raise UnboundLocalError)
    | (points', Raise e) => (points', Raise e)
    | (points', OutOfFuel) => (points', OutOfFuel)
    end = (pts, Ok s0) ->
    exists q pre, pts = pre ++ [q] /\ (length points < length pts)%nat
      /\ s0 = sd - Utility.distance (Point.x q) (Point.y q)
                     (Pose.x p2) (Pose.y p2)).
  { intros ns Hm.
    destruct (Path.sampleLoop _ _ _ _ _ _ ns None points) as [pts' r'] eqn:El.
    destruct r' as [[xy |] | e |]; try discriminate Hm.
    injection Hm as <- <-.
    apply sampleLoop_last in El.
    destruct El as [[Hx _] | (q & pre & Hq & -> & Hlen)]; [discriminate Hx |].
    injection Hq as ->.
    exists (pointAt (fst q) (snd q)), pre. repeat split. exact Hlen. }
  assert (Hgoal : exists q pre, pts = pre ++ [q]
            /\ (length points < length pts)%nat
            /\ s0 = sd - Utility.distance (Point.x q) (Point.y q)
                           (Pose.x p2) (Pose.y p2)).
  { cbv zeta in E.
    destruct (Req_dec_T s 0) as [Hs | Hs].
    - now apply (Hfin 0).
    - destruct (Req_dec_T _ 0) as [Hh | Hh]; [discriminate E |].
      destruct (Rgt_dec _ 1) as [Hgt | Hgt].
      + exfalso. apply Hearly. split; [exact Hs | exact Hgt].
      + now apply (Hfin _ E). }
  destruct Hgoal as (q & pre & -> & Hlen & ->).
  exists q, pre. split; [reflexivity |]. split; [exact Hlen |].
  now destruct (Pose.isBreak p2).
Qed.

Lemma distance_axis (x1 x2 : R) :
  x1 <= x2 -> Utility.distance x1 0 x2 0 = x2 - x1.
Proof.
  intros H. unfold Utility.distance.
  replace (0 - 0) with 0 by ring. apply hypo_axis. lra.
Qed.

(** One sampling step on a uniformly traversed straight segment. *)
Lemma straight_step fuel sd a b L th1 th2 ns ns' x' xy points :
  b = a + L -> 0 < L -> ns < 1 ->
  ns' = ns + sd / L -> x' = a + L * ns ->
  let p1 := straightPose a L th1 in
  let p2 := straightPose b L th2 in
  Path.sampleLoop (S fuel) sd (Pose.x p1, Pose.y p1)
    (Pose.forward_x p1, Pose.forward_y p1)
    (Pose.backward_x p2, Pose.backward_y p2) (Pose.x p2, Pose.y p2)
    ns xy points
  = Path.sampleLoop fuel sd (Pose.x p1, Pose.y p1)
      (Pose.forward_x p1, Pose.forward_y p1)
      (Pose.backward_x p2, Pose.backward_y p2) (Pose.x p2, Pose.y p2)
      ns' (Some (x', 0)) (points ++ [pointAt x' 0]).
Proof.
  intros Hb HL Hns -> -> p1 p2.
  apply (sampleLoop_step fuel sd _ _ _ _ ns xy points (a + L * ns, 0) (L, 0) L);
    try assumption.
  - now apply straight_point.
  - now apply straight_gradient.
  - cbn [fst snd]. apply hypo_axis. lra.
  - lra.
Qed.

Lemma line_spline :
  Path.interpolateSplineCurve 3 3 [lineA; lineB] [] 0 0
  = ([pointAt 0 0; pointAt 3 0], Ok 2).
Proof.
  unfold Path.interpolateSplineCurve. cbn [nth_error Nat.add].
  destruct (Req_dec_T 0 0) as [_ | H]; [| now contradiction H].
  unfold lineA, lineB.
  rewrite (straight_step 2 3 0 4 4 _ _ 0 (3 / 4) 0) by lra.
  rewrite (straight_step 1 3 0 4 4 _ _ (3 / 4) (3 / 2) 3) by lra.
  rewrite sampleLoop_exit by lra.
  cbn [app fst snd]. f_equal. f_equal.
  change (Pose.x (straightPose 4 4 None)) with 4.
  change (Pose.y (straightPose 4 4 None)) with 0.
  rewrite distance_axis by lra. lra.
Qed.

Lemma line_apart : Path.samePosition lineA lineB = false.
Proof.
  unfold Path.samePosition.
  destruct (Req_dec_T (Pose.x lineA) (Pose.x lineB)) as [H | _];
    [| reflexivity].
  cbn in H. lra.
Qed.

Lemma line_segmentBody :
  Path.segmentBody 3 3 [lineA; lineB] 0 0 [] []
  = ([pointAt 0 0; pointAt 3 0], Ok (2, [(0%Z, - (PI / 2))])).
Proof.
  unfold Path.segmentBody. cbn [nth_error Nat.add].
  rewrite line_apart, line_spline. reflexivity.
Qed.

Lemma C1_spillover_witness :
  exists q pre,
    [pointAt 0 0; pointAt 3 0] = pre ++ [q]
    /\ (@length Point.t [] < length [pointAt 0 0; pointAt 3 0])%nat
    /\ 2 = if Pose.isBreak lineB then 0
           else 3 - Utility.distance (Point.x q) (Point.y q)
                      (Pose.x lineB) (Pose.y lineB).
Proof.
  apply (C1_spillover_after_sampling 3 3 [lineA; lineB] 0 0 [] []
           [pointAt 0 0; pointAt 3 0] 2 [(0%Z, - (PI / 2))] lineA lineB).
  - reflexivity.
  - reflexivity.
  - exact line_apart.
  - intros [H _]. now apply H.
  - exact line_segmentBody.
Defined.

(** C1 as worded (the carried spillover is the distance from the last
    emitted point to P2) fails on the segment from (0,0) to (4,0) sampled
    every 3 units: the last point is (3,0), at distance 1 from P2, and the
    spillover carried on is 2. *)
Lemma C1_counterexample :
  ~ (forall fuel sd poses i s known points points' s' known' p1 p2 q pre,
       nth_error poses i = Some p1 ->
       nth_error poses (i + 1) = Some p2 ->
       Path.samePosition p1 p2 = false ->
       ~ (s <> 0 /\ Path.firstAdvance p1 p2 s > 1) ->
       Path.segmentBody fuel sd poses i s known points
       = (points', Ok (s', known')) ->
       points' = pre ++ [q] ->
       s' = if Pose.isBreak p2 then 0
            else Utility.distance (Point.x q) (Point.y q)
                   (Pose.x p2) (Pose.y p2)).
Proof.
  intros H.
  specialize (H 3%nat 3 [lineA; lineB] 0%nat 0 [] []
                [pointAt 0 0; pointAt 3 0] 2 [(0%Z, - (PI / 2))]
                lineA lineB (pointAt 3 0) [pointAt 0 0]
                eq_refl eq_refl line_apart).
  assert (Hd : 2 = Utility.distance 3 0 4 0).
  { apply H.
    - intros [Hs _]. now apply Hs.
    - exact line_segmentBody.
    - reflexivity. }
  rewrite distance_axis in Hd by lra. lra.
Qed.

(** *** The early return of [interpolateSplineCurve] *)

Lemma interpolateSplineCurve_early fuel sd poses points i s p1 p2 :
  nth_error poses i = Some p1 ->
  nth_error poses (i + 1) = Some p2 ->
  s <> 0 ->
  Utility.hypo
    (fst (BezierCurves.getBezierGradient 0 (Pose.x p1, Pose.y p1)
            (Pose.forward_x p1, Pose.forward_y p1)
            (Pose.backward_x p2, Pose.backward_y p2) (Pose.x p2, Pose.y p2)))
    (snd (BezierCurves.getBezierGradient 0 (Pose.x p1, Pose.y p1)
            (Pose.forward_x p1, Pose.forward_y p1)
            (Pose.backward_x p2, Pose.backward_y p2) (Pose.x p2, Pose.y p2)))
  <> 0 ->
  Path.firstAdvance p1 p2 s > 1 ->
  Path.interpolateSplineCurve fuel sd poses points i s
  = (points, Ok (Path.firstAdvance p1 p2 s - 1)).
Proof.
  intros H1 H2 Hs Hh Hadv.
  unfold Path.interpolateSplineCurve. rewrite H1, H2. cbv zeta.
  destruct (Req_dec_T s 0) as [E | _]; [contradiction |].
  destruct (Req_dec_T _ 0) as [E | _]; [contradiction |].
  unfold Path.firstAdvance in Hadv |- *. cbv zeta in Hadv |- *.
  destruct (Rgt_dec _ 1) as [_ | N]; [reflexivity | contradiction].
Qed.

Lemma straight_firstAdvance a b L th1 th2 s :
  b = a + L -> 0 < L ->
  Path.firstAdvance (straightPose a L th1) (straightPose b L th2) s = s / L.
Proof.
  intros Hb HL. unfold Path.firstAdvance. cbv zeta.
  rewrite (straight_gradient a b L 0 th1 th2 Hb). cbn [fst snd].
  rewrite hypo_axis by lra. reflexivity.
Qed.

Lemma straight_speed a b L th1 th2 t :
  b = a + L -> 0 < L ->
  let p1 := straightPose a L th1 in
  let p2 := straightPose b L th2 in
  Utility.hypo
    (fst (BezierCurves.getBezierGradient t (Pose.x p1, Pose.y p1)
            (Pose.forward_x p1, Pose.forward_y p1)
            (Pose.backward_x p2, Pose.backward_y p2) (Pose.x p2, Pose.y p2)))
    (snd (BezierCurves.getBezierGradient t (Pose.x p1, Pose.y p1)
            (Pose.forward_x p1, Pose.forward_y p1)
            (Pose.backward_x p2, Pose.backward_y p2) (Pose.x p2, Pose.y p2)))
  = L.
Proof.
  intros Hb HL p1 p2. unfold p1, p2.
  rewrite (straight_gradient a b L t th1 th2 Hb). cbn [fst snd].
  apply hypo_axis. lra.
Qed.

(** C2: on the poses at x = -2, 0, 2 sampled every 5 units, the first
    segment emits (-2,0) and hands a spillover of 3 to the second one; the
    second segment is the straight run of length 2 from (0,0) to (2,0), its
    first advance 3/2 exceeds 1, no point is emitted, and the value handed
    on is 1/2, not 3 - 2 = 1. *)
Theorem C2_early_return_value :
  Path.segmentBody 2 5 [shortA; shortB; shortC] 0 0 [] []
  = ([pointAt (-2) 0], Ok (3, [(0%Z, - (PI / 2))]))
  /\ Path.segmentBody 2 5 [shortA; shortB; shortC] 1 3
       [(0%Z, - (PI / 2))] [pointAt (-2) 0]
     = ([pointAt (-2) 0], Ok (1 / 2, [(0%Z, - (PI / 2))]))
  /\ (forall t,
        BezierCurves.getBezierPoint t (Pose.x shortB, Pose.y shortB)
          (Pose.forward_x shortB, Pose.forward_y shortB)
          (Pose.backward_x shortC, Pose.backward_y shortC)
          (Pose.x shortC, Pose.y shortC)
        = (0 + 2 * t, 0))
  /\ Utility.distance 0 0 2 0 = 2
  /\ 1 / 2 <> 3 - 2.
Proof.
  assert (HAB : Path.samePosition shortA shortB = false).
  { unfold Path.samePosition.
    destruct (Req_dec_T (Pose.x shortA) (Pose.x shortB)) as [H | _];
      [cbn in H; lra | reflexivity]. }
  assert (HBC : Path.samePosition shortB shortC = false).
  { unfold Path.samePosition.
    destruct (Req_dec_T (Pose.x shortB) (Pose.x shortC)) as [H | _];
      [cbn in H; lra | reflexivity]. }
  repeat split.
  - unfold Path.segmentBody. cbn [nth_error Nat.add]. rewrite HAB.
    unfold Path.interpolateSplineCurve. cbn [nth_error Nat.add].
    destruct (Req_dec_T 0 0) as [_ | H]; [| now contradiction H].
    unfold shortA, shortB.
    rewrite (straight_step 1 5 (-2) 0 2 _ _ 0 (5 / 2) (-2)) by lra.
    rewrite sampleLoop_exit by lra.
    cbn [app fst snd Pose.theta straightPose Pose.init Pose.isBreak length].
    change (Pose.x (straightPose 0 2 None)) with 0.
    change (Pose.y (straightPose 0 2 None)) with 0.
    rewrite distance_axis by lra.
    replace (5 - (0 - -2)) with 3 by lra. reflexivity.
  - unfold Path.segmentBody. cbn [nth_error Nat.add]. rewrite HBC.
    rewrite (interpolateSplineCurve_early 2 5 _ _ 1 3 shortB shortC);
      try reflexivity.
    + unfold shortB, shortC. rewrite straight_firstAdvance by lra.
      cbn [Pose.theta straightPose Pose.init Pose.isBreak].
      replace (3 / 2 - 1) with (1 / 2) by lra. reflexivity.
    + lra.
    + unfold shortB, shortC. rewrite (straight_speed 0 2 2) by lra. lra.
    + unfold shortB, shortC. rewrite straight_firstAdvance by lra. lra.
  - intros t. unfold shortB, shortC. apply straight_point. lra.
  - rewrite distance_axis by lra. lra.
  - lra.
Qed.

(** *** Lists updated in place *)

Lemma list_update_length {A} (f : A -> A) n l :
  length (list_update f n l) = length l.
Proof.
  revert n. induction l as [| a l IH]; intros [| n]; cbn; auto.
Qed.

Lemma list_update_nth_same {A} (f : A -> A) n l a :
  nth_error l n = Some a ->
  nth_error (list_update f n l) n = Some (f a).
Proof.
  revert n. induction l as [| b l IH]; intros [| n]; cbn; try discriminate.
  - now intros [= ->].
  - apply IH.
Qed.

Lemma list_update_nth_other {A} (f : A -> A) n m l :
  n <> m -> nth_error (list_update f n l) m = nth_error l m.
Proof.
  revert n m. induction l as [| b l IH]; intros [| n] [| m] H; cbn; auto.
  contradiction.
Qed.

Lemma py_index_in_range {A} (l : list A) (i : Z) :
  (0 <= i < Z.of_nat (length l))%Z ->
  exists a, nth_error l (Z.to_nat i) = Some a /\ py_index l i = Ok a.
Proof.
  intros Hi. unfold py_index, py_norm.
  destruct (i <? 0)%Z eqn:E; [lia |]. rewrite E.
  destruct (nth_error l (Z.to_nat i)) as [a |] eqn:En.
  - now exists a.
  - apply nth_error_None in En. lia.
Qed.

Lemma py_update_in_range {A} (l : list A) (i : Z) (f : A -> A) :
  (0 <= i < Z.of_nat (length l))%Z ->
  py_update l i f = Ok (list_update f (Z.to_nat i) l).
Proof.
  intros Hi. unfold py_update.
  destruct (py_index_in_range l i Hi) as (a & _ & ->). cbn.
  unfold py_norm. destruct (i <? 0)%Z eqn:E; [lia | reflexivity].
Qed.

Lemma zrange_In lo hi i : In i (zrange lo hi) <-> (lo <= i < hi)%Z.
Proof.
  unfold zrange. rewrite in_map_iff. split.
  - intros (k & <- & Hk). apply in_seq in Hk. lia.
  - intros H. exists (Z.to_nat (i - lo)). split; [lia |].
    apply in_seq. lia.
Qed.

(** *** Headings under [set_theta] *)

Lemma positions_set_theta v n points :
  positions (list_update (Point.set_theta v) n points) = positions points.
Proof.
  revert n. induction points as [| p l IH]; intros [| n]; cbn; auto.
  f_equal. apply IH.
Qed.

Lemma positions_length a b : positions a = positions b -> length a = length b.
Proof.
  unfold positions. intros H.
  rewrite <- (length_map (fun p => (Point.x p, Point.y p)) a), H.
  apply length_map.
Qed.

Lemma thetaAt_set_same v i points :
  (0 <= i < Z.of_nat (length points))%Z ->
  thetaAt (list_update (Point.set_theta v) (Z.to_nat i) points) i = Some v.
Proof.
  intros Hi. unfold thetaAt.
  destruct (py_index_in_range points i Hi) as (a & Ha & _).
  now rewrite (list_update_nth_same _ _ _ a Ha).
Qed.

Lemma thetaAt_set_other v i j points :
  (0 <= i)%Z -> (0 <= j)%Z -> i <> j ->
  thetaAt (list_update (Point.set_theta v) (Z.to_nat i) points) j
  = thetaAt points j.
Proof.
  intros Hi Hj Hij. unfold thetaAt.
  rewrite list_update_nth_other by lia. reflexivity.
Qed.

(** *** The loops of [interpolateTheta] *)

Lemma thetaFill_ok th :
  forall range points,
    (forall i, In i range -> (0 <= i < Z.of_nat (length points))%Z) ->
    exists points',
      Path.thetaFill range th points = (points', Ok tt)
      /\ positions points' = positions points
      /\ (forall j, In j range -> thetaAt points' j = Some th)
      /\ (forall j, (0 <= j)%Z -> ~ In j range ->
            thetaAt points' j = thetaAt points j).
Proof.
  induction range as [| i range IH]; intros points Hb.
  - exists points. cbn. repeat split; auto. intros j [].
  - cbn [Path.thetaFill].
    assert (Hi : (0 <= i < Z.of_nat (length points))%Z)
      by (apply Hb; now left).
    rewrite py_update_in_range by exact Hi.
    set (points1 := list_update (Point.set_theta th) (Z.to_nat i) points).
    destruct (IH points1) as (points' & Hrun & Hpos & Hin & Hout).
    { intros k Hk. unfold points1. rewrite list_update_length.
      apply Hb. now right. }
    exists points'. split; [exact Hrun |]. split.
    { rewrite Hpos. apply positions_set_theta. }
    split.
    + intros j Hj.
      destruct (in_dec Z.eq_dec j range) as [Hr | Hr]; [now apply Hin |].
      destruct Hj as [<- | Hj]; [| contradiction].
      rewrite Hout by (lia || assumption).
      now apply thetaAt_set_same.
    + intros j Hj Hn.
      rewrite Hout; [| exact Hj | intros H; apply Hn; now right].
      apply thetaAt_set_other; try lia.
      intros ->. apply Hn. now left.
Qed.

Lemma thetaInner_ok i1 th1 i2 th2 :
  (i2 - i1 <> 0)%Z ->
  forall range points,
    (forall i, In i range -> (0 <= i1 + i < Z.of_nat (length points))%Z) ->
    exists points',
      Path.thetaInner range i1 th1 i2 th2 points = (points', Ok tt)
      /\ positions points' = positions points
      /\ (forall i, In i range ->
            thetaAt points' (i1 + i) = Some (blend i1 th1 i2 th2 (i1 + i)))
      /\ (forall j, (0 <= j)%Z -> (forall i, In i range -> (i1 + i)%Z <> j) ->
            thetaAt points' j = thetaAt points j).
Proof.
  intros Hd. induction range as [| i range IH]; intros points Hb.
  - exists points. cbn. repeat split; auto. intros j [].
  - cbn [Path.thetaInner].
    destruct (i2 - i1 =? 0)%Z eqn:E; [lia |].
    assert (Hi : (0 <= i1 + i < Z.of_nat (length points))%Z)
      by (apply Hb; now left).
    rewrite py_update_in_range by exact Hi.
    set (v := th1 + (Path.theta2adjusted th1 th2 - th1)
                    * (IZR i / IZR (i2 - i1))).
    assert (Hv : v = blend i1 th1 i2 th2 (i1 + i)).
    { unfold v, blend. now replace (i1 + i - i1)%Z with i by lia. }
    set (points1 := list_update (Point.set_theta v) (Z.to_nat (i1 + i)) points).
    destruct (IH points1) as (points' & Hrun & Hpos & Hin & Hout).
    { intros k Hk. unfold points1. rewrite list_update_length.
      apply Hb. now right. }
    exists points'. split; [exact Hrun |]. split.
    { rewrite Hpos. apply positions_set_theta. }
    split.
    + intros k Hk.
      destruct (in_dec Z.eq_dec k range) as [Hr | Hr]; [now apply Hin |].
      destruct Hk as [<- | Hk]; [| contradiction].
      rewrite Hout.
      * unfold points1. rewrite thetaAt_set_same by exact Hi. now rewrite Hv.
      * lia.
      * intros k' Hk' Heq. apply Hr.
        now replace i with k' by lia.
    + intros j Hj Hn.
      rewrite Hout; [| exact Hj | intros k Hk; apply Hn; now right].
      apply thetaAt_set_other; try lia.
      apply Hn. now left.
Qed.

Lemma ascending_lt n : forall known i, ascending n i known = true -> (i < n)%Z.
Proof.
  induction known as [| [j th] known IH]; intros i H; cbn in H.
  - lia.
  - apply andb_true_iff in H as [Hij Hj]. apply IH in Hj. lia.
Qed.

Lemma blend_start i1 th1 i2 th2 : blend i1 th1 i2 th2 i1 = th1.
Proof.
  unfold blend. rewrite Z.sub_diag. unfold Rdiv.
  rewrite Rmult_0_l, Rmult_0_r. apply Rplus_0_r.
Qed.

Lemma thetaOuter_ok :
  forall known i1 th1 points,
    (0 <= i1)%Z ->
    ascending (Z.of_nat (length points)) i1 known = true ->
    exists points' il thl,
      Path.thetaOuter known i1 th1 points = (points', Ok (il, thl))
      /\ last ((i1, th1) :: known) (0%Z, 0) = (il, thl)
      /\ (i1 <= il < Z.of_nat (length points))%Z
      /\ positions points' = positions points
      /\ (forall j, (0 <= j < i1)%Z -> thetaAt points' j = thetaAt points j)
      /\ (forall k a tha b thb j,
            nth_error ((i1, th1) :: known) k = Some (a, tha) ->
            nth_error known k = Some (b, thb) ->
            (a <= j < b)%Z ->
            thetaAt points' j = Some (blend a tha b thb j))
      /\ (forall k a tha,
            nth_error ((i1, th1) :: known) k = Some (a, tha) ->
            (a, tha) = (il, thl)
            \/ ((i1 <= a < il)%Z /\ thetaAt points' a = Some tha)).
Proof.
  induction known as [| [i2 th2] known IH]; intros i1 th1 points H0 Hasc.
  - exists points, i1, th1. cbn in Hasc. cbn [Path.thetaOuter last].
    repeat split; auto; try lia.
    + intros k a tha b thb j _ Hk. now destruct k.
    + intros [| k] a tha Hk; cbn in Hk.
      * left. now injection Hk as -> ->.
      * now destruct k.
  - cbn [ascending] in Hasc. apply andb_true_iff in Hasc as [H12 Hasc].
    apply Z.ltb_lt in H12.
    pose proof (ascending_lt _ _ _ Hasc) as H2n.
    cbn [Path.thetaOuter].
    destruct (thetaInner_ok i1 th1 i2 th2 ltac:(lia)
                (zrange 0 (i2 - i1 + 1)) points)
      as (points1 & Hrun1 & Hpos1 & Hin1 & Hout1).
    { intros i Hi. apply zrange_In in Hi. lia. }
    rewrite Hrun1.
    pose proof (positions_length _ _ Hpos1) as Hlen1.
    destruct (IH i2 th2 points1 ltac:(lia)) as
      (points' & il & thl & Hrun & Hlast & Hil & Hpos & Hlow & Hpair & Hanc).
    { now rewrite Hlen1. }
    exists points', il, thl. rewrite Hrun.
    split; [reflexivity |]. split; [exact Hlast |].
    split; [rewrite Hlen1 in Hil; lia |].
    split; [now rewrite Hpos |].
    assert (Hseg : forall j, (i1 <= j < i2)%Z ->
              thetaAt points' j = Some (blend i1 th1 i2 th2 j)).
    { intros j Hj. rewrite Hlow by lia.
      replace j with (i1 + (j - i1))%Z by lia.
      apply Hin1. apply zrange_In. lia. }
    split; [| split].
    + intros j Hj. rewrite Hlow by lia. apply Hout1; [lia |].
      intros i Hi. apply zrange_In in Hi. lia.
    + intros [| k] a tha b thb j Ha Hb Hj.
      * cbn in Ha, Hb. injection Ha as <- <-. injection Hb as <- <-.
        now apply Hseg.
      * cbn [nth_error] in Ha, Hb. now apply (Hpair k a tha b thb j).
    + intros [| k] a tha Ha.
      * cbn in Ha. injection Ha as <- <-. right. split; [lia |].
        rewrite Hseg by lia. now rewrite blend_start.
      * cbn [nth_error] in Ha.
        destruct (Hanc k a tha Ha) as [E | [Hr Ht]]; [now left |].
        right. split; [lia | exact Ht].
Qed.

Lemma theta2adjusted_bound : adjustedWithinHalfTurn.
Proof.
  intros th1 th2 H1 H2. pose proof PI_RGT_0 as Hpi.
  unfold Path.theta2adjusted.
  destruct (Rge_dec (th2 - th1) PI) as [Ha | Ha];
    [| destruct (Rge_dec (th1 - th2) PI) as [Hb | Hb]].
  - split; [right; left; reflexivity |].
    split; [apply Rabs_le; lra |].
    intros Hne. apply Rabs_def1; [lra |].
    destruct (Req_dec_T (th2 - th1) PI) as [E | E]; [| lra].
    exfalso. apply Hne. rewrite E. apply Rabs_right. lra.
  - split; [right; right; reflexivity |].
    split; [apply Rabs_le; lra |].
    intros Hne. apply Rabs_def1; [| lra].
    destruct (Req_dec_T (th1 - th2) PI) as [E | E]; [| lra].
    exfalso. apply Hne.
    replace (th2 - th1) with (- (th1 - th2)) by ring.
    rewrite Rabs_Ropp, E. apply Rabs_right. lra.
  - split; [left; reflexivity |].
    split; [apply Rabs_le; lra |].
    intros _. apply Rabs_def1; lra.
Qed.

Lemma interpolateTheta_spec :
  forall known points,
    anchorsOk (Z.of_nat (length points)) known = true ->
    exists points',
      Path.interpolateTheta known points = (points', Ok tt)
      /\ headingsInterpolated known points points'.
Proof.
  intros known points Hok.
  destruct known as [| [i1 th1] known]; [discriminate Hok |].
  cbn [anchorsOk] in Hok. apply andb_true_iff in Hok as [H0 Hasc].
  apply Z.eqb_eq in H0. subst i1.
  destruct (thetaOuter_ok known 0%Z th1 points ltac:(lia) Hasc)
    as (points1 & il & thl & Hrun & Hlast & Hil & Hpos & _ & Hpair & Hanc).
  pose proof (positions_length _ _ Hpos) as Hlen1.
  destruct (thetaFill_ok thl (zrange il (Z.of_nat (length points1))) points1)
    as (points' & Hfill & Hpos' & Hin & Hout).
  { intros i Hi. apply zrange_In in Hi. lia. }
  pose proof (positions_length _ _ Hpos') as Hlen'.
  exists points'. split.
  { unfold Path.interpolateTheta. cbn [Z.eqb]. rewrite Hrun. exact Hfill. }
  assert (Hbelow : forall j, (0 <= j < il)%Z ->
            thetaAt points' j = thetaAt points1 j).
  { intros j Hj. apply Hout; [lia |]. intros Hi. apply zrange_In in Hi. lia. }
  split; [now rewrite Hpos' | split; [| split]].
  - intros k a tha b thb j Ha Hb Hj.
    assert (Hb' : nth_error known k = Some (b, thb)) by exact Hb.
    assert (Ha0 : (0 <= a)%Z).
    { destruct (Hanc k a tha Ha) as [E | [Hr _]]; [| lia].
      injection E as -> _. lia. }
    assert (Hbl : (b <= il)%Z).
    { destruct (Hanc (S k) b thb Hb) as [E | [Hr _]]; [| lia].
      injection E as -> _. lia. }
    rewrite Hbelow by lia. now apply (Hpair k a tha b thb j).
  - intros k a tha Ha.
    destruct (Hanc k a tha Ha) as [E | [Hr Ht]].
    + injection E as -> ->. apply Hin. apply zrange_In. lia.
    + rewrite Hbelow by lia. exact Ht.
  - intros il' thl' j Hl Hj. rewrite Hlast in Hl. injection Hl as <- <-.
    apply Hin. apply zrange_In. lia.
Qed.

(** C3 (amended): with anchors that start at index 0 and increase strictly
    within the trajectory, the heading pass completes; every point from an
    anchor up to, not including, the next anchor carries the linear blend
    towards the adjusted next heading, every anchor point carries its own
    heading, every point from the last anchor on carries the last heading,
    positions are untouched; the adjustment adds or removes one turn and
    leaves at most half a turn to travel (strictly less unless the headings
    are opposite). *)
Theorem C3_heading_interpolation :
  forall known points,
    anchorsOk (Z.of_nat (length points)) known = true ->
    (exists points',
       Path.interpolateTheta known points = (points', Ok tt)
       /\ headingsInterpolated known points points')
    /\ adjustedWithinHalfTurn.
Proof.
  intros known points Hok. split.
  - now apply interpolateTheta_spec.
  - exact theta2adjusted_bound.
Qed.

Lemma C3_heading_witness :
  (exists points',
     Path.interpolateTheta headingAnchors headingPoints = (points', Ok tt)
     /\ headingsInterpolated headingAnchors headingPoints points')
  /\ adjustedWithinHalfTurn.
Proof.
  apply (C3_heading_interpolation headingAnchors headingPoints).
  reflexivity.
Defined.

(** C3 as worded asks for an adjusted heading strictly less than half a
    turn away.  From heading 0 to heading PI no multiple of a whole turn
    achieves that, and the code settles on -PI, exactly half a turn. *)
Lemma C3_counterexample :
  ~ (forall th1 th2,
       - PI < th1 <= PI -> - PI < th2 <= PI ->
       Rabs (Path.theta2adjusted th1 th2 - th1) < PI).
Proof.
  intros H. pose proof PI_RGT_0 as Hpi.
  specialize (H 0 PI ltac:(lra) ltac:(lra)).
  unfold Path.theta2adjusted in H.
  destruct (Rge_dec (PI - 0) PI) as [_ | N]; [| lra].
  replace (PI - 2 * PI - 0) with (- PI) in H by ring.
  rewrite Rabs_Ropp, Rabs_right in H; lra.
Qed.

(** Why the blend is stated short of the next anchor: the pass for a pair
    writes the adjusted heading at the second anchor, and the next pass (or
    the final fill) overwrites it with the heading as given.  From heading
    3 to heading -3 the blend ends at -3 + 2 PI, the point ends with -3. *)
Lemma heading_at_anchor_as_given :
  exists points',
    Path.interpolateTheta [(0%Z, 3); (1%Z, -3)] [pointAt 0 0; pointAt 1 0]
    = (points', Ok tt)
    /\ thetaAt points' 1 = Some (-3)
    /\ blend 0 3 1 (-3) 1 = -3 + 2 * PI.
Proof.
  destruct (interpolateTheta_spec [(0%Z, 3); (1%Z, -3)]
              [pointAt 0 0; pointAt 1 0] eq_refl)
    as (points' & Hrun & _ & _ & Hanc & _).
  exists points'. split; [exact Hrun |]. split.
  - apply (Hanc 1%nat). reflexivity.
  - pose proof PI_4 as Hpi. unfold blend, Path.theta2adjusted.
    destruct (Rge_dec (-3 - 3) PI) as [H | _];
      [pose proof PI_RGT_0; lra |].
    destruct (Rge_dec (3 - -3) PI) as [_ | N]; [| lra].
    cbn [Z.sub Z.opp Z.add Z.pos_sub]. field.
Qed.

(** Two anchors on the same index make the blend divide by zero: this is
    what happens when a segment between two poses with headings emits a
    single point. *)
Lemma equal_anchors_divide_by_zero th1 th2 points :
  Path.interpolateTheta [(0%Z, th1); (0%Z, th2)] points
  = (points, Raise ZeroDivisionError).
Proof. reflexivity. Qed.

(** *** The curvature pass *)

Lemma positions_set_curve v n points :
  positions (list_update (Point.set_curve v) n points) = positions points.
Proof.
  revert n. induction points as [| p l IH]; intros [| n]; cbn; auto.
  f_equal. apply IH.
Qed.

Lemma thetas_set_curve v n points :
  map Point.theta (list_update (Point.set_curve v) n points)
  = map Point.theta points.
Proof.
  revert n. induction points as [| p l IH]; intros [| n]; cbn; auto.
  f_equal. apply IH.
Qed.

Lemma curveAt_set_same v n points :
  (n < length points)%nat ->
  curveAt (list_update (Point.set_curve v) n points) n = Some v.
Proof.
  intros Hn. unfold curveAt.
  destruct (nth_error points n) as [p |] eqn:E.
  - now rewrite (list_update_nth_same _ _ _ p E).
  - apply nth_error_None in E. lia.
Qed.

Lemma curveAt_set_other v n m points :
  n <> m ->
  curveAt (list_update (Point.set_curve v) n points) m = curveAt points m.
Proof.
  intros H. unfold curveAt. now rewrite list_update_nth_other.
Qed.

Lemma positions_nth points n p :
  nth_error points n = Some p ->
  nth_error (positions points) n = Some (Point.x p, Point.y p).
Proof.
  intros H. unfold positions.
  now apply (map_nth_error (fun q => (Point.x q, Point.y q))).
Qed.

Lemma py_update_last {A} (l : list A) (f : A -> A) :
  (1 <= length l)%nat ->
  py_update l (-1) f = Ok (list_update f (length l - 1) l).
Proof.
  intros Hl. unfold py_update, py_index, py_norm. cbn [Z.ltb Z.compare].
  destruct (-1 + Z.of_nat (length l) <? 0)%Z eqn:E; [lia |].
  replace (Z.to_nat (-1 + Z.of_nat (length l))) with (length l - 1)%nat by lia.
  destruct (nth_error l (length l - 1)) as [a |] eqn:En; [reflexivity |].
  apply nth_error_None in En. lia.
Qed.

Lemma curveLoop_ok :
  forall range points,
    (forall i, In i range -> (1 <= i < Z.of_nat (length points) - 1)%Z) ->
    exists points',
      Robot.curveLoop range points = Ok points'
      /\ positions points' = positions points
      /\ map Point.theta points' = map Point.theta points
      /\ (forall i, In i range ->
            curveAt points' (Z.to_nat i)
            = interiorCurve (positions points) (Z.to_nat i))
      /\ (forall n, (forall i, In i range -> Z.to_nat i <> n) ->
            curveAt points' n = curveAt points n).
Proof.
  induction range as [| i range IH]; intros points Hb.
  - exists points. cbn. repeat split; auto. intros i [].
  - cbn [Robot.curveLoop].
    assert (Hi : (1 <= i < Z.of_nat (length points) - 1)%Z)
      by (apply Hb; now left).
    destruct (py_index_in_range points (i + 1) ltac:(lia)) as (pp & Hpp & ->).
    destruct (py_index_in_range points (i - 1) ltac:(lia)) as (pm & Hpm & ->).
    destruct (py_index_in_range points i ltac:(lia)) as (p & Hp & ->).
    cbn [bind]. rewrite py_update_in_range by lia. cbn [bind].
    set (v := Rabs (Robot.curveAngle (Point.x pm, Point.y pm)
                      (Point.x p, Point.y p) (Point.x pp, Point.y pp))).
    set (points1 := list_update (Point.set_curve v) (Z.to_nat i) points).
    assert (Hpos1 : positions points1 = positions points)
      by apply positions_set_curve.
    assert (Hv : interiorCurve (positions points) (Z.to_nat i) = Some v).
    { unfold interiorCurve.
      replace (Z.to_nat i - 1)%nat with (Z.to_nat (i - 1)) by lia.
      replace (Z.to_nat i + 1)%nat with (Z.to_nat (i + 1)) by lia.
      now rewrite (positions_nth _ _ _ Hpm), (positions_nth _ _ _ Hp),
        (positions_nth _ _ _ Hpp). }
    destruct (IH points1) as (points' & Hrun & Hpos & Hth & Hin & Hout).
    { intros k Hk. unfold points1. rewrite list_update_length.
      apply Hb. now right. }
    exists points'. split; [exact Hrun |].
    split; [now rewrite Hpos |].
    split; [rewrite Hth; apply thetas_set_curve |].
    split.
    + intros k Hk.
      destruct (in_dec Z.eq_dec k range) as [Hr | Hr].
      * rewrite (Hin k Hr). now rewrite Hpos1.
      * destruct Hk as [<- | Hk]; [| contradiction].
        rewrite Hout.
        -- unfold points1. rewrite curveAt_set_same by lia. now rewrite Hv.
        -- intros k Hk Heq. apply Hr.
           assert (Hkb : (1 <= k)%Z) by (apply (Hb k); now right).
           now replace i with k by lia.
    + intros n Hn.
      rewrite Hout by (intros k Hk; apply Hn; now right).
      apply curveAt_set_other. apply Hn. now left.
Qed.

Lemma curvature_spec points :
  (1 <= length points)%nat ->
  exists points',
    Robot.curvature points = Ok points'
    /\ positions points' = positions points
    /\ map Point.theta points' = map Point.theta points
    /\ forall n, (n < length points)%nat ->
         curveAt points' n
         = if (n =? 0)%nat || (n =? length points - 1)%nat then Some 0
           else interiorCurve (positions points) n.
Proof.
  intros Hlen. unfold Robot.curvature.
  rewrite py_update_in_range by lia. cbn [bind Z.to_nat].
  set (points1 := list_update (Point.set_curve 0) 0 points).
  assert (Hl1 : length points1 = length points) by apply list_update_length.
  rewrite py_update_last by lia. cbn [bind].
  set (points2 := list_update (Point.set_curve 0) (length points1 - 1) points1).
  assert (Hl2 : length points2 = length points)
    by (unfold points2; now rewrite list_update_length).
  assert (Hpos2 : positions points2 = positions points).
  { unfold points2, points1. now rewrite !positions_set_curve. }
  destruct (curveLoop_ok (zrange 1 (Z.of_nat (length points2) - 1)) points2)
    as (points' & Hrun & Hpos & Hth & Hin & Hout).
  { intros i Hi. apply zrange_In in Hi. lia. }
  exists points'. split; [exact Hrun |].
  split; [now rewrite Hpos |].
  split.
  { rewrite Hth. unfold points2, points1. now rewrite !thetas_set_curve. }
  intros n Hn.
  destruct ((n =? 0)%nat || (n =? length points - 1)%nat) eqn:E.
  - rewrite Hout.
    2:{ intros i Hi. apply zrange_In in Hi.
        apply orb_true_iff in E as [E | E]; apply Nat.eqb_eq in E; lia. }
    apply orb_true_iff in E as [E | E]; apply Nat.eqb_eq in E.
    + unfold points2.
      destruct (Nat.eq_dec (length points1 - 1) n) as [Hq | Hq].
      * rewrite Hq. apply curveAt_set_same. lia.
      * rewrite curveAt_set_other by exact Hq.
        subst n. unfold points1. apply curveAt_set_same. lia.
    + unfold points2. rewrite Hl1, <- E. apply curveAt_set_same. lia.
  - apply orb_false_iff in E as [E0 El].
    apply Nat.eqb_neq in E0. apply Nat.eqb_neq in El.
    replace n with (Z.to_nat (Z.of_nat n)) by lia.
    rewrite Hin by (apply zrange_In; lia).
    now rewrite Hpos2.
Qed.

Lemma curves_ext a b :
  length a = length b ->
  (forall n, (n < length a)%nat -> curveAt a n = curveAt b n) ->
  map Point.curve a = map Point.curve b.
Proof.
  intros Hlen H. apply nth_error_ext. intros n.
  rewrite !nth_error_map.
  destruct (Nat.lt_ge_cases n (length a)) as [Hn | Hn].
  - specialize (H n Hn). unfold curveAt in H.
    destruct (nth_error a n) as [p |] eqn:Ea;
      [| apply nth_error_None in Ea; lia].
    destruct (nth_error b n) as [q |] eqn:Eb;
      [| apply nth_error_None in Eb; lia].
    cbn. now rewrite H.
  - assert (Ha : nth_error a n = None) by (apply nth_error_None; lia).
    assert (Hb : nth_error b n = None) by (apply nth_error_None; lia).
    now rewrite Ha, Hb.
Qed.

Lemma curveAngle_normalized pm p pp :
  - PI < chordTurn pm p pp ->
  Robot.curveAngle pm p pp = normalizeAngle (chordTurn pm p pp).
Proof.
  intros H. unfold Robot.curveAngle, normalizeAngle. cbv zeta.
  fold (chordTurn pm p pp).
  destruct (Rgt_dec (chordTurn pm p pp) PI) as [_ | _]; [reflexivity |].
  destruct (Rle_dec (chordTurn pm p pp) (- PI)) as [N | _]; [lra | reflexivity].
Qed.

Lemma normalizeAngle_range a :
  - (2 * PI) < a < 2 * PI -> - PI < normalizeAngle a <= PI.
Proof.
  intros H. pose proof PI_RGT_0. unfold normalizeAngle.
  destruct (Rgt_dec a PI); [lra |].
  destruct (Rle_dec a (- PI)); lra.
Qed.

Lemma atan2_range y x : - PI < atan2 y x <= PI.
Proof.
  pose proof PI_RGT_0 as Hpi. unfold atan2.
  destruct (Rlt_dec 0 x) as [Hx | Hx].
  - pose proof (atan_bound (y / x)). lra.
  - destruct (Rlt_dec x 0) as [Hx' | Hx'].
    + pose proof (atan_bound (y / x)) as Hb.
      assert (Hinv : / x < 0) by now apply Rinv_lt_0_compat.
      destruct (Rle_dec 0 y) as [Hy | Hy].
      * assert (Hq : y / x <= 0) by (unfold Rdiv; nra).
        assert (atan (y / x) <= 0).
        { destruct Hq as [Hq | Hq].
          - left. rewrite <- atan_0. now apply atan_increasing.
          - rewrite Hq, atan_0. lra. }
        lra.
      * assert (Hq : 0 < y / x) by (unfold Rdiv; nra).
        assert (0 < atan (y / x))
          by (rewrite <- atan_0; now apply atan_increasing).
        lra.
    + destruct (Rlt_dec 0 y); [lra |]. destruct (Rlt_dec y 0); lra.
Qed.

Lemma chordTurn_range pm p pp : - (2 * PI) < chordTurn pm p pp < 2 * PI.
Proof.
  unfold chordTurn.
  pose proof (atan2_range (snd pp - snd pm) (fst pp - fst pm)).
  pose proof (atan2_range (snd p - snd pm) (fst p - fst pm)).
  lra.
Qed.

Lemma curvature_assigned points :
  (1 <= length points)%nat ->
  exists points',
    Robot.curvature points = Ok points' /\ curvatureAssigned points points'.
Proof.
  intros Hlen.
  destruct (curvature_spec points Hlen) as (points' & Hrun & Hpos & Hth & Hc).
  exists points'. split; [exact Hrun |].
  split; [exact Hpos |]. split; [exact Hth |].
  split; [now rewrite Hc by lia |].
  split.
  { rewrite Hc by lia.
    now rewrite Nat.eqb_refl, orb_true_r. }
  split.
  - intros i pm p pp Hi Hpm Hp Hpp Hd.
    split; [| apply normalizeAngle_range, chordTurn_range].
    rewrite Hc by lia.
    destruct (i =? 0)%nat eqn:E0; [apply Nat.eqb_eq in E0; lia |].
    destruct (i =? length points - 1)%nat eqn:E1;
      [apply Nat.eqb_eq in E1; lia |].
    cbn [orb]. unfold interiorCurve. rewrite Hpm, Hp, Hpp.
    now rewrite curveAngle_normalized.
  - intros other Hother.
    pose proof (positions_length _ _ Hother) as Hlo.
    destruct (curvature_spec other ltac:(lia))
      as (other' & Hrun' & Hpos' & _ & Hc').
    exists other'. split; [exact Hrun' |].
    pose proof (positions_length _ _ Hpos) as Hl1.
    pose proof (positions_length _ _ Hpos') as Hl2.
    apply curves_ext; [lia |].
    intros n Hn. rewrite Hc' by lia. rewrite Hc by lia.
    now rewrite Hlo, Hother.
Qed.

(** C4 (amended): on a trajectory of at least 2 points the curvature pass
    completes, leaves positions and headings alone, stores 0 at the first
    and last point and, at an interior point i, the absolute value of the
    direction from i-1 to i+1 minus the direction from i-1 to i, brought
    into (-PI, PI] (for differences above -PI); the stored values are a
    function of the positions alone. *)
Theorem C4_curvature_pass :
  forall points,
    (2 <= length points)%nat ->
    exists points',
      Robot.curvature points = Ok points' /\ curvatureAssigned points points'.
Proof.
  intros points Hlen. apply curvature_assigned. lia.
Qed.

Lemma C4_curvature_witness :
  exists points',
    Robot.curvature cornerPoints = Ok points'
    /\ curvatureAssigned cornerPoints points'.
Proof.
  apply (C4_curvature_pass cornerPoints). cbn. lia.
Defined.

Lemma atan2_diag : atan2 1 1 = PI / 4.
Proof.
  unfold atan2. destruct (Rlt_dec 0 1) as [_ | N]; [| lra].
  replace (1 / 1) with 1 by field. apply atan_1.
Qed.

Lemma atan2_east : atan2 0 1 = 0.
Proof.
  unfold atan2. destruct (Rlt_dec 0 1) as [_ | N]; [| lra].
  replace (0 / 1) with 0 by field. apply atan_0.
Qed.

Lemma atan2_north : atan2 1 0 = PI / 2.
Proof.
  unfold atan2. destruct (Rlt_dec 0 0) as [N | _]; [lra |].
  destruct (Rlt_dec 0 1) as [_ | N]; [reflexivity | lra].
Qed.

Lemma corner_curve : Robot.curveAngle (0, 0) (1, 0) (1, 1) = PI / 4.
Proof.
  pose proof PI_RGT_0 as Hpi. unfold Robot.curveAngle. cbn [fst snd].
  replace (1 - 0) with 1 by ring. replace (0 - 0) with 0 by ring.
  rewrite atan2_diag, atan2_east.
  destruct (Rgt_dec (PI / 4 - 0) PI) as [N | _]; lra.
Qed.

Lemma corner_turn : specTurnAngle (0, 0) (1, 0) (1, 1) = PI / 2.
Proof.
  pose proof PI_RGT_0 as Hpi. unfold specTurnAngle, normalizeAngle.
  cbn [fst snd].
  replace (1 - 0) with 1 by ring. replace (0 - 0) with 0 by ring.
  replace (1 - 1) with 0 by ring.
  rewrite atan2_north, atan2_east.
  destruct (Rgt_dec (PI / 2 - 0) PI) as [N | _]; [lra |].
  destruct (Rle_dec (PI / 2 - 0) (- PI)) as [N | _]; lra.
Qed.

(** C4 as worded (the angle between the step into point i and the step out
    of it) fails on the corner (0,0), (1,0), (1,1): the turn is PI/2, the
    curvature stored at the corner is PI/4. *)
Lemma C4_counterexample :
  ~ (forall points points' i pm p pp,
       (2 <= length points)%nat ->
       Robot.curvature points = Ok points' ->
       (1 <= i < length points - 1)%nat ->
       nth_error (positions points) (i - 1) = Some pm ->
       nth_error (positions points) i = Some p ->
       nth_error (positions points) (i + 1) = Some pp ->
       curveAt points' i = Some (Rabs (specTurnAngle pm p pp))).
Proof.
  intros H. pose proof PI_RGT_0 as Hpi.
  destruct (curvature_spec cornerPoints ltac:(cbn; lia))
    as (points' & Hrun & _ & _ & Hc).
  specialize (H cornerPoints points' 1%nat (0, 0) (1, 0) (1, 1)
                ltac:(cbn; lia) Hrun ltac:(cbn; lia)
                eq_refl eq_refl eq_refl).
  rewrite (Hc 1%nat ltac:(cbn; lia)) in H.
  cbn [Nat.eqb length cornerPoints Nat.sub orb] in H.
  unfold interiorCurve in H. cbn [nth_error positions map cornerPoints
    Nat.sub Nat.add pointAt Point.init Point.x Point.y] in H.
  rewrite corner_curve, corner_turn in H.
  injection H as H.
  rewrite !Rabs_right in H; lra.
Qed.

(** *** The closest-point search *)

Lemma bind_Ok {A B} (m : result A) (k : A -> result B) b :
  bind m k = Ok b -> exists a, m = Ok a /\ k a = Ok b.
Proof.
  destruct m as [a | e |]; cbn; try discriminate. intros H. now exists a.
Qed.

Lemma hypo_zero : Utility.hypo 0 0 = 0.
Proof. apply hypo_axis. lra. Qed.

Lemma hypo_axis_abs a : Utility.hypo a 0 = Rabs a.
Proof.
  unfold Utility.hypo. replace (a * a + 0 * 0) with (Rsqr a)
    by (unfold Rsqr; ring).
  apply sqrt_Rsqr_abs.
Qed.

Lemma closestLoop_window points x y end_ :
  forall n start minIndex minDist r,
    PurePursuitRobot.closestLoop n points x y end_ start minIndex minDist
    = Ok r ->
    r = minIndex \/ (start <= r < end_)%Z.
Proof.
  induction n as [| n IH]; intros start minIndex minDist r H.
  - cbn in H. injection H as <-. now left.
  - cbn [PurePursuitRobot.closestLoop] in H.
    destruct (start <? end_)%Z eqn:E.
    + apply bind_Ok in H as (p & _ & H).
      apply Z.ltb_lt in E.
      destruct (Rlt_dec _ minDist); apply IH in H; destruct H; lia.
    + injection H as <-. now left.
Qed.

(** The index returned is the (clipped) start of the window or lies
    strictly below the last index of the trajectory. *)
Lemma findClosestPoint_window points x y start end_ r :
  PurePursuitRobot.findClosestPoint points x y start end_ = Ok r ->
  r = Z.max start 0 \/ (Z.max start 0 < r < Z.of_nat (length points) - 1)%Z.
Proof.
  unfold PurePursuitRobot.findClosestPoint. intros H.
  apply bind_Ok in H as (p & _ & H).
  apply closestLoop_window in H. lia.
Qed.

Lemma py_index_nonneg {A} (l : list A) (i : Z) a :
  (0 <= i)%Z -> py_index l i = Ok a -> nth_error l (Z.to_nat i) = Some a.
Proof.
  intros Hi. unfold py_index, py_norm.
  destruct (i <? 0)%Z eqn:E; [lia |]. rewrite E.
  destruct (nth_error l (Z.to_nat i)); [| discriminate].
  now intros [= ->].
Qed.

Lemma closestLoop_minimizes points x y end_ lo :
  forall n start minIndex minDist r,
    PurePursuitRobot.closestLoop n points x y end_ start minIndex minDist
    = Ok r ->
    (0 <= start)%Z ->
    (Z.to_nat (end_ - start) <= n)%nat ->
    minDist = distanceTo points x y minIndex ->
    (forall j, (lo <= j < start)%Z -> minDist <= distanceTo points x y j) ->
    forall j, (lo <= j < Z.max start end_)%Z ->
              distanceTo points x y r <= distanceTo points x y j.
Proof.
  induction n as [| n IH]; intros start minIndex minDist r H H0 Hn Hm Hlow j Hj.
  - cbn in H. injection H as <-. rewrite <- Hm. apply Hlow. lia.
  - cbn [PurePursuitRobot.closestLoop] in H.
    destruct (start <? end_)%Z eqn:E.
    + apply Z.ltb_lt in E.
      apply bind_Ok in H as (p & Hp & H).
      apply py_index_nonneg in Hp; [| exact H0].
      assert (Hd : Utility.distance x y (Point.x p) (Point.y p)
                   = distanceTo points x y start).
      { unfold distanceTo. now rewrite Hp. }
      rewrite Hd in H.
      destruct (Rlt_dec (distanceTo points x y start) minDist) as [Hlt | Hge].
      * apply (IH _ _ _ _ H); try lia; try reflexivity.
        intros k Hk. destruct (Z.eq_dec k start) as [-> | Hne]; [lra |].
        specialize (Hlow k ltac:(lia)). lra.
      * apply (IH _ _ _ _ H); try lia; try assumption.
        intros k Hk. destruct (Z.eq_dec k start) as [-> | Hne]; [lra |].
        apply Hlow. lia.
    + apply Z.ltb_ge in E. injection H as <-.
      rewrite <- Hm. apply Hlow. lia.
Qed.

(** The search returns an index of least distance among the indexes from
    the clipped start up to, not including, [min(end, len(points) - 1)]:
    the last index of the trajectory is outside what is compared. *)
Lemma findClosestPoint_minimizes points x y start end_ r :
  PurePursuitRobot.findClosestPoint points x y start end_ = Ok r ->
  let lo := Z.max start 0 in
  let hi := Z.min end_ (Z.of_nat (length points) - 1) in
  (r = lo \/ (lo < r < hi)%Z)
  /\ forall j, (lo <= j < hi)%Z ->
               distanceTo points x y r <= distanceTo points x y j.
Proof.
  intros H lo hi. subst lo hi.
  unfold PurePursuitRobot.findClosestPoint in H.
  apply bind_Ok in H as (p & Hp & H).
  apply py_index_nonneg in Hp; [| lia].
  split.
  { apply closestLoop_window in H. lia. }
  intros j Hj.
  apply (closestLoop_minimizes points x y _ (Z.max start 0) _ _ _ _ _ H);
    try lia.
  - unfold distanceTo. now rewrite Hp.
  - intros k Hk. replace k with (Z.max start 0) by lia.
    unfold distanceTo. rewrite Hp. lra.
Qed.

(** C5: on the two-point trajectory (0,0), (10,0), with the robot standing
    on the last point and the closest index at 0, the window [0, 30)
    clipped to the trajectory is {0, 1} and index 1 is at distance 0, yet
    the search returns 0: the end of the window is clipped to
    [len(points) - 1], so the last index is never examined. *)
Theorem C5_last_index_not_examined :
  PurePursuitRobot.findClosestPoint twoPoints 10 0 0 (0 + 30) = Ok 0%Z
  /\ Utility.distance 10 0 10 0 = 0
  /\ Utility.distance 10 0 0 0 = 10.
Proof.
  split; [reflexivity |]. split.
  - unfold Utility.distance. replace (10 - 10) with 0 by ring.
    replace (0 - 0) with 0 by ring. apply hypo_zero.
  - unfold Utility.distance. replace (0 - 0) with 0 by ring.
    rewrite hypo_axis_abs. replace (0 - 10) with (- (10)) by ring.
    rewrite Rabs_Ropp. apply Rabs_right. lra.
Qed.

(** *** The lookahead index *)

Lemma advanceLookahead_bounds lookahead points ci :
  forall n li li',
    PurePursuitRobot.advanceLookahead n lookahead points ci li = Ok li' ->
    (li <= li')%Z
    /\ (li' = li \/ li' <= Z.of_nat (length points) - 1)%Z.
Proof.
  induction n as [| n IH]; intros li li' H.
  - cbn in H. injection H as <-. lia.
  - cbn [PurePursuitRobot.advanceLookahead] in H.
    destruct (li <? Z.of_nat (length points) - 1)%Z eqn:E.
    + apply Z.ltb_lt in E.
      apply bind_Ok in H as (pl & _ & H).
      apply bind_Ok in H as (pc & _ & H).
      destruct (Rlt_dec _ lookahead).
      * apply IH in H. lia.
      * injection H as <-. lia.
    + injection H as <-. lia.
Qed.

Lemma step_li lookahead rng points st st' :
  PurePursuitRobot.step lookahead rng points st = Ok st' ->
  exists ci',
    PurePursuitRobot.advanceLookahead
      (Z.to_nat (Z.of_nat (length points) - 1 - PurePursuitRobot.li st))
      lookahead points ci' (PurePursuitRobot.li st)
    = Ok (PurePursuitRobot.li st').
Proof.
  unfold PurePursuitRobot.step. intros H.
  apply bind_Ok in H as (ci' & _ & H).
  apply bind_Ok in H as (li' & Hli & H).
  apply bind_Ok in H as (pl & _ & H).
  destruct (Req_dec_T _ 0) as [_ | _]; [discriminate H |].
  apply bind_Ok in H as (thl & _ & H).
  apply bind_Ok in H as (pc & _ & H).
  apply bind_Ok in H as (curve & _ & H).
  injection H as <-. cbn [PurePursuitRobot.li]. now exists ci'.
Qed.

Lemma step_li_bounds lookahead rng points st st' :
  PurePursuitRobot.step lookahead rng points st = Ok st' ->
  (PurePursuitRobot.li st <= Z.of_nat (length points) - 1)%Z ->
  (PurePursuitRobot.li st <= PurePursuitRobot.li st'
   <= Z.of_nat (length points) - 1)%Z.
Proof.
  intros H Hb. apply step_li in H as (ci' & H).
  apply advanceLookahead_bounds in H. lia.
Qed.

Lemma initial_li rng points st0 :
  PurePursuitRobot.initial rng points = Ok st0 ->
  PurePursuitRobot.li st0 = 0%Z /\ (1 <= length points)%nat.
Proof.
  unfold PurePursuitRobot.initial. intros H.
  apply bind_Ok in H as (p0 & Hp & H).
  apply bind_Ok in H as (th & _ & H).
  injection H as <-. split; [reflexivity |].
  destruct points; [discriminate Hp | cbn; lia].
Qed.

Lemma reachable_li lookahead rng points st st' :
  reachable lookahead rng points st st' ->
  (PurePursuitRobot.li st <= Z.of_nat (length points) - 1)%Z ->
  (PurePursuitRobot.li st <= PurePursuitRobot.li st'
   <= Z.of_nat (length points) - 1)%Z.
Proof.
  induction 1 as [st | st st' st'' Hr IH Hrun Ht Hstep]; intros Hb.
  - lia.
  - specialize (IH Hb).
    pose proof (step_li_bounds _ _ _ _ _ Hstep ltac:(lia)). lia.
Qed.

(** The simulation returned by the main loop is the trace of a state the
    loop passes through. *)
Lemma mainLoop_reachable lookahead rng points :
  forall fuel st sim,
    PurePursuitRobot.mainLoop fuel lookahead rng points st = Ok sim ->
    exists st',
      reachable lookahead rng points st st'
      /\ sim = PurePursuitRobot.simulation st'.
Proof.
  induction fuel as [| fuel IH]; intros st sim H; [discriminate H |].
  cbn [PurePursuitRobot.mainLoop] in H.
  apply bind_Ok in H as (c & Hc & H).
  destruct c.
  - destruct (PurePursuitRobot.timestep st >? PurePursuitRobot.MAX_TIMESTEPS)%Z
      eqn:Et.
    + injection H as <-. exists st. split; [constructor | reflexivity].
    + apply bind_Ok in H as (st1 & Hstep & H).
      apply IH in H as (st' & Hr & ->).
      exists st'. split; [| reflexivity].
      clear IH. induction Hr as [s | s s' s'' Hr' IH' Hrun Ht Hs].
      * apply (reach_turn _ _ _ st st s); [constructor | | |]; assumption.
      * apply (reach_turn _ _ _ st s' s''); try assumption.
        now apply IH'.
  - injection H as <-. exists st. split; [constructor | reflexivity].
Qed.

(** C6: in every run of the pursuit simulation the lookahead index starts
    at 0, never decreases from one state of the loop to a later one, and
    never exceeds the last index of the trajectory. *)
Theorem C6_lookahead_monotone :
  forall lookahead rng points st0 st st',
    PurePursuitRobot.initial rng points = Ok st0 ->
    reachable lookahead rng points st0 st ->
    reachable lookahead rng points st st' ->
    (0 <= PurePursuitRobot.li st <= PurePursuitRobot.li st')%Z
    /\ (PurePursuitRobot.li st' <= Z.of_nat (length points) - 1)%Z.
Proof.
  intros lookahead rng points st0 st st' Hinit H0 H1.
  apply initial_li in Hinit as [Hli Hlen].
  pose proof (reachable_li _ _ _ _ _ H0 ltac:(lia)) as Hst.
  pose proof (reachable_li _ _ _ _ _ H1 ltac:(lia)) as Hst'.
  lia.
Qed.

Lemma track_initial :
  PurePursuitRobot.initial noNoise trackPoints = Ok trackStart.
Proof. reflexivity. Qed.

Lemma track_step :
  exists st1,
    PurePursuitRobot.step 30 noNoise trackPoints trackStart = Ok st1.
Proof.
  unfold PurePursuitRobot.step.
  change (PurePursuitRobot.findClosestPoint trackPoints
            (PurePursuitRobot.x trackStart) (PurePursuitRobot.y trackStart)
            (PurePursuitRobot.ci trackStart)
            (PurePursuitRobot.ci trackStart + 30))
    with (Ok 0%Z : result Z).
  cbn [bind].
  assert (Hadv : PurePursuitRobot.advanceLookahead
            (Z.to_nat (Z.of_nat (length trackPoints) - 1
                       - PurePursuitRobot.li trackStart))
            30 trackPoints 0 (PurePursuitRobot.li trackStart) = Ok 1%Z).
  { change (Z.to_nat (Z.of_nat (length trackPoints) - 1
                       - PurePursuitRobot.li trackStart)) with 1%nat.
    cbn [PurePursuitRobot.advanceLookahead PurePursuitRobot.li trackStart].
    change (0 <? Z.of_nat (length trackPoints) - 1)%Z with true.
    change (py_index trackPoints 0)
      with (Ok (Point.mk 0 0 Utility.RED (Some 0) (Some 0))).
    cbn [bind Point.x Point.y].
    unfold Utility.distance. replace (0 - 0) with 0 by ring.
    rewrite hypo_zero.
    destruct (Rlt_dec 0 30) as [_ | N]; [reflexivity | lra]. }
  rewrite Hadv. cbn [bind].
  change (py_index trackPoints 1)
    with (Ok (Point.mk 100 0 Utility.RED (Some 0) (Some 0))).
  cbn [bind Point.x Point.y Point.theta Point.curve attr
       PurePursuitRobot.x PurePursuitRobot.y trackStart].
  destruct (Req_dec_T _ 0) as [E | _].
  - exfalso.
    replace ((100 - (0 + 10 * 0)) * K_P_TRANS) with 3000 in E
      by (unfold K_P_TRANS; ring).
    replace ((0 - (0 + 10 * 0)) * K_P_TRANS) with 0 in E
      by (unfold K_P_TRANS; ring).
    rewrite hypo_axis in E by lra. lra.
  - change (py_index trackPoints 0)
      with (Ok (Point.mk 0 0 Utility.RED (Some 0) (Some 0))).
    cbn [bind]. eexists. reflexivity.
Qed.

Lemma C6_lookahead_witness :
  exists st1,
    reachable 30 noNoise trackPoints trackStart st1
    /\ (0 <= PurePursuitRobot.li trackStart <= PurePursuitRobot.li st1)%Z
    /\ (PurePursuitRobot.li st1 <= Z.of_nat (length trackPoints) - 1)%Z.
Proof.
  destruct track_step as [st1 Hstep].
  assert (Hr : reachable 30 noNoise trackPoints trackStart st1).
  { apply (reach_turn _ _ _ trackStart trackStart st1).
    - constructor.
    - reflexivity.
    - reflexivity.
    - exact Hstep. }
  exists st1. split; [exact Hr |].
  apply (C6_lookahead_monotone 30 noNoise trackPoints trackStart trackStart st1).
  - exact track_initial.
  - constructor.
  - exact Hr.
Defined.

(** *** The ideal robot *)

Lemma ideal_trace :
  forall points,
    Forall (fun p => Point.theta p <> None) points ->
    exists sim,
      IdealRobot.computeSimulation points = Ok sim
      /\ length sim = length points
      /\ forall n p,
           nth_error points n = Some p ->
           exists sp,
             nth_error sim n = Some sp
             /\ SimulationPoint.x sp = Point.x p
             /\ SimulationPoint.y sp = Point.y p
             /\ Some (SimulationPoint.theta sp) = Point.theta p
             /\ SimulationPoint.kwargs sp = [].
Proof.
  induction points as [| q points IH]; intros Hall.
  - exists []. repeat split. intros [| n] p H; discriminate H.
  - inversion Hall as [| q' l Hq Hrest]; subst.
    destruct (IH Hrest) as (sim & Hrun & Hlen & Hnth).
    cbn [IdealRobot.computeSimulation].
    destruct (Point.theta q) as [th |] eqn:Eth; [| contradiction].
    cbn [attr bind]. rewrite Hrun. cbn [bind].
    eexists. split; [reflexivity |]. split; [cbn; now rewrite Hlen |].
    intros [| n] p Hp; cbn [nth_error] in Hp |- *.
    + injection Hp as <-. eexists. split; [reflexivity |].
      cbn. now rewrite Eth.
    + now apply Hnth.
Qed.

Lemma getattr_no_kwargs sp name :
  SimulationPoint.kwargs sp = [] ->
  name <> "x"%string -> name <> "y"%string -> name <> "theta"%string ->
  SimulationPoint.getattr sp name = None.
Proof.
  intros Hk Hx Hy Ht. unfold SimulationPoint.getattr. rewrite Hk. cbn.
  apply String.eqb_neq in Hx, Hy, Ht. now rewrite Hx, Hy, Ht.
Qed.

(** C7 (amended): on a trajectory whose points all carry a heading, the
    ideal robot's trace has one state point per trajectory point, with
    that point's position and heading, and no velocity attribute at all:
    reading xvel, yvel or tvel fails instead of yielding zero. *)
Theorem C7_ideal_trace :
  forall points,
    Forall (fun p => Point.theta p <> None) points ->
    exists sim,
      IdealRobot.computeSimulation points = Ok sim
      /\ length sim = length points
      /\ forall n p,
           nth_error points n = Some p ->
           exists sp,
             nth_error sim n = Some sp
             /\ SimulationPoint.x sp = Point.x p
             /\ SimulationPoint.y sp = Point.y p
             /\ Some (SimulationPoint.theta sp) = Point.theta p
             /\ SimulationPoint.getattr sp "xvel" = None
             /\ SimulationPoint.getattr sp "yvel" = None
             /\ SimulationPoint.getattr sp "tvel" = None.
Proof.
  intros points Hall.
  destruct (ideal_trace points Hall) as (sim & Hrun & Hlen & Hnth).
  exists sim. split; [exact Hrun |]. split; [exact Hlen |].
  intros n p Hp.
  destruct (Hnth n p Hp) as (sp & Hsp & Hx & Hy & Hth & Hk).
  exists sp. repeat split; try assumption;
    apply getattr_no_kwargs; try assumption; discriminate.
Qed.

Lemma C7_ideal_witness :
  exists sim,
    IdealRobot.computeSimulation idealPoints = Ok sim
    /\ length sim = length idealPoints
    /\ forall n p,
         nth_error idealPoints n = Some p ->
         exists sp,
           nth_error sim n = Some sp
           /\ SimulationPoint.x sp = Point.x p
           /\ SimulationPoint.y sp = Point.y p
           /\ Some (SimulationPoint.theta sp) = Point.theta p
           /\ SimulationPoint.getattr sp "xvel" = None
           /\ SimulationPoint.getattr sp "yvel" = None
           /\ SimulationPoint.getattr sp "tvel" = None.
Proof.
  apply (C7_ideal_trace idealPoints).
  constructor; [discriminate | constructor].
Defined.

(** C7 as worded (all velocity fields reported as zero) fails on any
    non-empty trajectory: the state points of the ideal robot are built
    without velocity attributes. *)
Lemma C7_counterexample :
  ~ (forall points sim sp,
       IdealRobot.computeSimulation points = Ok sim ->
       In sp sim ->
       SimulationPoint.getattr sp "xvel" = Some 0
       /\ SimulationPoint.getattr sp "yvel" = Some 0
       /\ SimulationPoint.getattr sp "tvel" = Some 0).
Proof.
  intros H.
  destruct (H idealPoints [SimulationPoint.mk 1 2 3 []]
              (SimulationPoint.mk 1 2 3 []) eq_refl (or_introl eq_refl))
    as [Hx _].
  discriminate Hx.
Qed.

(** *** Degenerate inputs *)

Lemma interpolatePoints_few_poses fuel poses points sd :
  (length poses < 2)%nat ->
  Path.interpolatePoints fuel (Path.mk poses points sd)
  = (Path.mk poses [] sd, Ok tt).
Proof.
  intros H. unfold Path.interpolatePoints. cbn [Path.poses].
  apply Nat.ltb_lt in H. now rewrite H.
Qed.

Lemma startSimulation_empty fuel rng self :
  GenericRobot.startSimulation fuel rng self [] = (self, [], Raise IndexError).
Proof. reflexivity. Qed.

(** With the trajectory empty, both guards of [handleSimulation] fail:
    neither [autoCalibrate] nor [startSimulation] is reached. *)
Lemma handleSimulation_empty : emptyTrajectoryNotStarted.
Proof.
  unfold emptyTrajectoryNotStarted, PathSimulation.handleSimulation. intros.
  cbn [length Nat.ltb Nat.leb].
  rewrite !andb_false_r. reflexivity.
Qed.

(** With points in the trajectory, the space key just pressed and no
    simulation going on, [handleSimulation] does make the call: the
    guard lets a non-empty trajectory through. *)
Lemma handleSimulation_starts (W : Type)
  (simulating playingSimulation keyReturn keySpacePressed keyEscape
     isPurePursuit sliderAtHigh : W -> bool)
  (sliderReset : W -> W) (setPlayingSimulation setSimulating : bool -> W -> W)
  (autoCalibrate : W -> W * result unit)
  (startSimulation : W -> list Point.t -> (W * list Point.t) * result unit)
  (p : Point.t) (points : list Point.t) (w : W) :
  simulating w = false ->
  keySpacePressed w = true ->
  PathSimulation.handleSimulation W simulating playingSimulation keyReturn
    keySpacePressed keyEscape isPurePursuit sliderAtHigh sliderReset
    setPlayingSimulation setSimulating autoCalibrate startSimulation
    (p :: points) w
  = match startSimulation w (p :: points) with
    | ((w2, points2), Ok _) =>
        ((if keyEscape w2 then setSimulating false w2 else w2, points2),
         Ok tt)
    | (after, Raise e) => (after, Raise e)
    | (after, OutOfFuel) => (after, OutOfFuel)
    end.
Proof.
  intros Hsim Hkey. unfold PathSimulation.handleSimulation.
  rewrite Hsim. cbn [andb length Nat.ltb Nat.leb].
  rewrite Hkey, Hsim. reflexivity.
Qed.

(** C8 (amended): a pose list with 0 or 1 poses interpolates to the empty
    trajectory; [startSimulation] on the empty trajectory raises an index
    error at its first statement, leaving the robot without a simulation;
    and [handleSimulation], the caller in the path container, calls no
    robot method on an empty trajectory, so that it starts a simulation
    only when the trajectory has points. *)
Theorem C8_empty_trajectory :
  forall fuel rng self poses points sd,
    (length poses < 2)%nat ->
    Path.interpolatePoints fuel (Path.mk poses points sd)
    = (Path.mk poses [] sd, Ok tt)
    /\ GenericRobot.startSimulation fuel rng self []
       = (self, [], Raise IndexError)
    /\ emptyTrajectoryNotStarted.
Proof.
  intros fuel rng self poses points sd H. split; [| split].
  - now apply interpolatePoints_few_poses.
  - apply startSimulation_empty.
  - exact handleSimulation_empty.
Qed.

Lemma C8_empty_witness :
  Path.interpolatePoints 1 (Path.mk [lineA] idealPoints 3)
  = (Path.mk [lineA] [] 3, Ok tt)
  /\ GenericRobot.startSimulation 1 noNoise idealRobot []
     = (idealRobot, [], Raise IndexError)
  /\ emptyTrajectoryNotStarted.
Proof.
  apply (C8_empty_trajectory 1 noNoise idealRobot [lineA] idealPoints 3).
  cbn. lia.
Defined.

(** C8 as worded (zero steps, 0 returned) fails: the call does not
    return. *)
Lemma C8_counterexample :
  snd (GenericRobot.startSimulation 1 noNoise idealRobot []) <> Ok 0%nat.
Proof. cbn. discriminate. Qed.

(** *** The first anchor *)

Lemma segmentBody_known fuel sd poses i s known points points' s' known' :
  Path.segmentBody fuel sd poses i s known points
  = (points', Ok (s', known')) ->
  exists more, known' = known ++ more.
Proof.
  unfold Path.segmentBody.
  destruct (nth_error poses i) as [p1 |]; [| discriminate].
  destruct (nth_error poses (i + 1)) as [p2 |]; [| discriminate].
  destruct (Path.samePosition p1 p2).
  - intros [= _ _ <-]. exists []. now rewrite app_nil_r.
  - destruct (Path.interpolateSplineCurve fuel sd poses points i s)
      as [pts [s0 | e |]]; try discriminate.
    intros [= _ _ <-].
    destruct (Pose.theta p1) as [th |]; [now eexists |].
    exists []. now rewrite app_nil_r.
Qed.

Lemma segmentLoop_known fuel sd poses :
  forall range s known points points' s' known',
    Path.segmentLoop fuel sd poses range s known points
    = (points', Ok (s', known')) ->
    exists more, known' = known ++ more.
Proof.
  induction range as [| i range IH]; intros s known points points' s' known' H.
  - cbn in H. injection H as _ _ <-. exists []. now rewrite app_nil_r.
  - cbn [Path.segmentLoop] in H.
    destruct (Path.segmentBody fuel sd poses i s known points)
      as [pts [[s1 known1] | e |]] eqn:Eb; try discriminate H.
    apply segmentBody_known in Eb as [more1 ->].
    apply IH in H as [more2 ->].
    exists (more1 ++ more2). now rewrite app_assoc.
Qed.

(** When the first pose has a heading and the second pose is not on the
    same spot, the anchor list collected by [interpolatePoints] starts
    with that heading at index 0. *)
Lemma first_anchor_at_zero fuel sd p0 p1 rest th points' s' known' :
  Pose.theta p0 = Some th ->
  Path.samePosition p0 p1 = false ->
  Path.segmentLoop fuel sd (p0 :: p1 :: rest)
    (seq 0 (length (p0 :: p1 :: rest) - 1)) 0 [] []
  = (points', Ok (s', known')) ->
  exists more, known' = (0%Z, th) :: more.
Proof.
  intros Hth Hpos H.
  cbn [length Nat.sub seq Path.segmentLoop] in H.
  destruct (Path.segmentBody fuel sd (p0 :: p1 :: rest) 0 0 [] [])
    as [pts [[s1 known1] | e |]] eqn:Eb; try discriminate H.
  apply segmentLoop_known in H as [more ->].
  unfold Path.segmentBody in Eb. cbn [nth_error Nat.add] in Eb.
  rewrite Hpos, Hth in Eb.
  destruct (Path.interpolateSplineCurve fuel sd (p0 :: p1 :: rest) [] 0 0)
    as [pts0 [s0 | e |]]; try discriminate Eb.
  injection Eb as _ _ <-. now exists more.
Qed.

Lemma stack_same : Path.samePosition stackA stackA' = true.
Proof.
  unfold Path.samePosition.
  destruct (Req_dec_T (Pose.x stackA) (Pose.x stackA')) as [_ | N];
    [| now contradiction N].
  destruct (Req_dec_T (Pose.y stackA) (Pose.y stackA')) as [_ | N];
    [reflexivity | now contradiction N].
Qed.

Lemma stack_apart : Path.samePosition stackA' stackB = false.
Proof.
  unfold Path.samePosition.
  destruct (Req_dec_T (Pose.x stackA') (Pose.x stackB)) as [H | _];
    [cbn in H; lra | reflexivity].
Qed.

Lemma stack_spline :
  Path.interpolateSplineCurve 3 2 [stackA; stackA'; stackB] [] 1 0
  = ([pointAt 0 0; pointAt 2 0], Ok 1).
Proof.
  unfold Path.interpolateSplineCurve. cbn [nth_error Nat.add].
  destruct (Req_dec_T 0 0) as [_ | H]; [| now contradiction H].
  unfold stackA', stackB.
  rewrite (straight_step 2 2 0 3 3 _ _ 0 (2 / 3) 0) by lra.
  rewrite (straight_step 1 2 0 3 3 _ _ (2 / 3) (4 / 3) 2) by lra.
  rewrite sampleLoop_exit by lra.
  cbn [app fst snd]. f_equal. f_equal.
  change (Pose.x (straightPose 3 3 (Some 0))) with 3.
  change (Pose.y (straightPose 3 3 (Some 0))) with 0.
  rewrite distance_axis by lra. lra.
Qed.

(** C9: with two poses on the same spot at the head of the list, the first
    pair is skipped and with it the anchor of the first pose; the second
    pose has no heading, so the only anchor is the one of the last pose,
    at index 1, and the assertion [i1 == 0] fails with two points already
    in the trajectory. *)
Theorem C9_first_anchor_not_at_zero :
  Path.interpolatePoints 3 (Path.mk [stackA; stackA'; stackB] [] 2)
  = (Path.mk [stackA; stackA'; stackB] [pointAt 0 0; pointAt 2 0] 2,
     Raise AssertionError).
Proof.
  unfold Path.interpolatePoints.
  cbn [Path.poses Path.segmentDistance length Nat.ltb Nat.leb Nat.sub seq
       Path.segmentLoop].
  unfold Path.segmentBody at 1. cbn [nth_error Nat.add].
  rewrite stack_same.
  unfold Path.segmentBody at 1. cbn [nth_error Nat.add].
  rewrite stack_apart, stack_spline.
  reflexivity.
Qed.

(** *** Reproducibility of the interpolation *)

Lemma interpolatePoints_ignores_points fuel poses sd points1 points2 :
  Path.interpolatePoints fuel (Path.mk poses points1 sd)
  = Path.interpolatePoints fuel (Path.mk poses points2 sd).
Proof. reflexivity. Qed.

Lemma interpolatePoints_keeps_poses fuel p :
  Path.poses (fst (Path.interpolatePoints fuel p)) = Path.poses p
  /\ Path.segmentDistance (fst (Path.interpolatePoints fuel p))
     = Path.segmentDistance p.
Proof.
  unfold Path.interpolatePoints.
  destruct (length (Path.poses p) <? 2)%nat; [now split |].
  destruct (Path.segmentLoop _ _ _ _ _ _ _) as [pts [[s known] | e |]];
    try now split.
  destruct (py_index (Path.poses p) (-1)) as [plast | e |]; try now split.
  destruct (1 <? length (Path.poses p))%nat; now split.
Qed.

(** C10: the outcome of [interpolatePoints] (the trajectory left in the
    path and the way the call ends) does not depend on the points the path
    held before, and running it again on its own result gives the same
    result: positions and headings are a function of the pose list and the
    sampling distance. *)
Theorem C10_interpolation_reproducible :
  forall fuel poses sd points1 points2,
    Path.interpolatePoints fuel (Path.mk poses points1 sd)
    = Path.interpolatePoints fuel (Path.mk poses points2 sd)
    /\ Path.interpolatePoints fuel
         (fst (Path.interpolatePoints fuel (Path.mk poses points1 sd)))
       = Path.interpolatePoints fuel (Path.mk poses points1 sd).
Proof.
  intros fuel poses sd points1 points2. split.
  - apply interpolatePoints_ignores_points.
  - destruct (interpolatePoints_keeps_poses fuel (Path.mk poses points1 sd))
      as [Hp Hs].
    destruct (fst (Path.interpolatePoints fuel (Path.mk poses points1 sd)))
      as [poses' points' sd'].
    cbn in Hp, Hs. subst poses' sd'.
    apply interpolatePoints_ignores_points.
Qed.

(* ================================================================== *)
(** ** Further properties of the interpolator *)

(** *** What the sampling loop appends *)

Lemma segmentSpeed_pos p1 p2 t :
  segmentSpeed p1 p2 t <> 0 -> 0 < segmentSpeed p1 p2 t.
Proof.
  unfold segmentSpeed, Utility.hypo. cbv zeta. intros H.
  match goal with |- 0 < sqrt ?e => pose proof (sqrt_pos e) end. lra.
Qed.

Lemma sampleLoop_appends sd p1 p2 :
  0 < sd ->
  forall fuel ns xy points,
    exists ts,
      fst (Path.sampleLoop fuel sd (Pose.x p1, Pose.y p1)
             (Pose.forward_x p1, Pose.forward_y p1)
             (Pose.backward_x p2, Pose.backward_y p2)
             (Pose.x p2, Pose.y p2) ns xy points)
      = points ++ map (segmentPoint p1 p2) ts
      /\ sampledFrom ns ts.
Proof.
  intros Hsd. induction fuel as [| fuel IH]; intros ns xy points.
  - exists []. cbn. rewrite app_nil_r. repeat split; constructor.
  - cbn [Path.sampleLoop].
    destruct (Rlt_dec ns 1) as [Hlt | Hge].
    + fold (segmentSpeed p1 p2 ns).
      destruct (Req_dec_T (segmentSpeed p1 p2 ns) 0) as [Hz | Hnz].
      * exists [ns]. cbn [fst map]. split; [reflexivity |].
        repeat split; repeat constructor; lra.
      * pose proof (segmentSpeed_pos _ _ _ Hnz) as Hpos.
        assert (Hstep : 0 < sd / segmentSpeed p1 p2 ns)
          by now apply Rdiv_lt_0_compat.
        destruct (IH (ns + sd / segmentSpeed p1 p2 ns)
                    (Some (BezierCurves.getBezierPoint ns
                             (Pose.x p1, Pose.y p1)
                             (Pose.forward_x p1, Pose.forward_y p1)
                             (Pose.backward_x p2, Pose.backward_y p2)
                             (Pose.x p2, Pose.y p2)))
                    (points ++ [segmentPoint p1 p2 ns]))
          as (ts & Hpts & Hfirst & Hall).
        exists (ns :: ts). unfold segmentPoint, pointAt in Hpts |- *.
        rewrite Hpts. cbn [map]. rewrite <- app_assoc.
        split; [reflexivity |]. split.
        -- split; [reflexivity |].
           destruct ts as [| t ts]; [exact I |].
           destruct Hfirst as [-> Hrise]. cbn. split; [lra | exact Hrise].
        -- constructor; [exact Hlt | exact Hall].
    + exists []. cbn. rewrite app_nil_r. repeat split; constructor.
Qed.

(** X1: however [interpolateSplineCurve] ends (normally, by an exception or
    out of fuel), the points list has only grown, and only by points of the
    segment's curve, taken at the start parameter first and then at
    strictly rising parameters, all below 1. *)
Theorem spline_appends_curve_points :
  forall fuel sd poses points i s p1 p2,
    nth_error poses i = Some p1 ->
    nth_error poses (i + 1) = Some p2 ->
    0 < sd ->
    exists ts,
      fst (Path.interpolateSplineCurve fuel sd poses points i s)
      = points ++ map (segmentPoint p1 p2) ts
      /\ sampledFrom (startParameter p1 p2 s) ts.
Proof.
  intros fuel sd poses points i s p1 p2 H1 H2 Hsd.
  unfold Path.interpolateSplineCurve, startParameter. rewrite H1, H2.
  cbv zeta.
  assert (Hfin : forall ns,
    exists ts,
      fst (match Path.sampleLoop fuel sd (Pose.x p1, Pose.y p1)
                   (Pose.forward_x p1, Pose.forward_y p1)
                   (Pose.backward_x p2, Pose.backward_y p2)
                   (Pose.x p2, Pose.y p2) ns None points with
           | (points', Ok (Some xy)) =>
               (points',
                Ok (sd - Utility.distance (fst xy) (snd xy)
                            (fst (Pose.x p2, Pose.y p2))
                            (snd (Pose.x p2, Pose.y p2))))
           | (points', Ok None) => (points', Raise UnboundLocalError)
           | (points', Raise e) => (points', Raise e)
           | (points', OutOfFuel) => (points', OutOfFuel)
           end)
      = points ++ map (segmentPoint p1 p2) ts
      /\ sampledFrom ns ts).
  { intros ns.
    destruct (sampleLoop_appends sd p1 p2 Hsd fuel ns None points)
      as (ts & Hpts & Hs).
    exists ts. split; [| exact Hs].
    destruct (Path.sampleLoop _ _ _ _ _ _ ns None points)
      as [pts [[xy |] | e |]]; exact Hpts. }
  assert (Hnone : sampledFrom (Path.firstAdvance p1 p2 s) []).
  { split; [exact I | constructor]. }
  destruct (Req_dec_T s 0) as [Hs | Hs]; [apply Hfin |].
  destruct (Req_dec_T _ 0) as [Hh | Hh].
  { exists []. cbn. now rewrite app_nil_r. }
  destruct (Rgt_dec _ 1) as [Hgt | Hgt].
  { exists []. cbn. now rewrite app_nil_r. }
  apply Hfin.
Qed.

Lemma spline_appends_witness :
  exists ts,
    fst (Path.interpolateSplineCurve 3 3 [lineA; lineB] [] 0 0)
    = [] ++ map (segmentPoint lineA lineB) ts
    /\ sampledFrom (startParameter lineA lineB 0) ts.
Proof.
  apply (spline_appends_curve_points 3 3 [lineA; lineB] [] 0 0 lineA lineB).
  - reflexivity.
  - reflexivity.
  - lra.
Defined.

(** *** Termination of the sampling loop *)

Lemma sampleLoop_more_fuel sd P1 V1 V2 P2 :
  forall fuel ns xy points,
    snd (Path.sampleLoop fuel sd P1 V1 V2 P2 ns xy points) <> OutOfFuel ->
    Path.sampleLoop (S fuel) sd P1 V1 V2 P2 ns xy points
    = Path.sampleLoop fuel sd P1 V1 V2 P2 ns xy points.
Proof.
  induction fuel as [| fuel IH]; intros ns xy points H.
  - now contradiction H.
  - cbn [Path.sampleLoop] in H.
    change (Path.sampleLoop (S (S fuel)) sd P1 V1 V2 P2 ns xy points)
      with (if Rlt_dec ns 1
            then
              let xy' := BezierCurves.getBezierPoint ns P1 V1 V2 P2 in
              let points' :=
                points ++ [Point.init (fst xy') (snd xy') Utility.RED] in
              let g := BezierCurves.getBezierGradient ns P1 V1 V2 P2 in
              let h := Utility.hypo (fst g) (snd g) in
              if Req_dec_T h 0 then (points', Raise ZeroDivisionError)
              else Path.sampleLoop (S fuel) sd P1 V1 V2 P2
                     (ns + sd / h) (Some xy') points'
            else (points, Ok xy)).
    cbn [Path.sampleLoop]. cbv zeta in H |- *.
    destruct (Rlt_dec ns 1); [| reflexivity].
    destruct (Req_dec_T _ 0); [reflexivity |].
    now apply IH.
Qed.

Lemma sampleLoop_fuel_enough sd P1 V1 V2 P2 ns xy points :
  forall fuel k,
    snd (Path.sampleLoop fuel sd P1 V1 V2 P2 ns xy points) <> OutOfFuel ->
    Path.sampleLoop (k + fuel) sd P1 V1 V2 P2 ns xy points
    = Path.sampleLoop fuel sd P1 V1 V2 P2 ns xy points.
Proof.
  intros fuel k H. induction k as [| k IH]; [reflexivity |].
  cbn [Nat.add]. rewrite sampleLoop_more_fuel; [exact IH |].
  now rewrite IH.
Qed.

Lemma sampleLoop_terminates sd p1 p2 lo M :
  0 < sd ->
  (forall t, lo <= t < 1 -> segmentSpeed p1 p2 t <= M) ->
  forall fuel ns xy points,
    lo <= ns ->
    (1 - ns) * M < INR fuel * sd ->
    snd (Path.sampleLoop (S fuel) sd (Pose.x p1, Pose.y p1)
           (Pose.forward_x p1, Pose.forward_y p1)
           (Pose.backward_x p2, Pose.backward_y p2)
           (Pose.x p2, Pose.y p2) ns xy points) <> OutOfFuel.
Proof.
  intros Hsd HM. induction fuel as [| fuel IH]; intros ns xy points Hlo Hb.
  - cbn [Path.sampleLoop].
    destruct (Rlt_dec ns 1) as [Hlt | Hge]; [| cbn; discriminate].
    fold (segmentSpeed p1 p2 ns).
    destruct (Req_dec_T (segmentSpeed p1 p2 ns) 0) as [Hz | Hnz];
      [cbn; discriminate |].
    exfalso. pose proof (segmentSpeed_pos _ _ _ Hnz).
    pose proof (HM ns ltac:(lra)). cbn in Hb. nra.
  - change (Path.sampleLoop (S (S fuel)) sd (Pose.x p1, Pose.y p1)
              (Pose.forward_x p1, Pose.forward_y p1)
              (Pose.backward_x p2, Pose.backward_y p2)
              (Pose.x p2, Pose.y p2) ns xy points)
      with (if Rlt_dec ns 1
            then
              let xy' := BezierCurves.getBezierPoint ns
                           (Pose.x p1, Pose.y p1)
                           (Pose.forward_x p1, Pose.forward_y p1)
                           (Pose.backward_x p2, Pose.backward_y p2)
                           (Pose.x p2, Pose.y p2) in
              let points' :=
                points ++ [Point.init (fst xy') (snd xy') Utility.RED] in
              if Req_dec_T (segmentSpeed p1 p2 ns) 0
              then (points', Raise ZeroDivisionError)
              else Path.sampleLoop (S fuel) sd (Pose.x p1, Pose.y p1)
                     (Pose.forward_x p1, Pose.forward_y p1)
                     (Pose.backward_x p2, Pose.backward_y p2)
                     (Pose.x p2, Pose.y p2)
                     (ns + sd / segmentSpeed p1 p2 ns) (Some xy') points'
            else (points, Ok xy)).
    cbv zeta.
    destruct (Rlt_dec ns 1) as [Hlt | Hge]; [| cbn; discriminate].
    destruct (Req_dec_T (segmentSpeed p1 p2 ns) 0) as [Hz | Hnz];
      [cbn; discriminate |].
    pose proof (segmentSpeed_pos _ _ _ Hnz) as Hpos.
    pose proof (HM ns ltac:(lra)) as Hle.
    assert (Hstep : 0 < sd / segmentSpeed p1 p2 ns)
      by now apply Rdiv_lt_0_compat.
    apply IH; [lra |].
    rewrite S_INR in Hb.
    assert (Hq : sd <= sd / segmentSpeed p1 p2 ns * M).
    { unfold Rdiv. rewrite Rmult_assoc.
      rewrite <- (Rmult_1_r sd) at 1.
      apply Rmult_le_compat_l; [lra |].
      rewrite Rmult_comm.
      apply (Rmult_le_reg_r (segmentSpeed p1 p2 ns)); [exact Hpos |].
      rewrite Rmult_assoc, Rinv_l by exact Hnz. lra. }
    nra.
Qed.

Lemma spline_unfold fuel sd poses points i s p1 p2 :
  nth_error poses i = Some p1 ->
  nth_error poses (i + 1) = Some p2 ->
  Path.interpolateSplineCurve fuel sd poses points i s
  = if Req_dec_T s 0
    then finishSpline sd p2 (segmentLoopRun fuel sd p1 p2 0 points)
    else if Req_dec_T (segmentSpeed p1 p2 0) 0
         then (points, Raise ZeroDivisionError)
         else if Rgt_dec (Path.firstAdvance p1 p2 s) 1
              then (points, Ok (Path.firstAdvance p1 p2 s - 1))
              else finishSpline sd p2
                     (segmentLoopRun fuel sd p1 p2
                        (Path.firstAdvance p1 p2 s) points).
Proof.
  intros H1 H2. unfold Path.interpolateSplineCurve. rewrite H1, H2.
  reflexivity.
Qed.

Lemma nat_above (r : R) : exists n : nat, r < INR n.
Proof.
  destruct (archimed r) as [Hup _].
  destruct (Z_lt_le_dec (up r) 0) as [Hneg | Hpos].
  - exists 0%nat. cbn. apply IZR_lt in Hneg. lra.
  - exists (Z.to_nat (up r)). rewrite INR_IZR_INZ, Z2Nat.id by exact Hpos.
    lra.
Qed.

Lemma spline_terminates_bounded :
  forall sd poses points i s p1 p2 M,
    nth_error poses i = Some p1 ->
    nth_error poses (i + 1) = Some p2 ->
    0 < sd ->
    (forall t, startParameter p1 p2 s <= t < 1 -> segmentSpeed p1 p2 t <= M) ->
    exists N, forall fuel,
      (N <= fuel)%nat ->
      snd (Path.interpolateSplineCurve fuel sd poses points i s) <> OutOfFuel
      /\ Path.interpolateSplineCurve fuel sd poses points i s
         = Path.interpolateSplineCurve N sd poses points i s.
Proof.
  intros sd poses points i s p1 p2 M H1 H2 Hsd HM.
  destruct (nat_above ((1 - startParameter p1 p2 s) * M / sd)) as [n Hn].
  assert (Hb : (1 - startParameter p1 p2 s) * M < INR n * sd).
  { apply (Rmult_lt_compat_r sd) in Hn; [| exact Hsd].
    unfold Rdiv in Hn. rewrite Rmult_assoc, Rinv_l, Rmult_1_r in Hn; lra. }
  exists (S n). intros fuel Hfuel.
  replace fuel with ((fuel - S n) + S n)%nat by lia.
  rewrite !(spline_unfold _ _ _ _ _ _ p1 p2 H1 H2).
  unfold startParameter in Hb, HM.
  assert (Hrun : forall ns,
    (forall t, ns <= t < 1 -> segmentSpeed p1 p2 t <= M) ->
    (1 - ns) * M < INR n * sd ->
    snd (finishSpline sd p2
           (segmentLoopRun (fuel - S n + S n) sd p1 p2 ns points))
    <> OutOfFuel
    /\ finishSpline sd p2
         (segmentLoopRun (fuel - S n + S n) sd p1 p2 ns points)
       = finishSpline sd p2 (segmentLoopRun (S n) sd p1 p2 ns points)).
  { intros ns HMns Hns. unfold segmentLoopRun.
    pose proof (sampleLoop_terminates sd p1 p2 ns M Hsd HMns n ns None points
                  ltac:(lra) Hns) as Hterm.
    rewrite (sampleLoop_fuel_enough _ _ _ _ _ _ _ _ (S n) (fuel - S n) Hterm).
    split; [| reflexivity].
    destruct (Path.sampleLoop (S n) sd _ _ _ _ ns None points)
      as [pts [[xy |] | e |]]; cbn; try discriminate.
    now contradiction Hterm. }
  destruct (Req_dec_T s 0) as [Hs | Hs]; [now apply Hrun |].
  destruct (Req_dec_T (segmentSpeed p1 p2 0) 0) as [Hz | Hnz].
  { split; [cbn; discriminate | reflexivity]. }
  destruct (Rgt_dec (Path.firstAdvance p1 p2 s) 1) as [Hgt | Hgt].
  { split; [cbn; discriminate | reflexivity]. }
  now apply Hrun.
Qed.

Lemma bezier_gradient_bound t a b c d U :
  Rabs t <= U -> Rabs (1 - t) <= U ->
  Rabs (BezierCurves.bezier1' t a b c d)
  <= 3 * U * U * (Rabs (b - a) + 2 * Rabs (c - b) + Rabs (d - c)).
Proof.
  intros Ht H1t. unfold BezierCurves.bezier1'.
  pose proof (Rabs_pos t) as Pt. pose proof (Rabs_pos (1 - t)) as P1t.
  pose proof (Rabs_pos (b - a)) as Pa. pose proof (Rabs_pos (c - b)) as Pb.
  pose proof (Rabs_pos (d - c)) as Pc.
  eapply Rle_trans; [apply Rabs_triang |].
  eapply Rle_trans;
    [apply Rplus_le_compat_r; apply Rabs_triang |].
  rewrite !Rabs_mult.
  rewrite (Rabs_right 3) by lra. rewrite (Rabs_right 6) by lra.
  set (p := Rabs (1 - t)) in *. set (q := Rabs t) in *.
  set (A := Rabs (b - a)) in *. set (B := Rabs (c - b)) in *.
  set (C := Rabs (d - c)) in *.
  assert (Hpp : p * p <= U * U) by nra.
  assert (Hpq : p * q <= U * U) by nra.
  assert (Hqq : q * q <= U * U) by nra.
  assert (H1 : 3 * p * p * A <= 3 * (U * U) * A) by nra.
  assert (H2 : 6 * p * q * B <= 6 * (U * U) * B) by nra.
  assert (H3 : 3 * q * q * C <= 3 * (U * U) * C) by nra.
  lra.
Qed.

Lemma hypo_le_sum u v : Utility.hypo u v <= Rabs u + Rabs v.
Proof.
  unfold Utility.hypo.
  pose proof (Rabs_pos u) as Pu. pose proof (Rabs_pos v) as Pv.
  rewrite <- (sqrt_square (Rabs u + Rabs v)) by lra.
  apply sqrt_le_1_alt.
  assert (Hu : u * u = Rabs u * Rabs u).
  { rewrite <- Rabs_mult. symmetry. apply Rabs_right.
    apply Rle_ge, Rle_0_sqr. }
  assert (Hv : v * v = Rabs v * Rabs v).
  { rewrite <- Rabs_mult. symmetry. apply Rabs_right.
    apply Rle_ge, Rle_0_sqr. }
  rewrite Hu, Hv. nra.
Qed.

(** The speed along a segment's curve is bounded on every interval
    [[lo, 1)]. *)
Lemma segmentSpeed_bounded p1 p2 lo :
  exists M, forall t, lo <= t < 1 -> segmentSpeed p1 p2 t <= M.
Proof.
  set (U := Rabs lo + 2).
  exists
    (3 * U * U
       * (Rabs (Pose.x p1 + Pose.forward_x p1 - Pose.x p1)
          + 2 * Rabs (Pose.x p2 + Pose.backward_x p2
                      - (Pose.x p1 + Pose.forward_x p1))
          + Rabs (Pose.x p2 - (Pose.x p2 + Pose.backward_x p2)))
     + 3 * U * U
       * (Rabs (Pose.y p1 + Pose.forward_y p1 - Pose.y p1)
          + 2 * Rabs (Pose.y p2 + Pose.backward_y p2
                      - (Pose.y p1 + Pose.forward_y p1))
          + Rabs (Pose.y p2 - (Pose.y p2 + Pose.backward_y p2)))).
  intros t Ht.
  assert (HU : Rabs t <= U /\ Rabs (1 - t) <= U).
  { unfold U. pose proof (Rabs_pos lo).
    assert (- Rabs lo <= lo).
    { unfold Rabs. destruct (Rcase_abs lo); lra. }
    split; apply Rabs_le; lra. }
  destruct HU as [Ht' H1t].
  unfold segmentSpeed, BezierCurves.getBezierGradient. cbv zeta.
  cbn [fst snd].
  eapply Rle_trans; [apply hypo_le_sum |].
  apply Rplus_le_compat; now apply bezier_gradient_bound.
Qed.

Lemma spline_fuel_bound :
  forall sd poses points i s,
    0 < sd ->
    exists N, forall fuel,
      (N <= fuel)%nat ->
      snd (Path.interpolateSplineCurve fuel sd poses points i s) <> OutOfFuel
      /\ Path.interpolateSplineCurve fuel sd poses points i s
         = Path.interpolateSplineCurve N sd poses points i s.
Proof.
  intros sd poses points i s Hsd.
  destruct (nth_error poses i) as [p1 |] eqn:H1.
  2:{ exists 0%nat. intros fuel _. unfold Path.interpolateSplineCurve.
      rewrite H1. split; [cbn; discriminate | reflexivity]. }
  destruct (nth_error poses (i + 1)) as [p2 |] eqn:H2.
  2:{ exists 0%nat. intros fuel _. unfold Path.interpolateSplineCurve.
      rewrite H1, H2. split; [cbn; discriminate | reflexivity]. }
  destruct (segmentSpeed_bounded p1 p2 (startParameter p1 p2 s)) as [M HM].
  now apply (spline_terminates_bounded sd poses points i s p1 p2 M).
Qed.

(** X2: for a positive sampling distance [interpolateSplineCurve] needs
    only finitely many turns of its loop, on every pose pair and every
    spillover: from some amount of fuel on it never runs out, and its
    result no longer depends on the fuel. *)
Theorem spline_terminates :
  forall sd poses points i s,
    0 < sd ->
    exists N, forall fuel,
      (N <= fuel)%nat ->
      snd (Path.interpolateSplineCurve fuel sd poses points i s) <> OutOfFuel
      /\ Path.interpolateSplineCurve fuel sd poses points i s
         = Path.interpolateSplineCurve N sd poses points i s.
Proof. exact spline_fuel_bound. Qed.

Lemma spline_terminates_witness :
  exists N, forall fuel,
    (N <= fuel)%nat ->
    snd (Path.interpolateSplineCurve fuel 3 [lineA; lineB] [] 0 0)
    <> OutOfFuel
    /\ Path.interpolateSplineCurve fuel 3 [lineA; lineB] [] 0 0
       = Path.interpolateSplineCurve N 3 [lineA; lineB] [] 0 0.
Proof.
  apply (spline_terminates 3 [lineA; lineB] [] 0 0). lra.
Defined.

(** *** Termination of the whole interpolation *)

Lemma py_index_fuel {A} (l : list A) i : py_index l i <> OutOfFuel.
Proof.
  unfold py_index. destruct (py_norm (length l) i <? 0)%Z; [discriminate |].
  destruct (nth_error l _); discriminate.
Qed.

Lemma py_update_fuel {A} (l : list A) i f : py_update l i f <> OutOfFuel.
Proof.
  unfold py_update. pose proof (py_index_fuel l i).
  destruct (py_index l i); cbn; congruence.
Qed.

Lemma thetaInner_fuel i1 th1 i2 th2 :
  forall range points,
    snd (Path.thetaInner range i1 th1 i2 th2 points) <> OutOfFuel.
Proof.
  induction range as [| i range IH]; intros points; cbn [Path.thetaInner].
  - cbn. discriminate.
  - destruct (i2 - i1 =? 0)%Z; [cbn; discriminate |].
    match goal with
    | |- context [py_update ?l ?k ?f] =>
        pose proof (py_update_fuel l k f); destruct (py_update l k f)
    end; [apply IH | cbn; discriminate | congruence].
Qed.

Lemma thetaFill_fuel th :
  forall range points, snd (Path.thetaFill range th points) <> OutOfFuel.
Proof.
  induction range as [| i range IH]; intros points; cbn [Path.thetaFill].
  - cbn. discriminate.
  - pose proof (py_update_fuel points i (Point.set_theta th)).
    destruct (py_update points i (Point.set_theta th));
      [apply IH | cbn; discriminate | congruence].
Qed.

Lemma thetaOuter_fuel :
  forall known i1 th1 points,
    snd (Path.thetaOuter known i1 th1 points) <> OutOfFuel.
Proof.
  induction known as [| [i2 th2] known IH]; intros i1 th1 points;
    cbn [Path.thetaOuter].
  - cbn. discriminate.
  - pose proof (thetaInner_fuel i1 th1 i2 th2 (zrange 0 (i2 - i1 + 1)) points).
    destruct (Path.thetaInner _ i1 th1 i2 th2 points) as [pts [u | e |]];
      [apply IH | cbn; discriminate | now cbn in *].
Qed.

Lemma interpolateTheta_fuel known points :
  snd (Path.interpolateTheta known points) <> OutOfFuel.
Proof.
  unfold Path.interpolateTheta.
  destruct known as [| [i1 th1] known]; [cbn; discriminate |].
  destruct (i1 =? 0)%Z; [| cbn; discriminate].
  pose proof (thetaOuter_fuel known i1 th1 points).
  destruct (Path.thetaOuter known i1 th1 points) as [pts [[il thl] | e |]];
    [apply thetaFill_fuel | cbn; discriminate | now cbn in *].
Qed.

Lemma segmentBody_stable sd poses i s known points :
  0 < sd ->
  exists N, forall fuel,
    (N <= fuel)%nat ->
    snd (Path.segmentBody fuel sd poses i s known points) <> OutOfFuel
    /\ Path.segmentBody fuel sd poses i s known points
       = Path.segmentBody N sd poses i s known points.
Proof.
  intros Hsd.
  destruct (spline_fuel_bound sd poses points i s Hsd) as [N HN].
  exists N. intros fuel Hfuel. destruct (HN fuel Hfuel) as [Hne Heq].
  unfold Path.segmentBody.
  destruct (nth_error poses i) as [p1 |]; [| split; [cbn; discriminate | reflexivity]].
  destruct (nth_error poses (i + 1)) as [p2 |];
    [| split; [cbn; discriminate | reflexivity]].
  destruct (Path.samePosition p1 p2);
    [split; [cbn; discriminate | reflexivity] |].
  rewrite <- Heq. split; [| reflexivity].
  destruct (Path.interpolateSplineCurve fuel sd poses points i s)
    as [pts [s' | e |]]; cbn in *; congruence.
Qed.

Lemma segmentLoop_stable sd poses :
  0 < sd ->
  forall range s known points,
    exists N, forall fuel,
      (N <= fuel)%nat ->
      snd (Path.segmentLoop fuel sd poses range s known points) <> OutOfFuel
      /\ Path.segmentLoop fuel sd poses range s known points
         = Path.segmentLoop N sd poses range s known points.
Proof.
  intros Hsd. induction range as [| i range IH]; intros s known points.
  - exists 0%nat. intros fuel _. cbn. split; [discriminate | reflexivity].
  - destruct (segmentBody_stable sd poses i s known points Hsd) as [N1 H1].
    destruct (Path.segmentBody N1 sd poses i s known points)
      as [pts [[s1 known1] | e |]] eqn:E1.
    + destruct (IH s1 known1 pts) as [N2 H2].
      exists (Nat.max N1 N2). intros fuel Hfuel.
      cbn [Path.segmentLoop].
      destruct (H1 fuel ltac:(lia)) as [_ ->].
      destruct (H1 (Nat.max N1 N2) ltac:(lia)) as [_ ->].
      try rewrite E1.
      destruct (H2 fuel ltac:(lia)) as [Hne ->].
      destruct (H2 (Nat.max N1 N2) ltac:(lia)) as [_ ->].
      split; [| reflexivity].
      destruct (H2 N2 ltac:(lia)) as [Hne2 _]. exact Hne2.
    + exists N1. intros fuel Hfuel. cbn [Path.segmentLoop].
      destruct (H1 fuel Hfuel) as [_ ->]. try rewrite E1.
      split; [cbn; discriminate | reflexivity].
    + exfalso. destruct (H1 N1 ltac:(lia)) as [Hne _].
      try rewrite E1 in Hne. now apply Hne.
Qed.

(** X3: with a positive sampling distance [interpolatePoints] always comes
    to an end, by returning or by raising: from some amount of fuel on it
    never runs out and its outcome no longer depends on the fuel. *)
Theorem interpolatePoints_terminates :
  forall p,
    0 < Path.segmentDistance p ->
    exists N, forall fuel,
      (N <= fuel)%nat ->
      snd (Path.interpolatePoints fuel p) <> OutOfFuel
      /\ Path.interpolatePoints fuel p = Path.interpolatePoints N p.
Proof.
  intros p Hsd.
  destruct (segmentLoop_stable (Path.segmentDistance p) (Path.poses p) Hsd
              (seq 0 (length (Path.poses p) - 1)) 0 [] []) as [N HN].
  exists N. intros fuel Hfuel.
  destruct (HN fuel Hfuel) as [Hne Heq].
  unfold Path.interpolatePoints.
  destruct (length (Path.poses p) <? 2)%nat;
    [split; [cbn; discriminate | reflexivity] |].
  rewrite Heq. rewrite Heq in Hne. split; [| reflexivity].
  destruct (Path.segmentLoop N _ _ _ _ _ _) as [pts [[s known] | e |]];
    [| cbn; discriminate | now cbn in Hne].
  pose proof (py_index_fuel (Path.poses p) (-1)) as Hidx.
  destruct (py_index (Path.poses p) (-1)) as [plast | e |];
    [| cbn; discriminate | congruence].
  destruct (1 <? length (Path.poses p))%nat; [| cbn; discriminate].
  cbn [snd]. apply interpolateTheta_fuel.
Qed.

Lemma interpolatePoints_terminates_witness :
  exists N, forall fuel,
    (N <= fuel)%nat ->
    snd (Path.interpolatePoints fuel (Path.mk [lineA; lineB] [] 3))
    <> OutOfFuel
    /\ Path.interpolatePoints fuel (Path.mk [lineA; lineB] [] 3)
       = Path.interpolatePoints N (Path.mk [lineA; lineB] [] 3).
Proof.
  apply (interpolatePoints_terminates (Path.mk [lineA; lineB] [] 3)).
  cbn. lra.
Defined.

(** *** Where a segment's first point lies *)





(** *** Even spacing on straight segments *)

Lemma map_seq_shift {A} (f : nat -> A) n :
  map f (seq 1 n) = map (fun k => f (S k)) (seq 0 n).
Proof. now rewrite <- seq_shift, map_map. Qed.

Lemma straight_run a b L th1 th2 sd :
  b = a + L -> 0 < L -> 0 < sd ->
  forall fuel ns xy points points' xy',
    ns < 1 ->
    Path.sampleLoop fuel sd
      (Pose.x (straightPose a L th1), Pose.y (straightPose a L th1))
      (Pose.forward_x (straightPose a L th1),
       Pose.forward_y (straightPose a L th1))
      (Pose.backward_x (straightPose b L th2),
       Pose.backward_y (straightPose b L th2))
      (Pose.x (straightPose b L th2), Pose.y (straightPose b L th2))
      ns xy points
    = (points', Ok xy') ->
    exists n,
      points' = points ++ evenlySpaced a (L * ns) sd n
      /\ xy' = Some (a + L * ns + INR n * sd, 0)
      /\ a + L * ns + INR n * sd < a + L <= a + L * ns + INR (S n) * sd.
Proof.
  intros Hb HL Hsd.
  induction fuel as [| fuel IH]; intros ns xy points points' xy' Hns H.
  - discriminate H.
  - rewrite (straight_step fuel sd a b L th1 th2 ns (ns + sd / L)
               (a + L * ns) xy points Hb HL Hns eq_refl eq_refl) in H.
    assert (HLns : L * (ns + sd / L) = L * ns + sd) by (field; lra).
    destruct (Rlt_dec (ns + sd / L) 1) as [Hlt | Hge].
    + apply IH in H; [| exact Hlt].
      destruct H as (n & -> & -> & Hlast).
      exists (S n). rewrite HLns in *. rewrite !S_INR in *.
      split; [| split; [f_equal; f_equal; ring | lra]].
      rewrite <- app_assoc. f_equal.
      unfold evenlySpaced. cbn [seq map app].
      f_equal; [f_equal; cbn; ring |].
      f_equal; [f_equal; cbn; ring |].
      rewrite <- (seq_shift n 1), map_map.
      apply map_ext. intros k. rewrite S_INR. f_equal. ring.
    + destruct fuel as [| fuel]; [discriminate H |].
      rewrite sampleLoop_exit in H by exact Hge.
      injection H as <- <-.
      exists 0%nat. unfold evenlySpaced. cbn [seq map INR].
      split; [f_equal; f_equal; f_equal; ring |].
      split; [f_equal; f_equal; ring |].
      assert (L * ns < L) by nra.
      replace (INR 1) with 1 by reflexivity. nra.
Qed.

Lemma straight_segment_run :
  forall fuel sd poses points i s a L th1 th2 points' s',
    nth_error poses i = Some (straightPose a L th1) ->
    nth_error poses (i + 1) = Some (straightPose (a + L) L th2) ->
    0 < L -> 0 < sd -> 0 <= s < L ->
    Path.interpolateSplineCurve fuel sd poses points i s = (points', Ok s') ->
    exists n,
      points' = points ++ evenlySpaced a s sd n
      /\ s' = sd - (L - (s + INR n * sd))
      /\ 0 <= s' < sd.
Proof.
  intros fuel sd poses points i s a L th1 th2 points' s' H1 H2 HL Hsd Hs H.
  rewrite (spline_unfold _ _ _ _ _ _ _ _ H1 H2) in H.
  assert (Hrun : forall ns,
    L * ns = s -> ns < 1 ->
    finishSpline sd (straightPose (a + L) L th2)
      (segmentLoopRun fuel sd (straightPose a L th1)
         (straightPose (a + L) L th2) ns points) = (points', Ok s') ->
    exists n,
      points' = points ++ evenlySpaced a s sd n
      /\ s' = sd - (L - (s + INR n * sd))
      /\ 0 <= s' < sd).
  { intros ns Hns Hlt Hfin. unfold segmentLoopRun in Hfin.
    destruct (Path.sampleLoop fuel sd _ _ _ _ ns None points)
      as [pts r] eqn:Eloop.
    destruct r as [[xy |] | e |]; try discriminate Hfin.
    apply (straight_run a (a + L) L th1 th2 sd eq_refl HL Hsd) in Eloop;
      [| exact Hlt].
    destruct Eloop as (n & -> & Hxy & Hlast).
    injection Hxy as ->. cbn [finishSpline fst snd] in Hfin.
    change (Pose.x (straightPose (a + L) L th2)) with (a + L) in Hfin.
    change (Pose.y (straightPose (a + L) L th2)) with 0 in Hfin.
    rewrite distance_axis in Hfin by lra.
    injection Hfin as <- <-. rewrite Hns in *.
    exists n. split; [reflexivity |]. rewrite S_INR in Hlast.
    split; [ring | lra]. }
  destruct (Req_dec_T s 0) as [Hz | Hnz].
  - apply (Hrun 0); [subst s; ring | lra | exact H].
  - unfold segmentSpeed in H. cbv zeta in H.
    rewrite (straight_speed a (a + L) L th1 th2 0 eq_refl HL) in H.
    destruct (Req_dec_T L 0) as [E | _]; [lra |].
    rewrite (straight_firstAdvance a (a + L) L th1 th2 s eq_refl HL) in H.
    assert (Hq : s / L < 1).
    { apply (Rmult_lt_reg_r L); [exact HL |].
      unfold Rdiv. rewrite Rmult_assoc, Rinv_l; lra. }
    destruct (Rgt_dec (s / L) 1) as [Hgt | _]; [lra |].
    apply (Hrun (s / L)); [field; lra | exact Hq | exact H].
Qed.

(** X5: on a uniformly traversed straight segment of length L, entered
    with a spillover s in [0, L), a normal return has emitted the points at
    distances s, s + d, ..., s + n*d from the first pose (d the sampling
    distance), the last of them less than d short of the second pose, and
    the spillover returned is d minus what was left of the segment, a
    value in [0, d). *)
Theorem straight_segment_spacing :
  forall fuel sd poses points i s a L th1 th2 points' s',
    nth_error poses i = Some (straightPose a L th1) ->
    nth_error poses (i + 1) = Some (straightPose (a + L) L th2) ->
    0 < L -> 0 < sd -> 0 <= s < L ->
    Path.interpolateSplineCurve fuel sd poses points i s = (points', Ok s') ->
    exists n,
      points' = points ++ evenlySpaced a s sd n
      /\ s' = sd - (L - (s + INR n * sd))
      /\ 0 <= s' < sd.
Proof. exact straight_segment_run. Qed.

Lemma straight_segment_witness :
  exists n,
    [pointAt 0 0; pointAt 3 0] = [] ++ evenlySpaced 0 0 3 n
    /\ 2 = 3 - (4 - (0 + INR n * 3))
    /\ 0 <= 2 < 3.
Proof.
  apply (straight_segment_spacing 3 3 [lineA; lineB] [] 0 0 0 4
           (Some (- (PI / 2))) None).
  - reflexivity.
  - cbn [nth_error Nat.add]. unfold lineB. do 2 f_equal. ring.
  - lra.
  - lra.
  - lra.
  - exact line_spline.
Defined.




(** *** The heading pass, whatever its outcome *)

Lemma py_update_inv {A} (l l' : list A) (i : Z) (f : A -> A) :
  py_update l i f = Ok l' ->
  l' = list_update f (Z.to_nat (py_norm (length l) i)) l.
Proof.
  unfold py_update. intros H. apply bind_Ok in H as (a & _ & H).
  now injection H as <-.
Qed.

Lemma thetaInner_positions i1 th1 i2 th2 :
  forall range points,
    positions (fst (Path.thetaInner range i1 th1 i2 th2 points))
    = positions points.
Proof.
  induction range as [| i range IH]; intros points; cbn [Path.thetaInner].
  - reflexivity.
  - destruct (i2 - i1 =? 0)%Z; [reflexivity |].
    match goal with
    | |- context [py_update ?l ?k ?f] => destruct (py_update l k f) eqn:E
    end; try reflexivity.
    rewrite IH. apply py_update_inv in E. subst a.
    apply positions_set_theta.
Qed.

Lemma thetaFill_positions th :
  forall range points,
    positions (fst (Path.thetaFill range th points)) = positions points.
Proof.
  induction range as [| i range IH]; intros points; cbn [Path.thetaFill].
  - reflexivity.
  - destruct (py_update points i (Point.set_theta th)) eqn:E;
      try reflexivity.
    rewrite IH. apply py_update_inv in E. subst a.
    apply positions_set_theta.
Qed.

Lemma thetaOuter_positions :
  forall known i1 th1 points,
    positions (fst (Path.thetaOuter known i1 th1 points)) = positions points.
Proof.
  induction known as [| [i2 th2] known IH]; intros i1 th1 points;
    cbn [Path.thetaOuter].
  - reflexivity.
  - pose proof (thetaInner_positions i1 th1 i2 th2
                  (zrange 0 (i2 - i1 + 1)) points) as Hin.
    destruct (Path.thetaInner _ i1 th1 i2 th2 points) as [pts [u | e |]];
      cbn [fst] in Hin |- *; try exact Hin.
    now rewrite IH.
Qed.

Lemma heading_pass_positions :
  forall known points,
    positions (fst (Path.interpolateTheta known points)) = positions points
    /\ length (fst (Path.interpolateTheta known points)) = length points.
Proof.
  intros known points.
  assert (H : positions (fst (Path.interpolateTheta known points))
              = positions points).
  { unfold Path.interpolateTheta.
    destruct known as [| [i1 th1] known]; [reflexivity |].
    destruct (i1 =? 0)%Z; [| reflexivity].
    pose proof (thetaOuter_positions known i1 th1 points) as Hout.
    destruct (Path.thetaOuter known i1 th1 points) as [pts [[il thl] | e |]];
      cbn [fst] in Hout |- *; try exact Hout.
    now rewrite thetaFill_positions. }
  split; [exact H | now apply positions_length].
Qed.

(** X7: the heading pass never moves, adds or removes a trajectory point,
    whatever the anchors and however it ends (also when it raises). *)
Theorem interpolateTheta_keeps_positions :
  forall known points,
    positions (fst (Path.interpolateTheta known points)) = positions points
    /\ length (fst (Path.interpolateTheta known points)) = length points.
Proof. exact heading_pass_positions. Qed.

(** *** Headings after a completed interpolation *)

Lemma py_update_nonneg_inv {A} (l l' : list A) (i : Z) (f : A -> A) :
  (0 <= i)%Z ->
  py_update l i f = Ok l' ->
  (i < Z.of_nat (length l))%Z /\ l' = list_update f (Z.to_nat i) l.
Proof.
  intros Hi H. pose proof (py_update_inv _ _ _ _ H) as Hl.
  unfold py_update in H. apply bind_Ok in H as (a & Ha & _).
  apply py_index_nonneg in Ha; [| exact Hi].
  assert (Hlt : (Z.to_nat i < length l)%nat)
    by (apply nth_error_Some; congruence).
  unfold py_norm in Hl. destruct (i <? 0)%Z eqn:E; [lia |].
  split; [lia | exact Hl].
Qed.

Lemma thetaAt_set_kept v k j points :
  (0 <= k)%Z -> (0 <= j)%Z ->
  thetaAt points j <> None ->
  thetaAt (list_update (Point.set_theta v) (Z.to_nat k) points) j <> None.
Proof.
  intros Hk Hj H. destruct (Z.eq_dec k j) as [-> | Hne].
  - unfold thetaAt in *.
    destruct (nth_error points (Z.to_nat j)) as [p |] eqn:E;
      [| now contradiction H].
    rewrite (list_update_nth_same _ _ _ p E). cbn. discriminate.
  - now rewrite thetaAt_set_other.
Qed.

Lemma thetaInner_sets i1 th1 i2 th2 :
  (0 <= i1)%Z ->
  forall range points points',
    (forall i, In i range -> (0 <= i)%Z) ->
    Path.thetaInner range i1 th1 i2 th2 points = (points', Ok tt) ->
    (forall i, In i range -> thetaAt points' (i1 + i) <> None)
    /\ (forall j, (0 <= j)%Z -> thetaAt points j <> None ->
                  thetaAt points' j <> None).
Proof.
  intros H1. induction range as [| i range IH]; intros points points' Hr H.
  - cbn in H. injection H as <-. split; [intros i [] | auto].
  - cbn [Path.thetaInner] in H.
    destruct (i2 - i1 =? 0)%Z; [discriminate H |].
    match type of H with
    | context [py_update ?l ?k ?f] => destruct (py_update l k f) eqn:E
    end; try discriminate H.
    assert (Hi : (0 <= i)%Z) by (apply Hr; now left).
    apply py_update_nonneg_inv in E as [Hlt ->]; [| lia].
    apply IH in H as [Hin Hkeep]; [| intros k Hk; apply Hr; now right].
    split.
    + intros k [<- | Hk]; [| now apply Hin].
      apply Hkeep; [lia |].
      rewrite thetaAt_set_same by lia. discriminate.
    + intros j Hj Hset. apply Hkeep; [exact Hj |].
      apply thetaAt_set_kept; (lia || assumption).
Qed.

Lemma thetaFill_sets th :
  forall range points points',
    (forall i, In i range -> (0 <= i)%Z) ->
    Path.thetaFill range th points = (points', Ok tt) ->
    (forall i, In i range -> thetaAt points' i <> None)
    /\ (forall j, (0 <= j)%Z -> thetaAt points j <> None ->
                  thetaAt points' j <> None).
Proof.
  induction range as [| i range IH]; intros points points' Hr H.
  - cbn in H. injection H as <-. split; [intros i [] | auto].
  - cbn [Path.thetaFill] in H.
    destruct (py_update points i (Point.set_theta th)) eqn:E;
      try discriminate H.
    assert (Hi : (0 <= i)%Z) by (apply Hr; now left).
    apply py_update_nonneg_inv in E as [Hlt ->]; [| lia].
    apply IH in H as [Hin Hkeep]; [| intros k Hk; apply Hr; now right].
    split.
    + intros k [<- | Hk]; [| now apply Hin].
      apply Hkeep; [lia |].
      rewrite thetaAt_set_same by lia. discriminate.
    + intros j Hj Hset. apply Hkeep; [exact Hj |].
      apply thetaAt_set_kept; (lia || assumption).
Qed.

Lemma thetaOuter_covers :
  forall known i1 th1 points points' il thl m,
    Forall (fun a => (0 <= fst a)%Z) known ->
    (0 <= i1 <= m)%Z ->
    (forall j, (0 <= j < m)%Z -> thetaAt points j <> None) ->
    Path.thetaOuter known i1 th1 points = (points', Ok (il, thl)) ->
    exists m',
      (0 <= il <= m')%Z
      /\ forall j, (0 <= j < m')%Z -> thetaAt points' j <> None.
Proof.
  induction known as [| [i2 th2] known IH];
    intros i1 th1 points points' il thl m Hnn Hm Hcov H.
  - cbn in H. injection H as <- <- <-. now exists m.
  - cbn [Path.thetaOuter] in H.
    inversion Hnn as [| a l Hi2 Hrest]; subst. cbn [fst] in Hi2.
    destruct (Path.thetaInner (zrange 0 (i2 - i1 + 1)) i1 th1 i2 th2 points)
      as [pts [[] | e |]] eqn:Ein; try discriminate H.
    apply thetaInner_sets in Ein as [Hin Hkeep]; [| lia |].
    2:{ intros i Hi. apply zrange_In in Hi. lia. }
    apply (IH i2 th2 pts points' il thl (Z.max m (i2 + 1)) Hrest) in H;
      [exact H | lia |].
    intros j Hj. destruct (Z_lt_le_dec j m) as [Hlt | Hge].
    + apply Hkeep; [lia |]. apply Hcov. lia.
    + replace j with (i1 + (j - i1))%Z by lia.
      apply Hin. apply zrange_In. lia.
Qed.

Lemma interpolateTheta_sets known points points' :
  Forall (fun a => (0 <= fst a)%Z) known ->
  Path.interpolateTheta known points = (points', Ok tt) ->
  headingsSet points'.
Proof.
  intros Hnn H. unfold Path.interpolateTheta in H.
  destruct known as [| [i1 th1] known]; [discriminate H |].
  destruct (i1 =? 0)%Z eqn:E0; [| discriminate H].
  apply Z.eqb_eq in E0. subst i1.
  inversion Hnn as [| a l _ Hrest]; subst.
  destruct (Path.thetaOuter known 0 th1 points) as [pts [[il thl] | e |]]
    eqn:Eout; try discriminate H.
  apply (thetaOuter_covers known 0%Z th1 points pts il thl 0%Z Hrest) in Eout;
    [| lia | intros j Hj; lia].
  destruct Eout as (m & Hm & Hcov).
  pose proof (thetaFill_positions thl (zrange il (Z.of_nat (length pts))) pts)
    as Hpos.
  rewrite H in Hpos. cbn [fst] in Hpos. apply positions_length in Hpos.
  apply thetaFill_sets in H as [Hin Hkeep].
  2:{ intros i Hi. apply zrange_In in Hi. lia. }
  apply Forall_forall. intros p Hp.
  apply In_nth_error in Hp as [n Hn].
  assert (Hlt : (n < length points')%nat)
    by (apply nth_error_Some; congruence).
  assert (Hset : thetaAt points' (Z.of_nat n) <> None).
  { destruct (Z_lt_le_dec (Z.of_nat n) il) as [Hl | Hg].
    - apply Hkeep; [lia |]. apply Hcov. lia.
    - apply Hin. apply zrange_In. lia. }
  unfold thetaAt in Hset. now rewrite Nat2Z.id, Hn in Hset.
Qed.

Lemma segmentBody_anchors fuel sd poses i s known points points' s' known' :
  Forall (fun a => (0 <= fst a)%Z) known ->
  Path.segmentBody fuel sd poses i s known points
  = (points', Ok (s', known')) ->
  Forall (fun a => (0 <= fst a)%Z) known'.
Proof.
  intros Hnn. unfold Path.segmentBody.
  destruct (nth_error poses i) as [p1 |]; [| discriminate].
  destruct (nth_error poses (i + 1)) as [p2 |]; [| discriminate].
  destruct (Path.samePosition p1 p2); [now intros [= _ _ <-] |].
  destruct (Path.interpolateSplineCurve fuel sd poses points i s)
    as [pts [s0 | e |]]; try discriminate.
  intros [= _ _ <-].
  destruct (Pose.theta p1) as [th |]; [| exact Hnn].
  apply Forall_app. split; [exact Hnn |].
  constructor; [cbn; lia | constructor].
Qed.

Lemma segmentLoop_anchors fuel sd poses :
  forall range s known points points' s' known',
    Forall (fun a => (0 <= fst a)%Z) known ->
    Path.segmentLoop fuel sd poses range s known points
    = (points', Ok (s', known')) ->
    Forall (fun a => (0 <= fst a)%Z) known'.
Proof.
  induction range as [| i range IH];
    intros s known points points' s' known' Hnn H.
  - cbn in H. now injection H as _ _ <-.
  - cbn [Path.segmentLoop] in H.
    destruct (Path.segmentBody fuel sd poses i s known points)
      as [pts [[s1 known1] | e |]] eqn:Eb; try discriminate H.
    apply segmentBody_anchors in Eb; [| exact Hnn].
    now apply (IH _ _ _ _ _ _ Eb H).
Qed.

Lemma headings_after_interpolation :
  forall fuel p p',
    Path.interpolatePoints fuel p = (p', Ok tt) ->
    headingsSet (Path.points p').
Proof.
  intros fuel p p' H. unfold Path.interpolatePoints in H.
  destruct (length (Path.poses p) <? 2)%nat eqn:E2.
  { injection H as <-. constructor. }
  apply Nat.ltb_ge in E2.
  destruct (Path.segmentLoop fuel _ _ _ _ _ _) as [pts [[s known] | e |]]
    eqn:Eloop; try discriminate H.
  apply segmentLoop_anchors in Eloop; [| constructor].
  destruct (py_index (Path.poses p) (-1)) as [plast | e |];
    try discriminate H.
  destruct (1 <? length (Path.poses p))%nat eqn:E1;
    [| apply Nat.ltb_ge in E1; lia].
  match type of H with
  | (Path.with_points p (fst (Path.interpolateTheta ?k pts)), _) = _ =>
      set (known' := k) in *
  end.
  destruct (Path.interpolateTheta known' pts) as [pts' r] eqn:Eth.
  cbn [fst snd] in H. injection H as <- ->. cbn [Path.points Path.with_points].
  destruct pts as [| q pts].
  - pose proof (heading_pass_positions known' []) as [_ Hlen].
    rewrite Eth in Hlen. cbn in Hlen.
    destruct pts'; [constructor | discriminate Hlen].
  - apply (interpolateTheta_sets known' (q :: pts)); [| exact Eth].
    unfold known'. destruct (Pose.theta plast) as [th |]; [| exact Eloop].
    apply Forall_app. split; [exact Eloop |].
    constructor; [cbn [fst length]; lia | constructor].
Qed.

(** X8: when [interpolatePoints] returns normally, every point of the
    trajectory it leaves carries a heading. *)
Theorem interpolatePoints_sets_headings :
  forall fuel p p',
    Path.interpolatePoints fuel p = (p', Ok tt) ->
    headingsSet (Path.points p').
Proof. exact headings_after_interpolation. Qed.

Lemma line_interpolate :
  Path.interpolatePoints 3 (Path.mk [lineA; lineB] [] 3)
  = (Path.mk [lineA; lineB]
       [Point.mk 0 0 Utility.RED (Some (- (PI / 2))) None;
        Point.mk 3 0 Utility.RED (Some (- (PI / 2))) None] 3,
     Ok tt).
Proof.
  unfold Path.interpolatePoints.
  cbn [Path.poses Path.segmentDistance length Nat.ltb Nat.leb Nat.sub seq
       Path.segmentLoop].
  rewrite line_segmentBody. reflexivity.
Qed.

Lemma interpolatePoints_headings_witness :
  headingsSet
    (Path.points
       (Path.mk [lineA; lineB]
          [Point.mk 0 0 Utility.RED (Some (- (PI / 2))) None;
           Point.mk 3 0 Utility.RED (Some (- (PI / 2))) None] 3)).
Proof.
  apply (interpolatePoints_sets_headings 3 (Path.mk [lineA; lineB] [] 3)).
  exact line_interpolate.
Defined.

(* ================================================================== *)
(** ** Further properties of the robots *)

(** *** Starting a simulation *)

Lemma headingsSet_thetas a b :
  map Point.theta a = map Point.theta b -> headingsSet b -> headingsSet a.
Proof.
  unfold headingsSet. intros Hmap Hb.
  apply (Forall_map Point.theta (fun o => o <> None)).
  rewrite Hmap. now apply Forall_map.
Qed.

Lemma ideal_start :
  forall fuel rng self points,
    Robot.kind self = Robot.IdealRobot ->
    (1 <= length points)%nat ->
    headingsSet points ->
    exists sim points',
      GenericRobot.startSimulation fuel rng self points
      = (Robot.mk (Robot.width self) (Robot.length self) (Some sim)
           (Robot.kind self),
         points', Ok (length points))
      /\ length sim = length points
      /\ positions points' = positions points
      /\ map Point.theta points' = map Point.theta points.
Proof.
  intros fuel rng self points Hkind Hlen Hset.
  destruct (curvature_spec points Hlen) as (points' & Hrun & Hpos & Hth & _).
  destruct (ideal_trace points' (headingsSet_thetas _ _ Hth Hset))
    as (sim & Hsim & Hlsim & _).
  exists sim, points'.
  unfold GenericRobot.startSimulation, GenericRobot.computeSimulation.
  rewrite Hrun, Hkind, Hsim.
  pose proof (positions_length _ _ Hpos) as Hl.
  rewrite Hlsim, Hl. repeat split; assumption.
Qed.

(** X9: an ideal robot started on a non-empty trajectory whose points all
    carry a heading stores a simulation with one state per trajectory
    point and returns the number of trajectory points; the trajectory
    keeps its positions and headings. *)
Theorem startSimulation_ideal :
  forall fuel rng self points,
    Robot.kind self = Robot.IdealRobot ->
    (1 <= length points)%nat ->
    headingsSet points ->
    exists sim points',
      GenericRobot.startSimulation fuel rng self points
      = (Robot.mk (Robot.width self) (Robot.length self) (Some sim)
           (Robot.kind self),
         points', Ok (length points))
      /\ length sim = length points
      /\ positions points' = positions points
      /\ map Point.theta points' = map Point.theta points.
Proof. exact ideal_start. Qed.

Lemma startSimulation_ideal_witness :
  exists sim points',
    GenericRobot.startSimulation 1 noNoise idealRobot idealPoints
    = (Robot.mk (Robot.width idealRobot) (Robot.length idealRobot) (Some sim)
         (Robot.kind idealRobot),
       points', Ok (length idealPoints))
    /\ length sim = length idealPoints
    /\ positions points' = positions idealPoints
    /\ map Point.theta points' = map Point.theta idealPoints.
Proof.
  apply (startSimulation_ideal 1 noNoise idealRobot idealPoints).
  - reflexivity.
  - cbn. lia.
  - constructor; [discriminate | constructor].
Defined.

(** X10: the interpolator and the ideal robot fit together: whenever
    [interpolatePoints] returns normally with a non-empty trajectory, an
    ideal robot started on that trajectory returns the number of its
    points, without raising. *)
Theorem ideal_run_after_interpolation :
  forall fuel fuel' rng self p p',
    Robot.kind self = Robot.IdealRobot ->
    Path.interpolatePoints fuel p = (p', Ok tt) ->
    (1 <= length (Path.points p'))%nat ->
    snd (GenericRobot.startSimulation fuel' rng self (Path.points p'))
    = Ok (length (Path.points p')).
Proof.
  intros fuel fuel' rng self p p' Hkind Hrun Hlen.
  apply headings_after_interpolation in Hrun.
  destruct (ideal_start fuel' rng self (Path.points p')
              Hkind Hlen Hrun) as (sim & points' & -> & _).
  reflexivity.
Qed.

Lemma ideal_run_witness :
  snd (GenericRobot.startSimulation 1 noNoise idealRobot
         (Path.points
            (Path.mk [lineA; lineB]
               [Point.mk 0 0 Utility.RED (Some (- (PI / 2))) None;
                Point.mk 3 0 Utility.RED (Some (- (PI / 2))) None] 3)))
  = Ok (length
          (Path.points
             (Path.mk [lineA; lineB]
                [Point.mk 0 0 Utility.RED (Some (- (PI / 2))) None;
                 Point.mk 3 0 Utility.RED (Some (- (PI / 2))) None] 3))).
Proof.
  apply (ideal_run_after_interpolation 3 1 noNoise idealRobot
           (Path.mk [lineA; lineB] [] 3)).
  - reflexivity.
  - exact line_interpolate.
  - cbn. lia.
Defined.

(** *** The values of the curvature pass *)

Lemma curveAngle_range pm p pp :
  - (2 * PI) < Robot.curveAngle pm p pp <= PI.
Proof.
  pose proof PI_RGT_0 as Hpi.
  pose proof (chordTurn_range pm p pp) as Hc.
  unfold Robot.curveAngle. cbv zeta. fold (chordTurn pm p pp).
  destruct (Rgt_dec (chordTurn pm p pp) PI); lra.
Qed.

Lemma curvature_nonempty points points' :
  Robot.curvature points = Ok points' -> (1 <= length points)%nat.
Proof.
  destruct points; [discriminate | cbn; lia].
Qed.

(** X11: after the curvature pass has run, every trajectory point has a
    curvature, and it lies between 0 (included) and 2 PI (excluded). *)
Theorem curvature_values :
  forall points points' n,
    Robot.curvature points = Ok points' ->
    (n < length points)%nat ->
    exists c, curveAt points' n = Some c /\ 0 <= c < 2 * PI.
Proof.
  intros points points' n Hrun Hn. pose proof PI_RGT_0 as Hpi.
  pose proof (curvature_nonempty _ _ Hrun) as Hlen.
  destruct (curvature_spec points Hlen) as (pts & Hrun' & Hpos & _ & Hc).
  rewrite Hrun in Hrun'. injection Hrun' as <-.
  rewrite (Hc n Hn).
  destruct ((n =? 0)%nat || (n =? length points - 1)%nat) eqn:E.
  - exists 0. split; [reflexivity | lra].
  - apply orb_false_iff in E as [E0 El].
    apply Nat.eqb_neq in E0. apply Nat.eqb_neq in El.
    unfold interiorCurve.
    assert (Hlp : length (positions points) = length points)
      by apply length_map.
    destruct (nth_error (positions points) (n - 1)) as [pm |] eqn:Em;
      [| apply nth_error_None in Em; lia].
    destruct (nth_error (positions points) n) as [p |] eqn:Ep;
      [| apply nth_error_None in Ep; lia].
    destruct (nth_error (positions points) (n + 1)) as [pp |] eqn:Epp;
      [| apply nth_error_None in Epp; lia].
    eexists. split; [reflexivity |].
    pose proof (curveAngle_range pm p pp) as Hr.
    split; [apply Rabs_pos |]. apply Rabs_def1; lra.
Qed.

Lemma corner_curvature :
  Robot.curvature cornerPoints
  = Ok [Point.set_curve 0 (pointAt 0 0);
        Point.set_curve
          (Rabs (Robot.curveAngle (0, 0) (1, 0) (1, 1))) (pointAt 1 0);
        Point.set_curve 0 (pointAt 1 1)].
Proof. reflexivity. Qed.

Lemma curvature_values_witness :
  exists c,
    curveAt [Point.set_curve 0 (pointAt 0 0);
             Point.set_curve
               (Rabs (Robot.curveAngle (0, 0) (1, 0) (1, 1))) (pointAt 1 0);
             Point.set_curve 0 (pointAt 1 1)] 1 = Some c
    /\ 0 <= c < 2 * PI.
Proof.
  apply (curvature_values cornerPoints _ 1%nat).
  - exact corner_curvature.
  - cbn. lia.
Defined.

Lemma atan2_scale k y x : 0 < k -> atan2 (k * y) (k * x) = atan2 y x.
Proof.
  intros Hk. unfold atan2.
  destruct (Rlt_dec 0 x) as [Hx | Hx].
  - destruct (Rlt_dec 0 (k * x)) as [_ | N]; [| exfalso; nra].
    f_equal. field. lra.
  - destruct (Rlt_dec 0 (k * x)) as [N | _]; [exfalso; nra |].
    destruct (Rlt_dec x 0) as [Hx' | Hx'].
    + destruct (Rlt_dec (k * x) 0) as [_ | N]; [| exfalso; nra].
      replace (k * y / (k * x)) with (y / x) by (field; lra).
      destruct (Rle_dec 0 y) as [Hy | Hy].
      * destruct (Rle_dec 0 (k * y)) as [_ | N]; [reflexivity | exfalso; nra].
      * destruct (Rle_dec 0 (k * y)) as [N | _]; [exfalso; nra | reflexivity].
    + destruct (Rlt_dec (k * x) 0) as [N | _]; [exfalso; nra |].
      destruct (Rlt_dec 0 y) as [Hy | Hy].
      * destruct (Rlt_dec 0 (k * y)) as [_ | N]; [reflexivity | exfalso; nra].
      * destruct (Rlt_dec 0 (k * y)) as [N | _]; [exfalso; nra |].
        destruct (Rlt_dec y 0) as [Hy' | Hy'].
        -- destruct (Rlt_dec (k * y) 0) as [_ | N];
             [reflexivity | exfalso; nra].
        -- destruct (Rlt_dec (k * y) 0) as [N | _];
             [exfalso; nra | reflexivity].
Qed.

(** X12: on a trajectory whose points advance along one straight line,
    always in the same direction, the curvature pass stores 0 at every
    point. *)
Theorem curvature_straight_line :
  forall points x0 y0 dx dy (t : nat -> R),
    (1 <= length points)%nat ->
    (forall n p, nth_error (positions points) n = Some p ->
                 p = (x0 + t n * dx, y0 + t n * dy)) ->
    (forall n, t n < t (S n)) ->
    exists points',
      Robot.curvature points = Ok points'
      /\ forall n, (n < length points)%nat -> curveAt points' n = Some 0.
Proof.
  intros points x0 y0 dx dy t Hlen Hline Hinc. pose proof PI_RGT_0 as Hpi.
  destruct (curvature_spec points Hlen) as (points' & Hrun & _ & _ & Hc).
  exists points'. split; [exact Hrun |].
  intros n Hn. rewrite (Hc n Hn).
  destruct ((n =? 0)%nat || (n =? length points - 1)%nat) eqn:E;
    [reflexivity |].
  apply orb_false_iff in E as [E0 El].
  apply Nat.eqb_neq in E0. apply Nat.eqb_neq in El.
  unfold interiorCurve.
  assert (Hlp : length (positions points) = length points)
    by apply length_map.
  destruct (nth_error (positions points) (n - 1)) as [pm |] eqn:Em;
    [| apply nth_error_None in Em; lia].
  destruct (nth_error (positions points) n) as [p |] eqn:Ep;
    [| apply nth_error_None in Ep; lia].
  destruct (nth_error (positions points) (n + 1)) as [pp |] eqn:Epp;
    [| apply nth_error_None in Epp; lia].
  apply Hline in Em, Ep, Epp. subst pm p pp.
  pose proof (Hinc (n - 1)%nat) as H1. pose proof (Hinc n) as H2.
  replace (S (n - 1)) with n in H1 by lia.
  replace (S n) with (n + 1)%nat in H2 by lia.
  f_equal. unfold Robot.curveAngle. cbv zeta. cbn [fst snd].
  replace (y0 + t (n + 1)%nat * dy - (y0 + t (n - 1)%nat * dy))
    with ((t (n + 1)%nat - t (n - 1)%nat) * dy) by ring.
  replace (x0 + t (n + 1)%nat * dx - (x0 + t (n - 1)%nat * dx))
    with ((t (n + 1)%nat - t (n - 1)%nat) * dx) by ring.
  replace (y0 + t n * dy - (y0 + t (n - 1)%nat * dy))
    with ((t n - t (n - 1)%nat) * dy) by ring.
  replace (x0 + t n * dx - (x0 + t (n - 1)%nat * dx))
    with ((t n - t (n - 1)%nat) * dx) by ring.
  rewrite !atan2_scale by lra.
  replace (atan2 dy dx - atan2 dy dx) with 0 by ring.
  destruct (Rgt_dec 0 PI) as [N | _]; [lra |].
  apply Rabs_R0.
Qed.

Lemma curvature_straight_witness :
  exists points',
    Robot.curvature headingPoints = Ok points'
    /\ forall n, (n < length headingPoints)%nat -> curveAt points' n = Some 0.
Proof.
  apply (curvature_straight_line headingPoints 0 0 1 0 INR).
  - cbn. lia.
  - intros [| [| [| n]]] p H; cbn in H;
      try (destruct n; discriminate H);
      injection H as <-; f_equal; cbn; ring.
  - intros n. rewrite S_INR. lra.
Defined.

(** *** One turn of the pursuit loop *)

Lemma step_shape lookahead rng points st st' :
  PurePursuitRobot.step lookahead rng points st = Ok st' ->
  exists tx ty tt cx cy lx ly curve,
    PurePursuitRobot.timestep st' = (PurePursuitRobot.timestep st + 1)%Z
    /\ PurePursuitRobot.draws st' = S (S (PurePursuitRobot.draws st))
    /\ PurePursuitRobot.xvel st'
       = PurePursuitRobot.xvel st
         + Utility.clamp (tx - PurePursuitRobot.xvel st)
             (- MAX_TRANS_ACCEL) MAX_TRANS_ACCEL
    /\ PurePursuitRobot.yvel st'
       = PurePursuitRobot.yvel st
         + Utility.clamp (ty - PurePursuitRobot.yvel st)
             (- MAX_TRANS_ACCEL) MAX_TRANS_ACCEL
    /\ PurePursuitRobot.tvel st'
       = PurePursuitRobot.tvel st
         + Utility.clamp (tt - PurePursuitRobot.tvel st)
             (- MAX_ROT_ACCEL) MAX_ROT_ACCEL
    /\ PurePursuitRobot.x st'
       = PurePursuitRobot.x st
         + (PurePursuitRobot.xvel st' * STEP_TIME
            + rng (PurePursuitRobot.draws st))
    /\ PurePursuitRobot.y st'
       = PurePursuitRobot.y st
         + (PurePursuitRobot.yvel st' * STEP_TIME
            + rng (S (PurePursuitRobot.draws st)))
    /\ PurePursuitRobot.theta st'
       = PurePursuitRobot.theta st + PurePursuitRobot.tvel st' * STEP_TIME
    /\ PurePursuitRobot.simulation st'
       = PurePursuitRobot.simulation st
         ++ [SimulationPoint.mk (PurePursuitRobot.x st')
               (PurePursuitRobot.y st') (PurePursuitRobot.theta st')
               [("xvel"%string, PurePursuitRobot.xvel st');
                ("yvel"%string, PurePursuitRobot.yvel st');
                ("tvel"%string, PurePursuitRobot.tvel st');
                ("cx"%string, cx); ("cy"%string, cy);
                ("lx"%string, lx); ("ly"%string, ly);
                ("curve"%string, curve)]].
Proof.
  unfold PurePursuitRobot.step. intros H.
  apply bind_Ok in H as (ci' & _ & H).
  apply bind_Ok in H as (li' & _ & H).
  apply bind_Ok in H as (pl & _ & H).
  destruct (Req_dec_T _ 0) as [_ | _]; [discriminate H |].
  apply bind_Ok in H as (thl & _ & H).
  apply bind_Ok in H as (pc & _ & H).
  apply bind_Ok in H as (curve & _ & H).
  injection H as <-. cbn.
  eexists _, _, _, _, _, _, _, _. repeat split; reflexivity.
Qed.

Lemma clamp_bound v A : 0 <= A -> Rabs (Utility.clamp v (- A) A) <= A.
Proof.
  intros HA. unfold Utility.clamp. apply Rabs_le. split.
  - apply Rmax_l.
  - apply Rmax_lub; [lra | apply Rmin_r].
Qed.

(** X13: in one turn of the pursuit loop each linear velocity component
    changes by at most [MAX_TRANS_ACCEL] and the angular velocity by at
    most [MAX_ROT_ACCEL]; the position moves by the new velocity times
    [STEP_TIME] plus the noise drawn for that axis, and the heading by the
    new angular velocity times [STEP_TIME], without noise. *)
Theorem pursuit_step_limits :
  forall lookahead rng points st st',
    PurePursuitRobot.step lookahead rng points st = Ok st' ->
    Rabs (PurePursuitRobot.xvel st' - PurePursuitRobot.xvel st)
    <= MAX_TRANS_ACCEL
    /\ Rabs (PurePursuitRobot.yvel st' - PurePursuitRobot.yvel st)
       <= MAX_TRANS_ACCEL
    /\ Rabs (PurePursuitRobot.tvel st' - PurePursuitRobot.tvel st)
       <= MAX_ROT_ACCEL
    /\ PurePursuitRobot.x st' - PurePursuitRobot.x st
       = PurePursuitRobot.xvel st' * STEP_TIME
         + rng (PurePursuitRobot.draws st)
    /\ PurePursuitRobot.y st' - PurePursuitRobot.y st
       = PurePursuitRobot.yvel st' * STEP_TIME
         + rng (S (PurePursuitRobot.draws st))
    /\ PurePursuitRobot.theta st' - PurePursuitRobot.theta st
       = PurePursuitRobot.tvel st' * STEP_TIME.
Proof.
  intros lookahead rng points st st' H.
  apply step_shape in H
    as (tx & ty & tt & cx & cy & lx & ly & curve & _ & _ & Hx & Hy & Ht
        & Hpx & Hpy & Hpt & _).
  assert (HA : 0 <= MAX_TRANS_ACCEL) by (unfold MAX_TRANS_ACCEL; lra).
  assert (HB : 0 <= MAX_ROT_ACCEL) by (unfold MAX_ROT_ACCEL; lra).
  repeat split.
  - rewrite Hx. match goal with |- Rabs ?e <= _ =>
      replace e with (Utility.clamp (tx - PurePursuitRobot.xvel st)
                        (- MAX_TRANS_ACCEL) MAX_TRANS_ACCEL) by ring end.
    now apply clamp_bound.
  - rewrite Hy. match goal with |- Rabs ?e <= _ =>
      replace e with (Utility.clamp (ty - PurePursuitRobot.yvel st)
                        (- MAX_TRANS_ACCEL) MAX_TRANS_ACCEL) by ring end.
    now apply clamp_bound.
  - rewrite Ht. match goal with |- Rabs ?e <= _ =>
      replace e with (Utility.clamp (tt - PurePursuitRobot.tvel st)
                        (- MAX_ROT_ACCEL) MAX_ROT_ACCEL) by ring end.
    now apply clamp_bound.
  - rewrite Hpx. ring.
  - rewrite Hpy. ring.
  - rewrite Hpt. ring.
Qed.

Lemma pursuit_step_witness :
  exists st1,
    PurePursuitRobot.step 30 noNoise trackPoints trackStart = Ok st1
    /\ Rabs (PurePursuitRobot.xvel st1 - PurePursuitRobot.xvel trackStart)
       <= MAX_TRANS_ACCEL
    /\ Rabs (PurePursuitRobot.yvel st1 - PurePursuitRobot.yvel trackStart)
       <= MAX_TRANS_ACCEL
    /\ Rabs (PurePursuitRobot.tvel st1 - PurePursuitRobot.tvel trackStart)
       <= MAX_ROT_ACCEL
    /\ PurePursuitRobot.x st1 - PurePursuitRobot.x trackStart
       = PurePursuitRobot.xvel st1 * STEP_TIME
         + noNoise (PurePursuitRobot.draws trackStart)
    /\ PurePursuitRobot.y st1 - PurePursuitRobot.y trackStart
       = PurePursuitRobot.yvel st1 * STEP_TIME
         + noNoise (S (PurePursuitRobot.draws trackStart))
    /\ PurePursuitRobot.theta st1 - PurePursuitRobot.theta trackStart
       = PurePursuitRobot.tvel st1 * STEP_TIME.
Proof.
  destruct track_step as [st1 Hstep].
  exists st1. split; [exact Hstep |].
  exact (pursuit_step_limits 30 noNoise trackPoints trackStart st1 Hstep).
Defined.

(** *** The closest index over a run *)

Lemma step_ci lookahead rng points st st' :
  PurePursuitRobot.step lookahead rng points st = Ok st' ->
  PurePursuitRobot.findClosestPoint points (PurePursuitRobot.x st)
    (PurePursuitRobot.y st) (PurePursuitRobot.ci st)
    (PurePursuitRobot.ci st + 30)
  = Ok (PurePursuitRobot.ci st').
Proof.
  unfold PurePursuitRobot.step. intros H.
  apply bind_Ok in H as (ci' & Hci & H).
  apply bind_Ok in H as (li' & _ & H).
  apply bind_Ok in H as (pl & _ & H).
  destruct (Req_dec_T _ 0) as [_ | _]; [discriminate H |].
  apply bind_Ok in H as (thl & _ & H).
  apply bind_Ok in H as (pc & _ & H).
  apply bind_Ok in H as (curve & _ & H).
  injection H as <-. exact Hci.
Qed.

Lemma reachable_ci lookahead rng points st st' :
  reachable lookahead rng points st st' ->
  (0 <= PurePursuitRobot.ci st <= Z.max 0 (Z.of_nat (length points) - 2))%Z ->
  (PurePursuitRobot.ci st <= PurePursuitRobot.ci st'
   <= Z.max 0 (Z.of_nat (length points) - 2))%Z.
Proof.
  induction 1 as [st | st st' st'' Hr IH Hrun Ht Hstep]; intros Hb.
  - lia.
  - specialize (IH Hb). apply step_ci in Hstep.
    apply findClosestPoint_window in Hstep. lia.
Qed.

(** X14: over a run of the pursuit simulation the closest index starts at
    0, never decreases, and stays at most [len(points) - 2] (at 0 on a
    one-point trajectory): on two or more points it never reaches the last
    index. *)
Theorem pursuit_closest_index :
  forall lookahead rng points st0 st st',
    PurePursuitRobot.initial rng points = Ok st0 ->
    reachable lookahead rng points st0 st ->
    reachable lookahead rng points st st' ->
    (0 <= PurePursuitRobot.ci st <= PurePursuitRobot.ci st')%Z
    /\ (PurePursuitRobot.ci st' <= Z.max 0 (Z.of_nat (length points) - 2))%Z.
Proof.
  intros lookahead rng points st0 st st' Hinit H0 H1.
  assert (Hci : PurePursuitRobot.ci st0 = 0%Z).
  { unfold PurePursuitRobot.initial in Hinit.
    apply bind_Ok in Hinit as (p0 & _ & Hinit).
    apply bind_Ok in Hinit as (th & _ & Hinit).
    now injection Hinit as <-. }
  pose proof (reachable_ci _ _ _ _ _ H0 ltac:(lia)) as Hst.
  pose proof (reachable_ci _ _ _ _ _ H1 ltac:(lia)) as Hst'.
  lia.
Qed.

Lemma pursuit_closest_witness :
  exists st1,
    reachable 30 noNoise trackPoints trackStart st1
    /\ (0 <= PurePursuitRobot.ci trackStart <= PurePursuitRobot.ci st1)%Z
    /\ (PurePursuitRobot.ci st1
        <= Z.max 0 (Z.of_nat (length trackPoints) - 2))%Z.
Proof.
  destruct track_step as [st1 Hstep].
  assert (Hr : reachable 30 noNoise trackPoints trackStart st1).
  { apply (reach_turn _ _ _ trackStart trackStart st1).
    - constructor.
    - reflexivity.
    - reflexivity.
    - exact Hstep. }
  exists st1. split; [exact Hr |].
  apply (pursuit_closest_index 30 noNoise trackPoints trackStart trackStart st1).
  - exact track_initial.
  - constructor.
  - exact Hr.
Defined.

(** *** The lookahead point *)

Lemma advanceLookahead_stop lookahead points ci :
  (0 <= ci)%Z ->
  forall n li li',
    PurePursuitRobot.advanceLookahead n lookahead points ci li = Ok li' ->
    (0 <= li)%Z ->
    (Z.of_nat (length points) - 1 - li <= Z.of_nat n)%Z ->
    (Z.of_nat (length points) - 1 <= li')%Z
    \/ exists pl pc,
         nth_error points (Z.to_nat li') = Some pl
         /\ nth_error points (Z.to_nat ci) = Some pc
         /\ lookahead <= Utility.distance (Point.x pl) (Point.y pl)
                           (Point.x pc) (Point.y pc).
Proof.
  intros Hci.
  induction n as [| n IH]; intros li li' H Hli Hn.
  - cbn in H. injection H as <-. left. lia.
  - cbn [PurePursuitRobot.advanceLookahead] in H.
    destruct (li <? Z.of_nat (length points) - 1)%Z eqn:E.
    + apply bind_Ok in H as (pl & Hpl & H).
      apply bind_Ok in H as (pc & Hpc & H).
      apply py_index_nonneg in Hpl; [| exact Hli].
      apply py_index_nonneg in Hpc; [| exact Hci].
      destruct (Rlt_dec _ lookahead) as [Hlt | Hge].
      * apply (IH _ _ H); lia.
      * injection H as <-. right. exists pl, pc.
        split; [exact Hpl |]. split; [exact Hpc |]. lra.
    + apply Z.ltb_ge in E. injection H as <-. now left.
Qed.

Lemma step_indexes lookahead rng points st st' :
  PurePursuitRobot.step lookahead rng points st = Ok st' ->
  PurePursuitRobot.findClosestPoint points (PurePursuitRobot.x st)
    (PurePursuitRobot.y st) (PurePursuitRobot.ci st)
    (PurePursuitRobot.ci st + 30)
  = Ok (PurePursuitRobot.ci st')
  /\ PurePursuitRobot.advanceLookahead
       (Z.to_nat (Z.of_nat (length points) - 1 - PurePursuitRobot.li st))
       lookahead points (PurePursuitRobot.ci st') (PurePursuitRobot.li st)
     = Ok (PurePursuitRobot.li st').
Proof.
  unfold PurePursuitRobot.step. intros H.
  apply bind_Ok in H as (ci' & Hci & H).
  apply bind_Ok in H as (li' & Hli & H).
  apply bind_Ok in H as (pl & _ & H).
  destruct (Req_dec_T _ 0) as [_ | _]; [discriminate H |].
  apply bind_Ok in H as (thl & _ & H).
  apply bind_Ok in H as (pc & _ & H).
  apply bind_Ok in H as (curve & _ & H).
  injection H as <-. now split.
Qed.

(** X25: after a turn of the pursuit loop the lookahead index is the last
    index of the trajectory, or the point it names is at least
    [lookahead] away from the closest point found in that turn. *)
Theorem lookahead_point_far_enough :
  forall lookahead rng points st st',
    PurePursuitRobot.step lookahead rng points st = Ok st' ->
    (0 <= PurePursuitRobot.li st <= Z.of_nat (length points) - 1)%Z ->
    PurePursuitRobot.li st' = (Z.of_nat (length points) - 1)%Z
    \/ exists pl pc,
         nth_error points (Z.to_nat (PurePursuitRobot.li st')) = Some pl
         /\ nth_error points (Z.to_nat (PurePursuitRobot.ci st')) = Some pc
         /\ lookahead <= Utility.distance (Point.x pl) (Point.y pl)
                           (Point.x pc) (Point.y pc).
Proof.
  intros lookahead rng points st st' Hstep Hli.
  pose proof (step_li_bounds _ _ _ _ _ Hstep ltac:(lia)) as Hb.
  apply step_indexes in Hstep as [Hci Hadv].
  apply findClosestPoint_window in Hci.
  apply advanceLookahead_stop in Hadv; try lia.
  destruct Hadv as [Hlast | Hfar]; [left; lia | now right].
Qed.

Lemma lookahead_point_witness :
  exists st1,
    PurePursuitRobot.step 30 noNoise trackPoints trackStart = Ok st1
    /\ (PurePursuitRobot.li st1 = (Z.of_nat (length trackPoints) - 1)%Z
        \/ exists pl pc,
             nth_error trackPoints (Z.to_nat (PurePursuitRobot.li st1))
             = Some pl
             /\ nth_error trackPoints (Z.to_nat (PurePursuitRobot.ci st1))
                = Some pc
             /\ 30 <= Utility.distance (Point.x pl) (Point.y pl)
                        (Point.x pc) (Point.y pc)).
Proof.
  destruct track_step as [st1 Hstep].
  exists st1. split; [exact Hstep |].
  apply (lookahead_point_far_enough 30 noNoise trackPoints trackStart st1 Hstep).
  cbn. lia.
Defined.

(** *** The trace of a pursuit run *)

Lemma pursuit_point_fields x y theta a b c d e f g h :
  hasPursuitFields
    (SimulationPoint.mk x y theta
       [("xvel"%string, a); ("yvel"%string, b); ("tvel"%string, c);
        ("cx"%string, d); ("cy"%string, e); ("lx"%string, f);
        ("ly"%string, g); ("curve"%string, h)]).
Proof.
  unfold hasPursuitFields, pursuitFields.
  repeat constructor; cbn; discriminate.
Qed.

Lemma reachable_trace lookahead rng points st st' :
  reachable lookahead rng points st st' ->
  PurePursuitRobot.timestep st
  = Z.of_nat (length (PurePursuitRobot.simulation st)) ->
  (PurePursuitRobot.timestep st <= PurePursuitRobot.MAX_TIMESTEPS + 1)%Z ->
  Forall hasPursuitFields (PurePursuitRobot.simulation st) ->
  PurePursuitRobot.timestep st'
  = Z.of_nat (length (PurePursuitRobot.simulation st'))
  /\ (PurePursuitRobot.timestep st' <= PurePursuitRobot.MAX_TIMESTEPS + 1)%Z
  /\ Forall hasPursuitFields (PurePursuitRobot.simulation st').
Proof.
  induction 1 as [st | st st' st'' Hr IH Hrun Ht Hstep];
    intros Hlen Hmax Hf.
  - auto.
  - destruct (IH Hlen Hmax Hf) as (Hl & Hm & Hfs).
    apply step_shape in Hstep
      as (tx & ty & tt & cx & cy & lx & ly & curve & Hts & _ & _ & _ & _
          & _ & _ & _ & Hsim).
    rewrite Hts, Hsim, length_app. cbn [length].
    split; [lia |]. split; [lia |].
    apply Forall_app. split; [exact Hfs |].
    constructor; [apply pursuit_point_fields | constructor].
Qed.

(** X15: a pursuit simulation that returns has at most
    [MAX_TIMESTEPS + 1] steps, and every state point of it carries the
    attributes xvel, yvel, tvel, cx, cy, lx, ly and curve. *)
Theorem pursuit_trace :
  forall fuel lookahead rng points sim,
    PurePursuitRobot.computeSimulation fuel lookahead rng points = Ok sim ->
    (Z.of_nat (length sim) <= PurePursuitRobot.MAX_TIMESTEPS + 1)%Z
    /\ Forall hasPursuitFields sim.
Proof.
  intros fuel lookahead rng points sim H.
  unfold PurePursuitRobot.computeSimulation in H.
  apply bind_Ok in H as (st0 & Hinit & H).
  apply mainLoop_reachable in H as (st' & Hr & ->).
  unfold PurePursuitRobot.initial in Hinit.
  apply bind_Ok in Hinit as (p0 & _ & Hinit).
  apply bind_Ok in Hinit as (th & _ & Hinit).
  injection Hinit as <-.
  apply reachable_trace in Hr as (Hl & Hm & Hf).
  - rewrite <- Hl. split; assumption.
  - reflexivity.
  - cbn. unfold PurePursuitRobot.MAX_TIMESTEPS. lia.
  - constructor.
Qed.

Lemma running_fuel points st : PurePursuitRobot.running points st <> OutOfFuel.
Proof.
  unfold PurePursuitRobot.running.
  destruct (negb _); [discriminate |].
  pose proof (py_index_fuel points (-1)).
  destruct (py_index points (-1)); cbn; try congruence.
  repeat (match goal with |- context [Rgt_dec ?a ?b] =>
            destruct (Rgt_dec a b) end; try discriminate).
Qed.

Lemma closestLoop_fuel points x y end_ :
  forall n start minIndex minDist,
    PurePursuitRobot.closestLoop n points x y end_ start minIndex minDist
    <> OutOfFuel.
Proof.
  induction n as [| n IH]; intros start minIndex minDist;
    cbn [PurePursuitRobot.closestLoop]; [discriminate |].
  destruct (start <? end_)%Z; [| discriminate].
  pose proof (py_index_fuel points start).
  destruct (py_index points start); cbn; try congruence.
  destruct (Rlt_dec _ minDist); apply IH.
Qed.

Lemma advanceLookahead_fuel lookahead points ci :
  forall n li,
    PurePursuitRobot.advanceLookahead n lookahead points ci li <> OutOfFuel.
Proof.
  induction n as [| n IH]; intros li;
    cbn [PurePursuitRobot.advanceLookahead]; [discriminate |].
  destruct (li <? _)%Z; [| discriminate].
  pose proof (py_index_fuel points li).
  destruct (py_index points li); cbn; try congruence.
  pose proof (py_index_fuel points ci).
  destruct (py_index points ci); cbn; try congruence.
  destruct (Rlt_dec _ lookahead); [apply IH | discriminate].
Qed.

Lemma attr_fuel a : attr a <> OutOfFuel.
Proof. destruct a; discriminate. Qed.

Lemma step_fuel lookahead rng points st :
  PurePursuitRobot.step lookahead rng points st <> OutOfFuel.
Proof.
  unfold PurePursuitRobot.step, PurePursuitRobot.findClosestPoint.
  match goal with |- context [py_index points ?k] =>
    pose proof (py_index_fuel points k); destruct (py_index points k) end;
    cbn [bind]; try congruence.
  match goal with |- context [PurePursuitRobot.closestLoop ?n ?p ?x ?y ?e ?s ?m ?d] =>
    pose proof (closestLoop_fuel p x y e n s m d);
    destruct (PurePursuitRobot.closestLoop n p x y e s m d) end;
    cbn [bind]; try congruence.
  match goal with |- context [PurePursuitRobot.advanceLookahead ?n ?l ?p ?c ?i] =>
    pose proof (advanceLookahead_fuel l p c n i);
    destruct (PurePursuitRobot.advanceLookahead n l p c i) end;
    cbn [bind]; try congruence.
  match goal with |- context [py_index points ?k] =>
    pose proof (py_index_fuel points k); destruct (py_index points k) end;
    cbn [bind]; try congruence.
  destruct (Req_dec_T _ 0); [discriminate |].
  match goal with |- context [attr ?o] =>
    pose proof (attr_fuel o); destruct (attr o) end;
    cbn [bind]; try congruence.
  match goal with |- context [py_index points ?k] =>
    pose proof (py_index_fuel points k); destruct (py_index points k) end;
    cbn [bind]; try congruence.
  match goal with |- context [attr ?o] =>
    pose proof (attr_fuel o); destruct (attr o) end;
    cbn [bind]; try congruence; try discriminate.
Qed.

Lemma mainLoop_terminates lookahead rng points :
  forall fuel st,
    (1 <= fuel)%nat ->
    (PurePursuitRobot.MAX_TIMESTEPS + 2 - PurePursuitRobot.timestep st
     <= Z.of_nat fuel)%Z ->
    PurePursuitRobot.mainLoop fuel lookahead rng points st <> OutOfFuel.
Proof.
  induction fuel as [| fuel IH]; intros st H1 Hb; [lia |].
  cbn [PurePursuitRobot.mainLoop].
  pose proof (running_fuel points st) as Hrun.
  destruct (PurePursuitRobot.running points st) as [c | e |];
    cbn [bind]; try congruence.
  destruct c; [| discriminate].
  destruct (PurePursuitRobot.timestep st >? PurePursuitRobot.MAX_TIMESTEPS)%Z
    eqn:Et; [discriminate |].
  pose proof (step_fuel lookahead rng points st) as Hstep.
  destruct (PurePursuitRobot.step lookahead rng points st) as [st' | e |]
    eqn:Es; cbn [bind]; try congruence.
  apply step_shape in Es as (tx & ty & tt & cx & cy & lx & ly & curve & Hts & _).
  rewrite Z.gtb_ltb in Et. apply Z.ltb_ge in Et.
  apply IH; rewrite ?Hts; lia.
Qed.

(** X16: the step ceiling makes the pursuit simulation finite: with fuel
    for [MAX_TIMESTEPS + 2] turns of the main loop, [computeSimulation]
    never runs out of fuel; it returns a trace or raises. *)
Theorem pursuit_terminates :
  forall fuel lookahead rng points,
    (PurePursuitRobot.MAX_TIMESTEPS + 2 <= Z.of_nat fuel)%Z ->
    PurePursuitRobot.computeSimulation fuel lookahead rng points
    <> OutOfFuel.
Proof.
  intros fuel lookahead rng points Hfuel.
  unfold PurePursuitRobot.computeSimulation.
  destruct (PurePursuitRobot.initial rng points) as [st0 | e |] eqn:Einit;
    cbn [bind]; try discriminate.
  - apply mainLoop_terminates.
    + unfold PurePursuitRobot.MAX_TIMESTEPS in Hfuel. lia.
    + unfold PurePursuitRobot.initial in Einit.
      apply bind_Ok in Einit as (p0 & _ & Einit).
      apply bind_Ok in Einit as (th & _ & Einit).
      injection Einit as <-. cbn [PurePursuitRobot.timestep]. lia.
  - unfold PurePursuitRobot.initial in Einit.
    pose proof (py_index_fuel points 0).
    destruct (py_index points 0); cbn in Einit; try congruence.
    pose proof (attr_fuel (Point.theta a)).
    destruct (attr (Point.theta a)); cbn in Einit; congruence.
Qed.

Lemma pursuit_terminates_witness :
  PurePursuitRobot.computeSimulation (Z.to_nat 50002) 30 noNoise trackPoints
  <> OutOfFuel.
Proof.
  apply (pursuit_terminates (Z.to_nat 50002) 30 noNoise trackPoints).
  unfold PurePursuitRobot.MAX_TIMESTEPS. lia.
Defined.

Lemma near_step :
  exists st1,
    PurePursuitRobot.step 30 noNoise nearPoints trackStart = Ok st1
    /\ PurePursuitRobot.li st1 = 1%Z.
Proof.
  unfold PurePursuitRobot.step.
  change (PurePursuitRobot.findClosestPoint nearPoints
            (PurePursuitRobot.x trackStart) (PurePursuitRobot.y trackStart)
            (PurePursuitRobot.ci trackStart)
            (PurePursuitRobot.ci trackStart + 30))
    with (Ok 0%Z : result Z).
  cbn [bind].
  assert (Hadv : PurePursuitRobot.advanceLookahead
            (Z.to_nat (Z.of_nat (length nearPoints) - 1
                       - PurePursuitRobot.li trackStart))
            30 nearPoints 0 (PurePursuitRobot.li trackStart) = Ok 1%Z).
  { change (Z.to_nat (Z.of_nat (length nearPoints) - 1
                       - PurePursuitRobot.li trackStart)) with 1%nat.
    cbn [PurePursuitRobot.advanceLookahead PurePursuitRobot.li trackStart].
    change (0 <? Z.of_nat (length nearPoints) - 1)%Z with true.
    change (py_index nearPoints 0)
      with (Ok (Point.mk 0 0 Utility.RED (Some 0) (Some 0))).
    cbn [bind Point.x Point.y].
    unfold Utility.distance. replace (0 - 0) with 0 by ring.
    rewrite hypo_zero.
    destruct (Rlt_dec 0 30) as [_ | N]; [reflexivity | lra]. }
  rewrite Hadv. cbn [bind].
  change (py_index nearPoints 1)
    with (Ok (Point.mk (1 / 2) 0 Utility.RED (Some 0) (Some 0))).
  cbn [bind Point.x Point.y Point.theta Point.curve attr
       PurePursuitRobot.x PurePursuitRobot.y trackStart].
  destruct (Req_dec_T _ 0) as [E | _].
  - exfalso.
    replace ((1 / 2 - (0 + 10 * 0)) * K_P_TRANS) with 15 in E
      by (unfold K_P_TRANS; field).
    replace ((0 - (0 + 10 * 0)) * K_P_TRANS) with 0 in E
      by (unfold K_P_TRANS; ring).
    rewrite hypo_axis in E by lra. lra.
  - change (py_index nearPoints 0)
      with (Ok (Point.mk 0 0 Utility.RED (Some 0) (Some 0))).
    cbn [bind]. eexists. split; reflexivity.
Qed.

Lemma near_stop st1 :
  PurePursuitRobot.step 30 noNoise nearPoints trackStart = Ok st1 ->
  PurePursuitRobot.li st1 = 1%Z ->
  PurePursuitRobot.running nearPoints st1 = Ok false.
Proof.
  intros Hstep Hli.
  apply step_shape in Hstep
    as (tx & ty & tt & cx & cy & lx & ly & curve & _ & _ & Hxv & Hyv & Htv
        & Hx & Hy & _ & _).
  cbn [PurePursuitRobot.xvel PurePursuitRobot.yvel PurePursuitRobot.tvel
       PurePursuitRobot.x PurePursuitRobot.y PurePursuitRobot.draws
       trackStart] in Hxv, Hyv, Htv, Hx, Hy.
  unfold noNoise in Hx, Hy.
  assert (HA : 0 <= MAX_TRANS_ACCEL <= 5 / 2)
    by (unfold MAX_TRANS_ACCEL; lra).
  assert (HB : 0 <= MAX_ROT_ACCEL <= 2) by (unfold MAX_ROT_ACCEL; lra).
  pose proof (clamp_bound (tx - 0) MAX_TRANS_ACCEL (proj1 HA)) as Bx.
  pose proof (clamp_bound (ty - 0) MAX_TRANS_ACCEL (proj1 HA)) as By.
  pose proof (clamp_bound (tt - 0) MAX_ROT_ACCEL (proj1 HB)) as Bt.
  set (vx := Utility.clamp (tx - 0) (- MAX_TRANS_ACCEL) MAX_TRANS_ACCEL) in *.
  set (vy := Utility.clamp (ty - 0) (- MAX_TRANS_ACCEL) MAX_TRANS_ACCEL) in *.
  set (vt := Utility.clamp (tt - 0) (- MAX_ROT_ACCEL) MAX_ROT_ACCEL) in *.
  assert (Bvx : Rabs (PurePursuitRobot.xvel st1) <= 5 / 2)
    by (rewrite Hxv, Rplus_0_l; lra).
  assert (Bvy : Rabs (PurePursuitRobot.yvel st1) <= 5 / 2)
    by (rewrite Hyv, Rplus_0_l; lra).
  assert (Bvt : Rabs (PurePursuitRobot.tvel st1) <= 2)
    by (rewrite Htv, Rplus_0_l; lra).
  assert (Bpx : Rabs (PurePursuitRobot.x st1 - 1 / 2) <= 3 / 5).
  { rewrite Hx. unfold STEP_TIME.
    pose proof (Rle_abs (PurePursuitRobot.xvel st1)) as U.
    pose proof (Rle_abs (- PurePursuitRobot.xvel st1)) as L.
    rewrite Rabs_Ropp in L.
    apply Rabs_le. lra. }
  assert (Bpy : Rabs (PurePursuitRobot.y st1 - 0) <= 1 / 10).
  { rewrite Hy. unfold STEP_TIME.
    pose proof (Rle_abs (PurePursuitRobot.yvel st1)) as U.
    pose proof (Rle_abs (- PurePursuitRobot.yvel st1)) as L.
    rewrite Rabs_Ropp in L.
    apply Rabs_le. lra. }
  unfold PurePursuitRobot.running. rewrite Hli.
  change (negb (1 =? Z.of_nat (length nearPoints) - 1)%Z) with false.
  cbn iota.
  change (py_index nearPoints (-1))
    with (Ok (Point.mk (1 / 2) 0 Utility.RED (Some 0) (Some 0))).
  cbn [bind Point.x Point.y].
  pose proof (hypo_le_sum (PurePursuitRobot.x st1 - 1 / 2)
                (PurePursuitRobot.y st1 - 0)) as Hh.
  unfold Utility.distance, STOP_DISTANCE_THRESHOLD.
  destruct (Rgt_dec _ 1) as [G | _]; [lra |].
  destruct (Rgt_dec _ 5) as [G | _]; [lra |].
  destruct (Rgt_dec _ 5) as [G | _]; [lra |].
  destruct (Rgt_dec _ 5) as [G | _]; [lra | reflexivity].
Qed.

Lemma near_run :
  exists sim,
    PurePursuitRobot.computeSimulation 2 30 noNoise nearPoints = Ok sim
    /\ (1 <= length sim)%nat.
Proof.
  destruct near_step as (st1 & Hstep & Hli).
  exists (PurePursuitRobot.simulation st1). split.
  - unfold PurePursuitRobot.computeSimulation.
    change (PurePursuitRobot.initial noNoise nearPoints) with (Ok trackStart).
    cbn [bind PurePursuitRobot.mainLoop].
    change (PurePursuitRobot.running nearPoints trackStart)
      with (Ok true : result bool).
    cbn [bind].
    change (PurePursuitRobot.timestep trackStart
            >? PurePursuitRobot.MAX_TIMESTEPS)%Z with false.
    cbn iota. rewrite Hstep. cbn [bind].
    rewrite (near_stop st1 Hstep Hli). reflexivity.
  - apply step_shape in Hstep
      as (tx & ty & tt & cx & cy & lx & ly & curve & _ & _ & _ & _ & _
          & _ & _ & _ & Hsim).
    rewrite Hsim, length_app. cbn. lia.
Qed.

Lemma pursuit_trace_witness :
  exists sim,
    PurePursuitRobot.computeSimulation 2 30 noNoise nearPoints = Ok sim
    /\ (1 <= length sim)%nat
    /\ (Z.of_nat (length sim) <= PurePursuitRobot.MAX_TIMESTEPS + 1)%Z
    /\ Forall hasPursuitFields sim.
Proof.
  destruct near_run as (sim & Hrun & Hlen).
  exists sim. split; [exact Hrun |]. split; [exact Hlen |].
  exact (pursuit_trace 2 30 noNoise nearPoints sim Hrun).
Defined.

(** *** The closest-point search *)

Lemma py_index_past_end {A} (l : list A) (i : Z) :
  (Z.of_nat (length l) <= i)%Z -> py_index l i = Raise IndexError.
Proof.
  intros Hi. unfold py_index, py_norm.
  destruct (i <? 0)%Z eqn:E; [lia |]. rewrite E.
  destruct (nth_error l (Z.to_nat i)) eqn:En; [| reflexivity].
  assert (nth_error l (Z.to_nat i) <> None) as Hn by congruence.
  apply nth_error_Some in Hn. lia.
Qed.

Lemma closestLoop_returns points x y end_ :
  (end_ <= Z.of_nat (length points))%Z ->
  forall n start minIndex minDist,
    (0 <= start)%Z ->
    exists r,
      PurePursuitRobot.closestLoop n points x y end_ start minIndex minDist
      = Ok r.
Proof.
  intros Hend.
  induction n as [| n IH]; intros start minIndex minDist H0;
    cbn [PurePursuitRobot.closestLoop]; [eauto |].
  destruct (start <? end_)%Z eqn:E; [| eauto].
  apply Z.ltb_lt in E.
  destruct (py_index_in_range points start ltac:(lia)) as (p & _ & ->).
  cbn [bind].
  destruct (Rlt_dec _ minDist); apply IH; lia.
Qed.

Lemma closestLoop_first points x y end_ lo :
  forall n start minIndex minDist r,
    PurePursuitRobot.closestLoop n points x y end_ start minIndex minDist
    = Ok r ->
    (0 <= start)%Z ->
    (lo <= minIndex < start)%Z ->
    minDist = distanceTo points x y minIndex ->
    (forall j, (lo <= j < start)%Z -> minDist <= distanceTo points x y j) ->
    (forall j, (lo <= j < minIndex)%Z -> minDist < distanceTo points x y j) ->
    forall j, (lo <= j < r)%Z ->
              distanceTo points x y r < distanceTo points x y j.
Proof.
  induction n as [| n IH];
    intros start minIndex minDist r H H0 Hmi Hm Hlow Hstrict j Hj.
  - cbn in H. injection H as <-. rewrite <- Hm. now apply Hstrict.
  - cbn [PurePursuitRobot.closestLoop] in H.
    destruct (start <? end_)%Z eqn:E.
    + apply bind_Ok in H as (p & Hp & H).
      apply py_index_nonneg in Hp; [| exact H0].
      assert (Hd : Utility.distance x y (Point.x p) (Point.y p)
                   = distanceTo points x y start).
      { unfold distanceTo. now rewrite Hp. }
      rewrite Hd in H.
      destruct (Rlt_dec (distanceTo points x y start) minDist) as [Hlt | Hge].
      * apply (IH _ _ _ _ H); try lia; try reflexivity.
        -- intros k Hk. destruct (Z.eq_dec k start) as [-> | Hne]; [lra |].
           specialize (Hlow k ltac:(lia)). lra.
        -- intros k Hk. specialize (Hlow k ltac:(lia)). lra.
      * apply (IH _ _ _ _ H); try lia; try assumption.
        intros k Hk. destruct (Z.eq_dec k start) as [-> | Hne]; [lra |].
        apply Hlow. lia.
    + injection H as <-. rewrite <- Hm. now apply Hstrict.
Qed.

(** X17: [findClosestPoint] raises IndexError when the clipped start
    [max(start, 0)] is past the last index of [points] (so on an empty
    trajectory); otherwise it returns an index [r] that is the clipped
    start or lies in the window [[max(start,0), min(end, len(points)-1))],
    whose distance to (x, y) is least among the indexes of the window, and
    strictly less than that of every earlier index of the window: of
    several closest points the first is returned. *)
Theorem closest_point_search :
  forall points x y start end_,
    let lo := Z.max start 0 in
    let hi := Z.min end_ (Z.of_nat (length points) - 1) in
    ((Z.of_nat (length points) <= lo)%Z
     /\ PurePursuitRobot.findClosestPoint points x y start end_
        = Raise IndexError)
    \/ ((lo < Z.of_nat (length points))%Z
        /\ exists r,
             PurePursuitRobot.findClosestPoint points x y start end_ = Ok r
             /\ (r = lo \/ (lo < r < hi)%Z)
             /\ (forall j, (lo <= j < hi)%Z ->
                   distanceTo points x y r <= distanceTo points x y j)
             /\ (forall j, (lo <= j < r)%Z ->
                   distanceTo points x y r < distanceTo points x y j)).
Proof.
  intros points x y start end_ lo hi.
  destruct (Z_le_gt_dec (Z.of_nat (length points)) lo) as [Hout | Hin].
  - left. split; [exact Hout |].
    unfold PurePursuitRobot.findClosestPoint. fold lo.
    now rewrite (py_index_past_end points lo Hout).
  - right. split; [lia |].
    assert (Hex : exists r,
               PurePursuitRobot.findClosestPoint points x y start end_ = Ok r).
    { unfold PurePursuitRobot.findClosestPoint. fold lo. fold hi.
      destruct (py_index_in_range points lo ltac:(lia)) as (p & _ & ->).
      cbn [bind]. apply closestLoop_returns; lia. }
    destruct Hex as (r & Hr). exists r. split; [exact Hr |].
    destruct (findClosestPoint_minimizes points x y start end_ r Hr)
      as (Hw & Hmin).
    split; [exact Hw |]. split; [exact Hmin |].
    unfold PurePursuitRobot.findClosestPoint in Hr. fold lo in Hr. fold hi in Hr.
    apply bind_Ok in Hr as (p & Hp & Hr).
    apply py_index_nonneg in Hp; [| lia].
    intros j Hj.
    apply (closestLoop_first points x y hi lo _ _ _ _ _ Hr); try lia.
    + unfold distanceTo. now rewrite Hp.
    + intros k Hk. replace k with lo by lia.
      unfold distanceTo. rewrite Hp. lra.
Qed.

(* ================================================================== *)
(** ** Further properties of the pose list *)

(** *** Deleting a pose *)

Lemma with_poses_same self : PathEdit.with_poses self (Path.poses self) = self.
Proof. now destruct self. Qed.


Lemma posePositions_set_theta th p0 p1 rest :
  posePositions (p0 :: PathEdit.set_theta th p1 :: rest)
  = posePositions (p0 :: p1 :: rest).
Proof. reflexivity. Qed.



(** X19: [deletePose(index)] with an integer index does nothing for
    [index = -1]; for any other index inside [[-len(poses), len(poses))]
    it removes exactly that pose, the others keeping their order and
    positions; for an index outside it raises IndexError and leaves the
    path as it was.  In no case is [points] touched. *)
Theorem deletePose_outcome :
  forall self index,
    let n := Z.of_nat (length (Path.poses self)) in
    let j := Z.to_nat (py_norm (length (Path.poses self)) index) in
    let r := PathEdit.deletePose self index in
    Path.points (fst r) = Path.points self
    /\ ((index = (-1)%Z /\ r = (self, Ok tt))
        \/ (index <> (-1)%Z /\ (- n <= index < n)%Z
            /\ snd r = Ok tt
            /\ Z.of_nat (length (Path.poses (fst r))) = (n - 1)%Z
            /\ posePositions (Path.poses (fst r))
               = firstn j (posePositions (Path.poses self))
                 ++ skipn (S j) (posePositions (Path.poses self)))
        \/ ((index < - n \/ n <= index)%Z
            /\ r = (self, Raise IndexError))).
Proof.
  intros [poses points sd] index. cbn zeta. cbn [Path.poses Path.points].
  unfold PathEdit.deletePose. cbn [Path.poses].
  destruct (index =? -1)%Z eqn:Em.
  { apply Z.eqb_eq in Em. split; [reflexivity |]. left. now split. }
  apply Z.eqb_neq in Em.
  match goal with |- context [py_del ?l index] => set (poses1 := l) end.
  assert (Hlen : length poses1 = length poses).
  { subst poses1. destruct ((index =? 0)%Z && _)%bool; [| reflexivity].
    destruct poses as [| p0 [| p1 rest]]; try reflexivity.
    now destruct (Pose.theta p1). }
  assert (Hpos : posePositions poses1 = posePositions poses).
  { subst poses1. destruct ((index =? 0)%Z && _)%bool; [| reflexivity].
    destruct poses as [| p0 [| p1 rest]]; try reflexivity.
    now destruct (Pose.theta p1). }
  assert (Hsame : (Z.of_nat (length poses) <= index)%Z \/ (index < - Z.of_nat (length poses))%Z ->
                  poses1 = poses).
  { intros Hout. subst poses1.
    destruct (index =? 0)%Z eqn:E0; [| reflexivity].
    apply Z.eqb_eq in E0.
    destruct (1 <? length poses)%nat eqn:E1; [| reflexivity].
    apply Nat.ltb_lt in E1. lia. }
  unfold py_del. rewrite Hlen.
  set (jz := py_norm (length poses) index).
  destruct (jz <? 0)%Z eqn:Ej.
  { apply Z.ltb_lt in Ej. cbn [fst snd Path.points PathEdit.with_poses].
    split; [reflexivity |]. right. right.
    assert (Hout : (index < - Z.of_nat (length poses))%Z).
    { subst jz. unfold py_norm in Ej. destruct (index <? 0)%Z eqn:E; lia. }
    split; [now left |]. rewrite Hsame by now right. reflexivity. }
  apply Z.ltb_ge in Ej.
  destruct (jz <? Z.of_nat (length poses))%Z eqn:Eh.
  - apply Z.ltb_lt in Eh. cbn [fst snd Path.points Path.poses PathEdit.with_poses].
    split; [reflexivity |]. right. left.
    split; [exact Em |].
    assert (Hin : (- Z.of_nat (length poses) <= index < Z.of_nat (length poses))%Z).
    { subst jz. unfold py_norm in Ej, Eh. destruct (index <? 0)%Z eqn:E.
      - apply Z.ltb_lt in E. lia.
      - apply Z.ltb_ge in E. lia. }
    split; [exact Hin |]. split; [reflexivity |]. split.
    + rewrite length_app, length_firstn, length_skipn, Hlen. lia.
    + unfold posePositions in *.
      rewrite map_app, <- firstn_map, <- skipn_map, Hpos. reflexivity.
  - apply Z.ltb_ge in Eh. cbn [fst snd Path.points PathEdit.with_poses].
    split; [reflexivity |]. right. right.
    assert (Hout : (Z.of_nat (length poses) <= index)%Z).
    { subst jz. unfold py_norm in Ej, Eh. destruct (index <? 0)%Z eqn:E.
      - apply Z.ltb_lt in E. lia.
      - lia. }
    split; [now right |]. rewrite Hsame by now left. reflexivity.
Qed.

(** *** Adding a pose *)

Lemma py_index_norm {A} (l : list A) (i : Z) a :
  py_index l i = Ok a ->
  (0 <= py_norm (length l) i < Z.of_nat (length l))%Z
  /\ nth_error l (Z.to_nat (py_norm (length l) i)) = Some a.
Proof.
  unfold py_index.
  destruct (py_norm (length l) i <? 0)%Z eqn:E; [discriminate |].
  apply Z.ltb_ge in E.
  destruct (nth_error l (Z.to_nat (py_norm (length l) i))) as [b |] eqn:En;
    [| discriminate].
  intros [= ->]. split; [| reflexivity].
  assert (nth_error l (Z.to_nat (py_norm (length l) i)) <> None) as Hn
    by congruence.
  apply nth_error_Some in Hn. lia.
Qed.

Lemma addPose_poses closest fuel self pathIndex x y fx fy px py :
  PathEdit.getMousePosePosition closest self pathIndex x y = Ok (px, py) ->
  Path.poses (fst (PathEdit.addPose closest fuel self pathIndex x y fx fy))
  = if (pathIndex =? -1)%Z then
      Path.poses self
      ++ [Pose.init px py fx fy
            (if (length (Path.poses self) =? 0)%nat
             then Some (- PI / 2) else None)]
    else
      py_insert (Path.poses self) (pathIndex + 1) (Pose.init px py fx fy None).
Proof.
  intros Hm. unfold PathEdit.addPose. rewrite Hm.
  match goal with |- context [Path.interpolatePoints fuel ?p] =>
    destruct (interpolatePoints_keeps_poses fuel p) as [-> _] end.
  reflexivity.
Qed.

Lemma insert_slot {A} (l : list A) (pathIndex : Z) a b :
  pathIndex <> (-1)%Z ->
  py_index l pathIndex = Ok a ->
  py_index l (pathIndex + 1) = Ok b ->
  Z.min (Z.max (py_norm (length l) (pathIndex + 1)) 0) (Z.of_nat (length l))
  = (py_norm (length l) pathIndex + 1)%Z
  /\ py_norm (length l) (pathIndex + 1) = (py_norm (length l) pathIndex + 1)%Z.
Proof.
  intros Hne Ha Hb.
  apply py_index_norm in Ha as [Ha _]. apply py_index_norm in Hb as [Hb _].
  unfold py_norm in *.
  destruct (pathIndex <? 0)%Z eqn:E1; destruct (pathIndex + 1 <? 0)%Z eqn:E2;
    try apply Z.ltb_lt in E1; try apply Z.ltb_ge in E1;
    try apply Z.ltb_lt in E2; try apply Z.ltb_ge in E2; lia.
Qed.



(** *** The segment under the mouse *)

Lemma touchingLoop_first touching x y :
  forall rest prev i,
    (0 <= i)%Z ->
    let poses := prev :: rest in
    let r := PathEdit.touchingLoop touching x y (Pose.x prev) (Pose.y prev)
               (i + 1) rest in
    (r = (-1)%Z
     /\ forall k, segmentTouched touching poses x y k = false)
    \/ (exists k, r = (i + Z.of_nat k)%Z
                  /\ (S k < length poses)%nat
                  /\ segmentTouched touching poses x y k = true
                  /\ forall m, (m < k)%nat ->
                               segmentTouched touching poses x y m = false).
Proof.
  induction rest as [| p rest IH]; intros prev i Hi; cbn zeta.
  - left. split; [reflexivity |].
    intros [| k]; cbn; [reflexivity |]. now destruct k.
  - cbn [PathEdit.touchingLoop].
    destruct (touching x y (Pose.x prev) (Pose.y prev) (Pose.x p) (Pose.y p) 3)
      eqn:Et.
    + right. exists 0%nat. split; [lia |]. split; [cbn; lia |].
      split; [exact Et |]. intros m Hm. lia.
    + specialize (IH p (i + 1)%Z ltac:(lia)). cbn zeta in IH.
      destruct IH as [[Hr Hnone] | (k & Hr & Hk & Htouch & Hbefore)].
      * left. split; [exact Hr |].
        intros [| k]; [exact Et |]. apply (Hnone k).
      * right. exists (S k). split; [lia |]. split; [cbn in *; lia |].
        split; [exact Htouch |].
        intros [| m] Hm; [exact Et |]. apply Hbefore. lia.
Qed.

Lemma touching_index_cases :
  forall touching self x y,
    let poses := Path.poses self in
    let r := PathEdit.getTouchingPathIndex touching self x y in
    (r = (-1)%Z
     /\ forall k, segmentTouched touching poses x y k = false)
    \/ ((0 <= r <= Z.of_nat (length poses) - 2)%Z
        /\ segmentTouched touching poses x y (Z.to_nat r) = true
        /\ forall m, (m < Z.to_nat r)%nat ->
                     segmentTouched touching poses x y m = false).
Proof.
  intros touching self x y. cbn zeta.
  unfold PathEdit.getTouchingPathIndex.
  destruct (Path.poses self) as [| p0 rest].
  - left. split; [reflexivity |]. now intros [| k].
  - destruct (touchingLoop_first touching x y rest p0 0 ltac:(lia))
      as [[Hr Hnone] | (k & Hr & Hk & Htouch & Hbefore)].
    + left. split; [exact Hr | exact Hnone].
    + right. cbn zeta in Hr. cbn [Z.add] in Hr. rewrite Hr.
      rewrite Nat2Z.id. split; [lia |]. split; [exact Htouch | exact Hbefore].
Qed.

(** X21: [getTouchingPathIndex] returns -1 when no segment between two
    consecutive poses is touched by (x, y), in particular on a path of
    fewer than two poses; otherwise it returns the index [r] of the first
    touched segment, and then [poses[r]] and [poses[r+1]] both exist. *)
Theorem touching_index_first :
  forall touching self x y,
    let poses := Path.poses self in
    let r := PathEdit.getTouchingPathIndex touching self x y in
    (r = (-1)%Z
     /\ forall k, segmentTouched touching poses x y k = false)
    \/ ((0 <= r <= Z.of_nat (length poses) - 2)%Z
        /\ segmentTouched touching poses x y (Z.to_nat r) = true
        /\ forall m, (m < Z.to_nat r)%nat ->
                     segmentTouched touching poses x y m = false).
Proof. exact touching_index_cases. Qed.

(** X22: when [self.pathIndex] is the index found by
    [getTouchingPathIndex] for some mouse position and is not -1,
    [getMousePosePosition] does not raise, and [addPose] puts the new pose,
    without a heading, between the two poses of that segment, at the point
    given by [pointOnLineClosestToPoint] for that segment; the other
    poses keep their order. *)
Theorem addPose_on_touched_segment :
  forall touching closest fuel self mx my x y fx fy r,
    PathEdit.getTouchingPathIndex touching self mx my = r ->
    r <> (-1)%Z ->
    exists p1 p2,
      nth_error (Path.poses self) (Z.to_nat r) = Some p1
      /\ nth_error (Path.poses self) (S (Z.to_nat r)) = Some p2
      /\ let q := closest x y (Pose.x p1) (Pose.y p1) (Pose.x p2) (Pose.y p2) in
         PathEdit.getMousePosePosition closest self r x y = Ok q
         /\ Path.poses (fst (PathEdit.addPose closest fuel self r x y fx fy))
            = firstn (S (Z.to_nat r)) (Path.poses self)
              ++ Pose.init (fst q) (snd q) fx fy None
                 :: skipn (S (Z.to_nat r)) (Path.poses self).
Proof.
  intros touching closest fuel self mx my x y fx fy r Hr Hne.
  destruct (touching_index_cases touching self mx my)
    as [[Hm _] | (Hrange & Htouch & _)]; rewrite Hr in *; [contradiction |].
  unfold segmentTouched in Htouch.
  destruct (nth_error (Path.poses self) (Z.to_nat r)) as [p1 |] eqn:E1;
    [| discriminate].
  destruct (nth_error (Path.poses self) (S (Z.to_nat r))) as [p2 |] eqn:E2;
    [| discriminate].
  exists p1, p2. split; [reflexivity |]. split; [reflexivity |].
  cbn zeta.
  assert (Hp1 : py_index (Path.poses self) r = Ok p1).
  { unfold py_index, py_norm.
    destruct (r <? 0)%Z eqn:E; [lia |]. rewrite E. now rewrite E1. }
  assert (Hp2 : py_index (Path.poses self) (r + 1) = Ok p2).
  { unfold py_index, py_norm.
    destruct (r + 1 <? 0)%Z eqn:E; [lia |]. rewrite E.
    replace (Z.to_nat (r + 1)) with (S (Z.to_nat r)) by lia. now rewrite E2. }
  assert (Hq : PathEdit.getMousePosePosition closest self r x y
               = Ok (closest x y (Pose.x p1) (Pose.y p1)
                       (Pose.x p2) (Pose.y p2))).
  { unfold PathEdit.getMousePosePosition.
    destruct (r =? -1)%Z eqn:E; [lia |].
    rewrite Hp1. cbn [bind]. rewrite Hp2. reflexivity. }
  split; [exact Hq |].
  destruct (closest x y (Pose.x p1) (Pose.y p1) (Pose.x p2) (Pose.y p2))
    as [px py] eqn:Eq.
  rewrite (addPose_poses _ _ _ _ _ _ _ _ _ _ Hq).
  destruct (r =? -1)%Z eqn:E; [lia |].
  unfold py_insert.
  destruct (insert_slot _ _ _ _ Hne Hp1 Hp2) as [-> _].
  unfold py_norm. destruct (r <? 0)%Z eqn:En; [lia |].
  replace (Z.to_nat (r + 1)) with (S (Z.to_nat r)) by lia.
  reflexivity.
Qed.

Lemma touched_midpoint :
  PathEdit.getTouchingPathIndex touchesMidpoint (Path.mk [lineA; lineB] [] 1)
    2 0 = 0%Z.
Proof.
  unfold PathEdit.getTouchingPathIndex. cbn [Path.poses PathEdit.touchingLoop].
  unfold touchesMidpoint, lineA, lineB, straightPose. cbn [Pose.init Pose.x Pose.y].
  destruct (Req_dec_T (2 * 2) (0 + 4)) as [_ | N]; [| exfalso; lra].
  destruct (Req_dec_T (2 * 0) (0 + 0)) as [_ | N]; [| exfalso; lra].
  reflexivity.
Qed.

Lemma addPose_touched_witness :
  exists p1 p2,
    nth_error (Path.poses (Path.mk [lineA; lineB] [] 1)) (Z.to_nat 0) = Some p1
    /\ nth_error (Path.poses (Path.mk [lineA; lineB] [] 1)) (S (Z.to_nat 0))
       = Some p2
    /\ let q := midpoint 2 1 (Pose.x p1) (Pose.y p1) (Pose.x p2) (Pose.y p2) in
       PathEdit.getMousePosePosition midpoint (Path.mk [lineA; lineB] [] 1)
         0 2 1 = Ok q
       /\ Path.poses
            (fst (PathEdit.addPose midpoint 1 (Path.mk [lineA; lineB] [] 1)
                    0 2 1 5 4))
          = firstn (S (Z.to_nat 0)) (Path.poses (Path.mk [lineA; lineB] [] 1))
            ++ Pose.init (fst q) (snd q) 5 4 None
               :: skipn (S (Z.to_nat 0))
                    (Path.poses (Path.mk [lineA; lineB] [] 1)).
Proof.
  apply (addPose_on_touched_segment touchesMidpoint midpoint 1
           (Path.mk [lineA; lineB] [] 1) 2 0 2 1 5 4 0%Z touched_midpoint).
  lia.
Defined.

(** *** The exceptions of the interpolation *)

Lemma py_index_raises {A} (l : list A) i e :
  py_index l i = Raise e -> e = IndexError.
Proof.
  unfold py_index. destruct (_ <? 0)%Z; [now intros [= <-] |].
  destruct (nth_error _ _); [discriminate | now intros [= <-]].
Qed.

Lemma py_update_raises {A} (l : list A) i f e :
  py_update l i f = Raise e -> e = IndexError.
Proof.
  unfold py_update.
  destruct (py_index l i) eqn:E; cbn [bind]; try discriminate.
  intros [= <-]. now apply py_index_raises in E.
Qed.

Lemma sampleLoop_raises sd P1 V1 V2 P2 :
  forall fuel ns xy points e,
    snd (Path.sampleLoop fuel sd P1 V1 V2 P2 ns xy points) = Raise e ->
    e = ZeroDivisionError.
Proof.
  induction fuel as [| fuel IH]; intros ns xy points e;
    cbn [Path.sampleLoop]; [discriminate |].
  destruct (Rlt_dec ns 1); [| discriminate].
  destruct (Req_dec_T _ 0); [now intros [= <-] | apply IH].
Qed.

Lemma spline_raises fuel sd poses points i s e :
  snd (Path.interpolateSplineCurve fuel sd poses points i s) = Raise e ->
  e <> AssertionError.
Proof.
  unfold Path.interpolateSplineCurve.
  destruct (nth_error poses i) as [p1 |]; [| now intros [= <-]].
  destruct (nth_error poses (i + 1)) as [p2 |]; [| now intros [= <-]].
  assert (Hfin : forall ns,
    snd (match Path.sampleLoop fuel sd (Pose.x p1, Pose.y p1)
                 (Pose.forward_x p1, Pose.forward_y p1)
                 (Pose.backward_x p2, Pose.backward_y p2)
                 (Pose.x p2, Pose.y p2) ns None points with
         | (points', Ok (Some xy)) =>
             (points',
              Ok (sd - Utility.distance (fst xy) (snd xy)
                         (fst (Pose.x p2, Pose.y p2))
                         (snd (Pose.x p2, Pose.y p2))))
         | (points', Ok None) => (points', Raise UnboundLocalError)
         | (points', Raise e) => (points', Raise e)
         | (points', OutOfFuel) => (points', OutOfFuel)
         end) = Raise e -> e <> AssertionError).
  { intros ns.
    pose proof (sampleLoop_raises sd (Pose.x p1, Pose.y p1)
                  (Pose.forward_x p1, Pose.forward_y p1)
                  (Pose.backward_x p2, Pose.backward_y p2)
                  (Pose.x p2, Pose.y p2) fuel ns None points) as Hs.
    destruct (Path.sampleLoop _ _ _ _ _ _ _ _ _) as [pts [[xy |] | e' |]];
      cbn [snd] in *; try discriminate.
    - now intros [= <-].
    - intros [= <-]. now rewrite (Hs e' eq_refl). }
  destruct (Req_dec_T s 0); [apply Hfin |].
  destruct (Req_dec_T _ 0); [now intros [= <-] |].
  destruct (Rgt_dec _ 1); [discriminate | apply Hfin].
Qed.

Lemma segmentBody_raises fuel sd poses i s known points e :
  snd (Path.segmentBody fuel sd poses i s known points) = Raise e ->
  e <> AssertionError.
Proof.
  unfold Path.segmentBody.
  destruct (nth_error poses i) as [p1 |]; [| now intros [= <-]].
  destruct (nth_error poses (i + 1)) as [p2 |]; [| now intros [= <-]].
  destruct (Path.samePosition p1 p2); [discriminate |].
  pose proof (spline_raises fuel sd poses points i s) as Hs.
  destruct (Path.interpolateSplineCurve fuel sd poses points i s)
    as [pts [s' | e' |]]; cbn [snd] in *; try discriminate.
  intros [= <-]. now apply Hs.
Qed.

Lemma segmentLoop_raises fuel sd poses :
  forall range s known points e,
    snd (Path.segmentLoop fuel sd poses range s known points) = Raise e ->
    e <> AssertionError.
Proof.
  induction range as [| i range IH]; intros s known points e;
    cbn [Path.segmentLoop]; [discriminate |].
  pose proof (segmentBody_raises fuel sd poses i s known points) as Hb.
  destruct (Path.segmentBody fuel sd poses i s known points)
    as [pts [[s' known'] | e' |]]; cbn [snd] in *; try discriminate.
  - apply IH.
  - intros [= <-]. now apply Hb.
Qed.

Lemma thetaInner_raises i1 th1 i2 th2 :
  forall range points e,
    snd (Path.thetaInner range i1 th1 i2 th2 points) = Raise e ->
    e <> AssertionError.
Proof.
  induction range as [| i range IH]; intros points e;
    cbn [Path.thetaInner]; [discriminate |].
  destruct (i2 - i1 =? 0)%Z; [now intros [= <-] |].
  match goal with |- context [py_update ?l ?k ?f] =>
    pose proof (py_update_raises l k f) as Hu;
    destruct (py_update l k f) as [pts | e' |] end;
    cbn [snd]; try discriminate.
  - apply IH.
  - intros [= <-]. now rewrite (Hu e' eq_refl).
Qed.

Lemma thetaOuter_raises :
  forall known i1 th1 points e,
    snd (Path.thetaOuter known i1 th1 points) = Raise e ->
    e <> AssertionError.
Proof.
  induction known as [| [i2 th2] known IH]; intros i1 th1 points e;
    cbn [Path.thetaOuter]; [discriminate |].
  pose proof (thetaInner_raises i1 th1 i2 th2 (zrange 0 (i2 - i1 + 1)) points)
    as Hi.
  destruct (Path.thetaInner _ i1 th1 i2 th2 points) as [pts [u | e' |]];
    cbn [snd] in *; try discriminate.
  - apply IH.
  - intros [= <-]. now apply Hi.
Qed.

Lemma thetaFill_raises th :
  forall range points e,
    snd (Path.thetaFill range th points) = Raise e -> e <> AssertionError.
Proof.
  induction range as [| i range IH]; intros points e;
    cbn [Path.thetaFill]; [discriminate |].
  match goal with |- context [py_update ?l ?k ?f] =>
    pose proof (py_update_raises l k f) as Hu;
    destruct (py_update l k f) as [pts | e' |] end;
    cbn [snd]; try discriminate.
  - apply IH.
  - intros [= <-]. now rewrite (Hu e' eq_refl).
Qed.

Lemma anchored_theta_raises th known points e :
  snd (Path.interpolateTheta ((0%Z, th) :: known) points) = Raise e ->
  e <> AssertionError.
Proof.
  unfold Path.interpolateTheta. cbn [Z.eqb].
  pose proof (thetaOuter_raises known 0%Z th points) as Ho.
  destruct (Path.thetaOuter known 0 th points) as [pts [[i1 th1] | e' |]];
    cbn [snd] in *; try discriminate.
  - apply thetaFill_raises.
  - intros [= <-]. now apply Ho.
Qed.

Lemma stack_assertion :
  snd (Path.interpolatePoints 3 (Path.mk [stackA; stackA'; stackB] [] 2))
  = Raise AssertionError.
Proof.
  unfold Path.interpolatePoints.
  cbn [Path.poses Path.segmentDistance length Nat.ltb Nat.leb Nat.sub seq
       Path.segmentLoop].
  unfold Path.segmentBody at 1. cbn [nth_error Nat.add].
  rewrite stack_same.
  unfold Path.segmentBody at 1. cbn [nth_error Nat.add].
  rewrite stack_apart, stack_spline.
  reflexivity.
Qed.

(** X23: the assertion [i1 == 0] of [interpolateTheta] can fail in
    [interpolatePoints] only when the first pose has no heading or the
    first two poses are on the same spot: with a heading on the first pose
    and the second pose elsewhere, no call of [interpolatePoints] ends in
    an AssertionError. *)
Theorem assertion_needs_missing_first_anchor :
  forall fuel p,
    snd (Path.interpolatePoints fuel p) = Raise AssertionError ->
    exists p0 p1 rest,
      Path.poses p = p0 :: p1 :: rest
      /\ (Pose.theta p0 = None \/ Path.samePosition p0 p1 = true).
Proof.
  intros fuel [poses points sd] H.
  destruct poses as [| p0 [| p1 rest]]; try discriminate H.
  exists p0, p1, rest. split; [reflexivity |].
  destruct (Pose.theta p0) as [th |] eqn:Eth; [| now left].
  destruct (Path.samePosition p0 p1) eqn:Epos; [now right |].
  exfalso.
  unfold Path.interpolatePoints in H. cbn [Path.poses Path.segmentDistance] in H.
  change (length (p0 :: p1 :: rest) <? 2)%nat with false in H.
  change (1 <? length (p0 :: p1 :: rest))%nat with true in H.
  cbn iota in H.
  pose proof (segmentLoop_raises fuel sd (p0 :: p1 :: rest)
                (seq 0 (length (p0 :: p1 :: rest) - 1)) 0 [] []) as Hl.
  destruct (Path.segmentLoop fuel sd (p0 :: p1 :: rest)
              (seq 0 (length (p0 :: p1 :: rest) - 1)) 0 [] [])
    as [pts [[s known] | e |]] eqn:El; cbn [snd] in *.
  - destruct (first_anchor_at_zero _ _ _ _ _ _ _ _ _ Eth Epos El)
      as [more ->].
    destruct (py_index (p0 :: p1 :: rest) (-1)) as [plast | e |] eqn:Ei;
      cbn [snd] in H.
    + destruct (Pose.theta plast) as [thl |]; cbn [fst snd app] in H;
        now apply anchored_theta_raises in H.
    + apply py_index_raises in Ei. congruence.
    + discriminate H.
  - apply (Hl e); congruence.
  - discriminate H.
Qed.

Lemma assertion_witness :
  exists p0 p1 rest,
    Path.poses (Path.mk [stackA; stackA'; stackB] [] 2) = p0 :: p1 :: rest
    /\ (Pose.theta p0 = None \/ Path.samePosition p0 p1 = true).
Proof.
  exact (assertion_needs_missing_first_anchor 3
           (Path.mk [stackA; stackA'; stackB] [] 2) stack_assertion).
Defined.




